(** * Percolation threshold estimation: a shallow embedding and its properties

    The development follows the C++ classes of the repository:

    - [Percolation] (Percolation.hpp): the n-by-n grid on top of a weighted
      quick-union structure with path compression;
    - [PercolationQuickFind] (PercolationQuickFind.hpp): the same grid on top
      of quick-find;
    - [PercolationStats] (PercolationStat.hpp): the Monte Carlo estimator;
    - [PercolationStatsQuickFind] (main.cpp): the same estimator on the
      quick-find grid.

    Member functions are embedded in a state-and-exception monad over a record
    of the class's fields.  A C++ [int] is a [Z]: the model computes with
    mathematical integers, as the program does while n*n+2 is representable
    (the integers a grid stores stay within the universe of n*n+2 elements,
    as shown with the properties of the grid; beyond that the constructor's
    n*n overflows,
    which C++ leaves undefined).  A [std::vector] is a list indexed by [Z]; an access outside
    the vector has no defined behaviour in C++ and aborts the computation in
    the model, and so does a recursion or a loop that uses up its fuel.  A
    [double] is a primitive binary64 float. *)

From Stdlib Require Import ZArith String Floats Uint63.
From stdpp Require Import base tactics option numbers relations list.

Local Open Scope Z_scope.
#[local] Set Warnings "-clear-no-such-hyp".

(** ** Outcomes of a call *)

Inductive exn : Type :=
| invalid_argument (what : string).   (* std::invalid_argument(what) *)

Inductive abort : Type :=
| OutOfBounds    (* a vector is indexed outside its bounds *)
| OutOfFuel.     (* the recursion or loop budget of the model is used up *)

Inductive outcome (St A : Type) : Type :=
| Ret (a : A) (s : St)         (* normal return, with the state it leaves *)
| Throw (e : exn) (s : St)     (* an exception leaves the call; [s] is the state at the throw *)
| Abort (why : abort).
Arguments Ret {St A} a s.
Arguments Throw {St A} e s.
Arguments Abort {St A} why.

Definition M (St A : Type) : Type := St → outcome St A.

Definition M_ret {St A} (a : A) : M St A := λ s, Ret a s.

Definition M_bind {St A B} (k : A → M St B) (m : M St A) : M St B :=
  λ s, match m s with
       | Ret a s' => k a s'
       | Throw e s' => Throw e s'
       | Abort w => Abort w
       end.

Global Instance M_mret St : MRet (M St) := @M_ret St.
Global Instance M_mbind St : MBind (M St) := @M_bind St.

Definition throw {St A} (e : exn) : M St A := λ s, Throw e s.
Definition abort_with {St A} (w : abort) : M St A := λ _, Abort w.
Definition gets {St A} (f : St → A) : M St A := λ s, Ret (f s) s.
Definition modify {St} (f : St → St) : M St unit := λ s, Ret () (f s).

(** [if (c) body;] *)
Definition when {St} (c : bool) (body : M St unit) : M St unit :=
  if c then body else mret ().

(** [c && m]: the right operand is evaluated only when the left one is true. *)
Definition and_then {St} (c : bool) (m : M St bool) : M St bool :=
  if c then m else mret false.

(** [for (int i = lo; i < lo + k; i++) body(i);] *)
Fixpoint for_loop {St} (lo : Z) (k : nat) (body : Z → M St unit) : M St unit :=
  match k with
  | O => mret ()
  | S k' => body lo;; for_loop (lo + 1) k' body
  end.

(** [while (cond) body;] *)
Fixpoint while_loop {St} (fuel : nat) (cond : M St bool) (body : M St unit)
  : M St unit :=
  match fuel with
  | O => abort_with OutOfFuel
  | S fuel' =>
      b ← cond;
      if b : bool then body;; while_loop fuel' cond body else mret ()
  end.

(** [do body; while (cond);] *)
Fixpoint do_while {St} (fuel : nat) (body : M St unit) (cond : M St bool)
  : M St unit :=
  match fuel with
  | O => abort_with OutOfFuel
  | S fuel' =>
      body;;
      b ← cond;
      if b : bool then do_while fuel' body cond else mret ()
  end.

(** The answer a caller sees: the value returned or the exception caught. *)
Inductive answer (A : Type) : Type :=
| Returned (a : A)
| Raised (e : exn)
| Aborted (w : abort).
Arguments Returned {A} a.
Arguments Raised {A} e.
Arguments Aborted {A} w.

Definition answer_of {St A} (o : outcome St A) : answer A :=
  match o with
  | Ret a _ => Returned a
  | Throw e _ => Raised e
  | Abort w => Aborted w
  end.

(** The state a caller that catches the exception goes on with. *)
Definition state_after {St A} (s : St) (o : outcome St A) : St :=
  match o with
  | Ret _ s' => s'
  | Throw _ s' => s'
  | Abort _ => s
  end.

(** ** Vectors *)

Section vector.
Context {A : Type}.

(** [v[i]] read *)
Definition vget (v : list A) (i : Z) : option A :=
  if bool_decide (0 ≤ i) then v !! Z.to_nat i else None.

(** [v[i] = a] *)
Definition vset (v : list A) (i : Z) (a : A) : option (list A) :=
  if bool_decide (0 ≤ i < Z.of_nat (length v))
  then Some (<[Z.to_nat i := a]> v) else None.

(** [v.resize(k, a)] *)
Definition vresize (v : list A) (k : Z) (a : A) : list A :=
  take (Z.to_nat k) v ++ replicate (Z.to_nat k - length v)%nat a.
End vector.

Definition of_option {St A} (o : option A) : M St A :=
  match o with
  | Some a => mret a
  | None => abort_with OutOfBounds
  end.

(** [int] to [double], exact for the 32-bit values of the program. *)
Definition double_of_int (z : Z) : float :=
  if bool_decide (z < 0) then PrimFloat.opp (PrimFloat.of_uint63 (Uint63.of_Z (- z)))
  else PrimFloat.of_uint63 (Uint63.of_Z z).

(** ** Percolation.hpp: weighted quick-union with path compression *)

Module Percolation.

Record t : Type := mk {
  n : Z;
  grid : list bool;          (* true if site is open *)
  parent : list Z;           (* parent array for union-find *)
  size : list Z;             (* size array for weighted union *)
  openSitesCount : Z;
  virtualTop : Z;            (* virtual top site index *)
  virtualBottom : Z          (* virtual bottom site index *)
}.

Definition with_n (v : Z) (s : t) : t :=
  mk v (grid s) (parent s) (size s) (openSitesCount s) (virtualTop s) (virtualBottom s).
Definition with_grid (v : list bool) (s : t) : t :=
  mk (n s) v (parent s) (size s) (openSitesCount s) (virtualTop s) (virtualBottom s).
Definition with_parent (v : list Z) (s : t) : t :=
  mk (n s) (grid s) v (size s) (openSitesCount s) (virtualTop s) (virtualBottom s).
Definition with_size (v : list Z) (s : t) : t :=
  mk (n s) (grid s) (parent s) v (openSitesCount s) (virtualTop s) (virtualBottom s).
Definition with_openSitesCount (v : Z) (s : t) : t :=
  mk (n s) (grid s) (parent s) (size s) v (virtualTop s) (virtualBottom s).
Definition with_virtualTop (v : Z) (s : t) : t :=
  mk (n s) (grid s) (parent s) (size s) (openSitesCount s) v (virtualBottom s).
Definition with_virtualBottom (v : Z) (s : t) : t :=
  mk (n s) (grid s) (parent s) (size s) (openSitesCount s) (virtualTop s) v.

(** Element reads and writes of the three vectors. *)
Definition get_grid (i : Z) : M t bool := λ s, of_option (vget (grid s) i) s.
Definition set_grid (i : Z) (b : bool) : M t unit :=
  λ s, (g ← of_option (vset (grid s) i b); modify (with_grid g)) s.
Definition get_parent (i : Z) : M t Z := λ s, of_option (vget (parent s) i) s.
Definition set_parent (i v : Z) : M t unit :=
  λ s, (p ← of_option (vset (parent s) i v); modify (with_parent p)) s.
Definition get_size (i : Z) : M t Z := λ s, of_option (vget (size s) i) s.
Definition set_size (i v : Z) : M t unit :=
  λ s, (z ← of_option (vset (size s) i v); modify (with_size z)) s.

(** Convert 2D coordinates to 1D index *)
Definition getIndex (row col : Z) : M t Z :=
  gets (λ s, row * n s + col).

(** Validate coordinates *)
Definition validate (row col : Z) : M t unit :=
  nn ← gets n;
  if (row <? 0) || (row >=? nn) || (col <? 0) || (col >=? nn)
  then throw (invalid_argument "Index out of bounds")
  else mret ().

(** Find root with path compression.  The C++ function recurses along the
    parent links; [fuel] bounds the depth of that recursion. *)
Fixpoint find_rec (fuel : nat) (x : Z) : M t Z :=
  match fuel with
  | O => abort_with OutOfFuel
  | S fuel' =>
      px ← get_parent x;
      (if bool_decide (px ≠ x)
       then r ← find_rec fuel' px; set_parent x r   (* path compression *)
       else mret ());;
      get_parent x
  end.

(** A chain of parent links without a cycle visits each element at most
    once, so the length of the parent array is fuel enough. *)
Definition find (x : Z) : M t Z :=
  λ s, find_rec (length (parent s)) x s.

(** Union two components with weighting *)
Definition unionSites (x y : Z) : M t unit :=
  rootX ← find x;
  rootY ← find y;
  if bool_decide (rootX = rootY) then mret () else
  sx ← get_size rootX;
  sy ← get_size rootY;
  if bool_decide (sx < sy) then
    (* attach smaller tree to larger tree *)
    set_parent rootX rootY;;
    a ← get_size rootY; b ← get_size rootX; set_size rootY (a + b)
  else
    set_parent rootY rootX;;
    a ← get_size rootX; b ← get_size rootY; set_size rootX (a + b).

(** Check if two sites are connected.  C++ leaves the order of the two
    [find] calls open; they are made left to right here, and the roots they
    return do not depend on the order (see [compress_root]). *)
Definition connected (x y : Z) : M t bool :=
  rx ← find x;
  ry ← find y;
  mret (bool_decide (rx = ry)).

(** The members before the constructor body runs: empty vectors. *)
Definition blank : t := mk 0 [] [] [] 0 0 0.

(** creates n-by-n grid, with all sites initially blocked *)
Definition ctor (n0 : Z) : M t unit :=
  if bool_decide (n0 ≤ 0)
  then throw (invalid_argument "Grid size must be positive")
  else
    modify (with_n n0);;
    modify (with_openSitesCount 0);;
    (* Initialize grid (all blocked) *)
    modify (λ s, with_grid (vresize (grid s) (n0 * n0) false) s);;
    (* union-find with 2 extra sites for virtual top and bottom *)
    let totalSites := n0 * n0 + 2 in
    modify (λ s, with_parent (vresize (parent s) totalSites 0) s);;
    modify (λ s, with_size (vresize (size s) totalSites 1) s);;
    for_loop 0 (Z.to_nat totalSites) (λ i, set_parent i i);;
    modify (with_virtualTop (n0 * n0));;
    modify (with_virtualBottom (n0 * n0 + 1)).

(** [Percolation perc(n0);] *)
Definition new (n0 : Z) : outcome t unit := ctor n0 blank.

(** is the site (row, col) open? *)
Definition isOpen (row col : Z) : M t bool :=
  validate row col;;
  i ← getIndex row col;
  get_grid i.

(** opens the site (row, col) if it is not open already *)
Definition open (row col : Z) : M t unit :=
  validate row col;;
  o ← isOpen row col;
  if o : bool then mret () else
  index ← getIndex row col;
  set_grid index true;;
  modify (λ s, with_openSitesCount (openSitesCount s + 1) s);;
  nn ← gets n;
  (* Connect to virtual top if in top row *)
  when (bool_decide (row = 0))
       (vt ← gets virtualTop; unionSites index vt);;
  (* Connect to virtual bottom if in bottom row *)
  when (bool_decide (row = nn - 1))
       (vb ← gets virtualBottom; unionSites index vb);;
  (* Connect to open neighbors: up, down, left, right *)
  up ← and_then (bool_decide (row > 0)) (isOpen (row - 1) col);
  when up (j ← getIndex (row - 1) col; unionSites index j);;
  down ← and_then (bool_decide (row < nn - 1)) (isOpen (row + 1) col);
  when down (j ← getIndex (row + 1) col; unionSites index j);;
  left ← and_then (bool_decide (col > 0)) (isOpen row (col - 1));
  when left (j ← getIndex row (col - 1); unionSites index j);;
  right ← and_then (bool_decide (col < nn - 1)) (isOpen row (col + 1));
  when right (j ← getIndex row (col + 1); unionSites index j).

(** is the site (row, col) full? *)
Definition isFull (row col : Z) : M t bool :=
  validate row col;;
  o ← isOpen row col;
  if negb o then mret false else
  i ← getIndex row col;
  vt ← gets virtualTop;
  connected i vt.

(** returns the number of open sites *)
Definition numberOfOpenSites : M t Z := gets openSitesCount.

(** does the system percolate? *)
Definition percolates : M t bool :=
  vt ← gets virtualTop;
  vb ← gets virtualBottom;
  connected vt vb.

End Percolation.

(** ** PercolationQuickFind.hpp: the quick-find backend *)

Module PercolationQuickFind.

Record t : Type := mk {
  n : Z;
  grid : list bool;          (* true if site is open *)
  id : list Z;               (* id array for quick-find *)
  openSitesCount : Z;
  virtualTop : Z;
  virtualBottom : Z
}.

Definition with_n (v : Z) (s : t) : t :=
  mk v (grid s) (id s) (openSitesCount s) (virtualTop s) (virtualBottom s).
Definition with_grid (v : list bool) (s : t) : t :=
  mk (n s) v (id s) (openSitesCount s) (virtualTop s) (virtualBottom s).
Definition with_id (v : list Z) (s : t) : t :=
  mk (n s) (grid s) v (openSitesCount s) (virtualTop s) (virtualBottom s).
Definition with_openSitesCount (v : Z) (s : t) : t :=
  mk (n s) (grid s) (id s) v (virtualTop s) (virtualBottom s).
Definition with_virtualTop (v : Z) (s : t) : t :=
  mk (n s) (grid s) (id s) (openSitesCount s) v (virtualBottom s).
Definition with_virtualBottom (v : Z) (s : t) : t :=
  mk (n s) (grid s) (id s) (openSitesCount s) (virtualTop s) v.

Definition get_grid (i : Z) : M t bool := λ s, of_option (vget (grid s) i) s.
Definition set_grid (i : Z) (b : bool) : M t unit :=
  λ s, (g ← of_option (vset (grid s) i b); modify (with_grid g)) s.
Definition get_id (i : Z) : M t Z := λ s, of_option (vget (id s) i) s.
Definition set_id (i v : Z) : M t unit :=
  λ s, (p ← of_option (vset (id s) i v); modify (with_id p)) s.

(** Convert 2D coordinates to 1D index *)
Definition getIndex (row col : Z) : M t Z :=
  gets (λ s, row * n s + col).

(** Validate coordinates *)
Definition validate (row col : Z) : M t unit :=
  nn ← gets n;
  if (row <? 0) || (row >=? nn) || (col <? 0) || (col >=? nn)
  then throw (invalid_argument "Index out of bounds")
  else mret ().

(** Find operation - O(1) *)
Definition find (x : Z) : M t Z := get_id x.

(** Union operation - O(n) - connects all elements with same id *)
Definition unionSites (x y : Z) : M t unit :=
  idX ← find x;
  idY ← find y;
  if bool_decide (idX = idY) then mret () else
  (* Change all entries with id[x] to id[y] *)
  len ← gets (λ s, length (id s));
  for_loop 0 len (λ i,
    v ← get_id i;
    when (bool_decide (v = idX)) (set_id i idY)).

(** Check if two sites are connected *)
Definition connected (x y : Z) : M t bool :=
  ix ← find x;
  iy ← find y;
  mret (bool_decide (ix = iy)).

Definition blank : t := mk 0 [] [] 0 0 0.

(** creates n-by-n grid, with all sites initially blocked *)
Definition ctor (n0 : Z) : M t unit :=
  if bool_decide (n0 ≤ 0)
  then throw (invalid_argument "Grid size must be positive")
  else
    modify (with_n n0);;
    modify (with_openSitesCount 0);;
    modify (λ s, with_grid (vresize (grid s) (n0 * n0) false) s);;
    let totalSites := n0 * n0 + 2 in
    modify (λ s, with_id (vresize (id s) totalSites 0) s);;
    for_loop 0 (Z.to_nat totalSites) (λ i, set_id i i);;
    modify (with_virtualTop (n0 * n0));;
    modify (with_virtualBottom (n0 * n0 + 1)).

Definition new (n0 : Z) : outcome t unit := ctor n0 blank.

(** is the site (row, col) open? *)
Definition isOpen (row col : Z) : M t bool :=
  validate row col;;
  i ← getIndex row col;
  get_grid i.

(** opens the site (row, col) if it is not open already *)
Definition open (row col : Z) : M t unit :=
  validate row col;;
  o ← isOpen row col;
  if o : bool then mret () else
  index ← getIndex row col;
  set_grid index true;;
  modify (λ s, with_openSitesCount (openSitesCount s + 1) s);;
  nn ← gets n;
  when (bool_decide (row = 0))
       (vt ← gets virtualTop; unionSites index vt);;
  when (bool_decide (row = nn - 1))
       (vb ← gets virtualBottom; unionSites index vb);;
  up ← and_then (bool_decide (row > 0)) (isOpen (row - 1) col);
  when up (j ← getIndex (row - 1) col; unionSites index j);;
  down ← and_then (bool_decide (row < nn - 1)) (isOpen (row + 1) col);
  when down (j ← getIndex (row + 1) col; unionSites index j);;
  left ← and_then (bool_decide (col > 0)) (isOpen row (col - 1));
  when left (j ← getIndex row (col - 1); unionSites index j);;
  right ← and_then (bool_decide (col < nn - 1)) (isOpen row (col + 1));
  when right (j ← getIndex row (col + 1); unionSites index j).

(** is the site (row, col) full? *)
Definition isFull (row col : Z) : M t bool :=
  validate row col;;
  o ← isOpen row col;
  if negb o then mret false else
  i ← getIndex row col;
  vt ← gets virtualTop;
  connected i vt.

(** returns the number of open sites *)
Definition numberOfOpenSites : M t Z := gets openSitesCount.

(** does the system percolate? *)
Definition percolates : M t bool :=
  vt ← gets virtualTop;
  vb ← gets virtualBottom;
  connected vt vb.

End PercolationQuickFind.

(** ** PercolationStat.hpp: the Monte Carlo estimator *)

Module PercolationStats.

Record t : Type := mk {
  thresholds : list float;
  n : Z;
  trials : Z;
  sampleMean : float;
  sampleStddev : float
}.

(** The constructor's frame: the object under construction, the outputs
    the random source [dis(gen)] has still to deliver, and the locals
    [perc], [row] and [col] of the current trial. *)
Record frame : Type := mkframe {
  self : t;
  gen : list Z;
  perc : Percolation.t;
  row : Z;
  col : Z
}.

Definition with_thresholds (v : list float) (s : t) : t :=
  mk v (n s) (trials s) (sampleMean s) (sampleStddev s).
Definition with_n (v : Z) (s : t) : t :=
  mk (thresholds s) v (trials s) (sampleMean s) (sampleStddev s).
Definition with_trials (v : Z) (s : t) : t :=
  mk (thresholds s) (n s) v (sampleMean s) (sampleStddev s).
Definition with_sampleMean (v : float) (s : t) : t :=
  mk (thresholds s) (n s) (trials s) v (sampleStddev s).
Definition with_sampleStddev (v : float) (s : t) : t :=
  mk (thresholds s) (n s) (trials s) (sampleMean s) v.

Definition with_self (v : t) (fr : frame) : frame :=
  mkframe v (gen fr) (perc fr) (row fr) (col fr).
Definition with_gen (v : list Z) (fr : frame) : frame :=
  mkframe (self fr) v (perc fr) (row fr) (col fr).
Definition with_perc (v : Percolation.t) (fr : frame) : frame :=
  mkframe (self fr) (gen fr) v (row fr) (col fr).
Definition with_row (v : Z) (fr : frame) : frame :=
  mkframe (self fr) (gen fr) (perc fr) v (col fr).
Definition with_col (v : Z) (fr : frame) : frame :=
  mkframe (self fr) (gen fr) (perc fr) (row fr) v.

(** [dis(gen)]: the next output of the random source.  The model runs on a
    finite supply of outputs; a trial that asks for more than the supply
    holds runs out of fuel. *)
Definition draw : M frame Z :=
  λ fr, match gen fr with
        | [] => Abort OutOfFuel
        | d :: rest => Ret d (with_gen rest fr)
        end.

(** A member function called on the object under construction. *)
Definition on_self {A} (m : M t A) : M frame A :=
  λ fr, match m (self fr) with
        | Ret a s => Ret a (with_self s fr)
        | Throw e s => Throw e (with_self s fr)
        | Abort w => Abort w
        end.

(** A member function called on the local grid [perc]. *)
Definition on_perc {A} (m : M Percolation.t A) : M frame A :=
  λ fr, match m (perc fr) with
        | Ret a p => Ret a (with_perc p fr)
        | Throw e p => Throw e (with_perc p fr)
        | Abort w => Abort w
        end.

(** [Percolation perc(n0);] *)
Definition declare_perc (n0 : Z) : M frame unit :=
  λ fr, match Percolation.new n0 with
        | Ret _ p => Ret () (with_perc p fr)
        | Throw e _ => Throw e fr
        | Abort w => Abort w
        end.

Definition calculateStats : M t unit :=
  ths ← gets thresholds;
  tr ← gets trials;
  (* Calculate mean *)
  let sum := foldl (λ acc threshold, acc + threshold)%float 0%float ths in
  modify (with_sampleMean (sum / double_of_int tr)%float);;
  (* Calculate standard deviation *)
  mean ← gets sampleMean;
  let sumSquaredDiffs :=
    foldl (λ acc threshold,
             let diff := (threshold - mean)%float in
             acc + diff * diff)%float 0%float ths in
  modify (with_sampleStddev
            (PrimFloat.sqrt (sumSquaredDiffs / double_of_int (tr - 1))%float)).

(** One trial: the body of the [for] loop over [t].  Every turn of either
    loop takes two outputs of the random source, so the fuel handed to the
    loops, one more than the supply left, is never what stops them. *)
Definition trial : M frame unit :=
  nn ← gets (λ fr, n (self fr));
  declare_perc nn;;
  (* Keep opening sites until system percolates *)
  budget ← gets (λ fr, S (length (gen fr)));
  while_loop budget
    (p ← on_perc Percolation.percolates; mret (negb p))
    ((* Find a blocked site to open *)
     budget' ← gets (λ fr, S (length (gen fr)));
     do_while budget'
       (r ← draw; modify (with_row r);;
        c ← draw; modify (with_col c))
       (r ← gets row; c ← gets col; on_perc (Percolation.isOpen r c));;
     r ← gets row; c ← gets col;
     on_perc (Percolation.open r c));;
  (* Calculate and store threshold for this trial *)
  cnt ← on_perc Percolation.numberOfOpenSites;
  let threshold := (double_of_int cnt / double_of_int (nn * nn))%float in
  modify (λ fr, with_self (with_thresholds (thresholds (self fr) ++ [threshold])
                                           (self fr)) fr).

Definition blank : t := mk [] 0 0 0%float 0%float.

(** The frame at the constructor's entry, for a given supply of random
    outputs. *)
Definition entry (supply : list Z) : frame :=
  mkframe blank supply Percolation.blank 0 0.

(** perform independent trials on an n-by-n grid *)
Definition ctor (n0 trials0 : Z) : M frame unit :=
  if bool_decide (n0 ≤ 0)
  then throw (invalid_argument "Grid size n must be positive")
  else if bool_decide (trials0 ≤ 0)
  then throw (invalid_argument "Number of trials must be positive")
  else
    modify (λ fr, with_self (with_n n0 (self fr)) fr);;
    modify (λ fr, with_self (with_trials trials0 (self fr)) fr);;
    (* thresholds.reserve(trials) changes no element *)
    (* Perform trials *)
    for_loop 0 (Z.to_nat trials0) (λ _, trial);;
    (* Calculate statistics *)
    on_self calculateStats.

(** [PercolationStats stats(n0, trials0);] *)
Definition new (n0 trials0 : Z) (supply : list Z) : outcome frame unit :=
  ctor n0 trials0 (entry supply).

(** sample mean of percolation threshold *)
Definition mean : M t float := gets sampleMean.

(** sample standard deviation of percolation threshold *)
Definition stddev : M t float := gets sampleStddev.

(** low endpoint of 95% confidence interval *)
#[local] Set Warnings "-inexact-float".
Definition confidenceLow : M t float :=
  m ← gets sampleMean; sd ← gets sampleStddev; tr ← gets trials;
  let margin := (1.96 * sd / PrimFloat.sqrt (double_of_int tr))%float in
  mret (m - margin)%float.

(** high endpoint of 95% confidence interval *)
Definition confidenceHigh : M t float :=
  m ← gets sampleMean; sd ← gets sampleStddev; tr ← gets trials;
  let margin := (1.96 * sd / PrimFloat.sqrt (double_of_int tr))%float in
  mret (m + margin)%float.

End PercolationStats.

(** ** main.cpp: the estimator on the quick-find grid *)

Module PercolationStatsQuickFind.

Record t : Type := mk {
  thresholds : list float;
  n : Z;
  trials : Z;
  sampleMean : float;
  sampleStddev : float
}.

(** The constructor's frame, as for [PercolationStats]; the local grid
    [perc] is a [PercolationQuickFind]. *)
Record frame : Type := mkframe {
  self : t;
  gen : list Z;
  perc : PercolationQuickFind.t;
  row : Z;
  col : Z
}.

Definition with_thresholds (v : list float) (s : t) : t :=
  mk v (n s) (trials s) (sampleMean s) (sampleStddev s).
Definition with_n (v : Z) (s : t) : t :=
  mk (thresholds s) v (trials s) (sampleMean s) (sampleStddev s).
Definition with_trials (v : Z) (s : t) : t :=
  mk (thresholds s) (n s) v (sampleMean s) (sampleStddev s).
Definition with_sampleMean (v : float) (s : t) : t :=
  mk (thresholds s) (n s) (trials s) v (sampleStddev s).
Definition with_sampleStddev (v : float) (s : t) : t :=
  mk (thresholds s) (n s) (trials s) (sampleMean s) v.

Definition with_self (v : t) (fr : frame) : frame :=
  mkframe v (gen fr) (perc fr) (row fr) (col fr).
Definition with_gen (v : list Z) (fr : frame) : frame :=
  mkframe (self fr) v (perc fr) (row fr) (col fr).
Definition with_perc (v : PercolationQuickFind.t) (fr : frame) : frame :=
  mkframe (self fr) (gen fr) v (row fr) (col fr).
Definition with_row (v : Z) (fr : frame) : frame :=
  mkframe (self fr) (gen fr) (perc fr) v (col fr).
Definition with_col (v : Z) (fr : frame) : frame :=
  mkframe (self fr) (gen fr) (perc fr) (row fr) v.

(** [dis(gen)] *)
Definition draw : M frame Z :=
  λ fr, match gen fr with
        | [] => Abort OutOfFuel
        | d :: rest => Ret d (with_gen rest fr)
        end.

Definition on_self {A} (m : M t A) : M frame A :=
  λ fr, match m (self fr) with
        | Ret a s => Ret a (with_self s fr)
        | Throw e s => Throw e (with_self s fr)
        | Abort w => Abort w
        end.

Definition on_perc {A} (m : M PercolationQuickFind.t A) : M frame A :=
  λ fr, match m (perc fr) with
        | Ret a p => Ret a (with_perc p fr)
        | Throw e p => Throw e (with_perc p fr)
        | Abort w => Abort w
        end.

(** [PercolationQuickFind perc(n0);] *)
Definition declare_perc (n0 : Z) : M frame unit :=
  λ fr, match PercolationQuickFind.new n0 with
        | Ret _ p => Ret () (with_perc p fr)
        | Throw e _ => Throw e fr
        | Abort w => Abort w
        end.

Definition calculateStats : M t unit :=
  ths ← gets thresholds;
  tr ← gets trials;
  let sum := foldl (λ acc threshold, acc + threshold)%float 0%float ths in
  modify (with_sampleMean (sum / double_of_int tr)%float);;
  mean ← gets sampleMean;
  let sumSquaredDiffs :=
    foldl (λ acc threshold,
             let diff := (threshold - mean)%float in
             acc + diff * diff)%float 0%float ths in
  modify (with_sampleStddev
            (PrimFloat.sqrt (sumSquaredDiffs / double_of_int (tr - 1))%float)).

(** One trial: the body of the [for] loop over [t]. *)
Definition trial : M frame unit :=
  nn ← gets (λ fr, n (self fr));
  declare_perc nn;;
  budget ← gets (λ fr, S (length (gen fr)));
  while_loop budget
    (p ← on_perc PercolationQuickFind.percolates; mret (negb p))
    (budget' ← gets (λ fr, S (length (gen fr)));
     do_while budget'
       (r ← draw; modify (with_row r);;
        c ← draw; modify (with_col c))
       (r ← gets row; c ← gets col; on_perc (PercolationQuickFind.isOpen r c));;
     r ← gets row; c ← gets col;
     on_perc (PercolationQuickFind.open r c));;
  cnt ← on_perc PercolationQuickFind.numberOfOpenSites;
  let threshold := (double_of_int cnt / double_of_int (nn * nn))%float in
  modify (λ fr, with_self (with_thresholds (thresholds (self fr) ++ [threshold])
                                           (self fr)) fr).

Definition blank : t := mk [] 0 0 0%float 0%float.

Definition entry (supply : list Z) : frame :=
  mkframe blank supply PercolationQuickFind.blank 0 0.

(** [PercolationStatsQuickFind(int n, int trials) : n(n), trials(trials)]:
    the member initialisers run before the body and its check. *)
Definition ctor (n0 trials0 : Z) : M frame unit :=
  modify (λ fr, with_self (with_n n0 (self fr)) fr);;
  modify (λ fr, with_self (with_trials trials0 (self fr)) fr);;
  if bool_decide (n0 ≤ 0) || bool_decide (trials0 ≤ 0)
  then throw (invalid_argument "n and trials must be positive")
  else
    (* thresholds.reserve(trials) changes no element *)
    for_loop 0 (Z.to_nat trials0) (λ _, trial);;
    on_self calculateStats.

(** [PercolationStatsQuickFind stats(n0, trials0);] *)
Definition new (n0 trials0 : Z) (supply : list Z) : outcome frame unit :=
  ctor n0 trials0 (entry supply).

Definition mean : M t float := gets sampleMean.

Definition stddev : M t float := gets sampleStddev.

#[local] Set Warnings "-inexact-float".
Definition confidenceLow : M t float :=
  m ← gets sampleMean; sd ← gets sampleStddev; tr ← gets trials;
  let margin := (1.96 * sd / PrimFloat.sqrt (double_of_int tr))%float in
  mret (m - margin)%float.

Definition confidenceHigh : M t float :=
  m ← gets sampleMean; sd ← gets sampleStddev; tr ← gets trials;
  let margin := (1.96 * sd / PrimFloat.sqrt (double_of_int tr))%float in
  mret (m + margin)%float.

End PercolationStatsQuickFind.

(** A short name, for the statements that compare the two estimators. *)
Module PSQ := PercolationStatsQuickFind.

(** ** Specification vocabulary *)

(** *** Trees of parent links *)

(** [reach p d x r]: following the parent links of [p] from [x] ends, after
    [d] links, at the root [r]. *)
Inductive reach (p : list Z) : nat → Z → Z → Prop :=
| reach_here x : vget p x = Some x → reach p 0 x x
| reach_up d x y r :
    vget p x = Some y → y ≠ x → reach p d y r → reach p (S d) x r.

Definition root (p : list Z) (x r : Z) : Prop := ∃ d, reach p d x r.

(** Every element has a root: the parent links have no cycle except the
    self-loops at the roots. *)
Definition uf_wf (p : list Z) : Prop :=
  ∀ x, 0 ≤ x < Z.of_nat (length p) → ∃ r, root p x r.

(** Two elements are in one component. *)
Definition conn (p : list Z) (x y : Z) : Prop :=
  ∃ r, root p x r ∧ root p y r.

(** [card P k]: exactly [k] integers satisfy [P]. *)
Definition card (P : Z → Prop) (k : Z) : Prop :=
  ∃ l : list Z, NoDup l ∧ (∀ z, z ∈ l ↔ P z) ∧ Z.of_nat (length l) = k.

(** componentSize[root] equals the number of elements in that root's
    component. *)
Definition size_inv (p sz : list Z) : Prop :=
  length sz = length p ∧
  ∀ r, vget p r = Some r → ∃ k, vget sz r = Some k ∧ card (λ z, root p z r) k.

(** Merging the components of [x] and [y] in a connectivity relation. *)
Definition join (C : Z → Z → Prop) (x y : Z) : Z → Z → Prop :=
  λ a b, C a b ∨ (C a x ∧ C y b) ∨ (C a y ∧ C x b).

(** [p'] is [p] with the tree of root [a] hung under the root [b]. *)
Definition relinked (p p' : list Z) (a b : Z) : Prop :=
  ∀ z r, root p' z r ↔ (root p z a ∧ r = b) ∨ (root p z r ∧ r ≠ a).

(** *** The grid as a caller sees it *)

(** The public member functions. *)
Inductive call : Type :=
| Open (row col : Z)
| IsOpen (row col : Z)
| IsFull (row col : Z)
| NumberOfOpenSites
| Percolates.

Inductive value : Type :=
| VUnit
| VBool (b : bool)
| VInt (z : Z).

Definition out_of_bounds : exn := invalid_argument "Index out of bounds".

Definition in_grid (n row col : Z) : Prop := 0 ≤ row < n ∧ 0 ≤ col < n.

Global Instance in_grid_dec n row col : Decision (in_grid n row col).
Proof. unfold in_grid. apply _. Defined.

(** The connectivity universe: the n*n sites and the two virtual sites. *)
Definition in_univ (n x : Z) : Prop := 0 ≤ x < n * n + 2.

Definition is_open (g : list bool) (i : Z) : bool := default false (vget g i).

(** What the backends have in common: side length, openness grid, open
    counter, and which elements of the universe are in one component. *)
Record view : Type := mkview {
  v_n : Z;
  v_grid : list bool;
  v_count : Z;
  v_conn : Z → Z → Prop
}.

Definition view_equiv (v w : view) : Prop :=
  v_n v = v_n w ∧ v_grid v = v_grid w ∧ v_count v = v_count w ∧
  ∀ u v', in_univ (v_n v) u → in_univ (v_n v) v' → v_conn v u v' ↔ v_conn w u v'.

(** The pairs [open(row, col)] hands to [unionSites], in the order of the
    code, on the grid [g] in which the site is already marked open. *)
Definition open_links (n : Z) (g : list bool) (row col : Z) : list (Z * Z) :=
  let index := row * n + col in
  (if bool_decide (row = 0) then [(index, n * n)] else []) ++
  (if bool_decide (row = n - 1) then [(index, n * n + 1)] else []) ++
  (if bool_decide (row > 0) && is_open g ((row - 1) * n + col)
   then [(index, (row - 1) * n + col)] else []) ++
  (if bool_decide (row < n - 1) && is_open g ((row + 1) * n + col)
   then [(index, (row + 1) * n + col)] else []) ++
  (if bool_decide (col > 0) && is_open g (row * n + (col - 1))
   then [(index, row * n + (col - 1))] else []) ++
  (if bool_decide (col < n - 1) && is_open g (row * n + (col + 1))
   then [(index, row * n + (col + 1))] else []).

Definition joins (C : Z → Z → Prop) (links : list (Z * Z)) : Z → Z → Prop :=
  foldl (λ C' e, join C' e.1 e.2) C links.

Definition view_open (v : view) (row col : Z) : view :=
  let i := row * v_n v + col in
  if is_open (v_grid v) i then v
  else
    let g := <[Z.to_nat i := true]> (v_grid v) in
    mkview (v_n v) g (v_count v + 1)
           (joins (v_conn v) (open_links (v_n v) g row col)).

(** The view after a call. *)
Definition view_next (v : view) (c : call) : view :=
  match c with
  | Open row col =>
      if decide (in_grid (v_n v) row col) then view_open v row col else v
  | _ => v
  end.

(** The answer a call gets, as the view determines it. *)
Definition view_answer (v : view) (c : call) (a : answer value) : Prop :=
  match c with
  | Open row col =>
      a = if decide (in_grid (v_n v) row col)
          then Returned VUnit else Raised out_of_bounds
  | IsOpen row col =>
      a = if decide (in_grid (v_n v) row col)
          then Returned (VBool (is_open (v_grid v) (row * v_n v + col)))
          else Raised out_of_bounds
  | IsFull row col =>
      if decide (in_grid (v_n v) row col)
      then ∃ b, a = Returned (VBool b) ∧
                (b = true ↔ is_open (v_grid v) (row * v_n v + col) = true ∧
                            v_conn v (row * v_n v + col) (v_n v * v_n v))
      else a = Raised out_of_bounds
  | NumberOfOpenSites => a = Returned (VInt (v_count v))
  | Percolates =>
      ∃ b, a = Returned (VBool b) ∧
           (b = true ↔ v_conn v (v_n v * v_n v) (v_n v * v_n v + 1))
  end.

(** Two connectivity relations agree on the universe of an n-by-n grid. *)
Definition conn_on (n : Z) (C C' : Z → Z → Prop) : Prop :=
  ∀ u v, in_univ n u → in_univ n v → C u v ↔ C' u v.

(** *** Full sites *)

Definition site_open (n : Z) (g : list bool) (row col : Z) : Prop :=
  in_grid n row col ∧ is_open g (row * n + col) = true.

(** Left, right, up or down neighbours. *)
Definition adjacent (row col row' col' : Z) : Prop :=
  (row = row' ∧ (col = col' + 1 ∨ col' = col + 1)) ∨
  (col = col' ∧ (row = row' + 1 ∨ row' = row + 1)).

(** A full site: an open site connected to the top row through a chain of
    adjacent open sites. *)
Inductive full_site (n : Z) (g : list bool) : Z → Z → Prop :=
| full_top col : site_open n g 0 col → full_site n g 0 col
| full_next row col row' col' :
    full_site n g row' col' → adjacent row col row' col' →
    site_open n g row col → full_site n g row col.

(** Every link the grid shows is in the partition: an open site of the top
    row is joined to the virtual top, and adjacent open sites are joined. *)
Definition links_joined (v : view) : Prop :=
  (∀ col, site_open (v_n v) (v_grid v) 0 col →
          v_conn v (0 * v_n v + col) (v_n v * v_n v)) ∧
  (∀ row col row' col',
     site_open (v_n v) (v_grid v) row col →
     site_open (v_n v) (v_grid v) row' col' →
     adjacent row col row' col' →
     v_conn v (row * v_n v + col) (row' * v_n v + col')).

(** The calls that only ask. *)
Definition is_query (c : call) : bool :=
  match c with
  | Open _ _ => false
  | _ => true
  end.

(** *** The weighted quick-union grid *)

Definition wqu_invoke (c : call) : M Percolation.t value :=
  match c with
  | Open row col => Percolation.open row col;; mret VUnit
  | IsOpen row col => b ← Percolation.isOpen row col; mret (VBool b)
  | IsFull row col => b ← Percolation.isFull row col; mret (VBool b)
  | NumberOfOpenSites => k ← Percolation.numberOfOpenSites; mret (VInt k)
  | Percolates => b ← Percolation.percolates; mret (VBool b)
  end.

(** A caller makes the calls one after the other and goes on after an
    exception; the run collects the answers and the final state. *)
Fixpoint wqu_run (cs : list call) (s : Percolation.t)
  : list (answer value) * Percolation.t :=
  match cs with
  | [] => ([], s)
  | c :: cs' =>
      let o := wqu_invoke c s in
      let '(answers, s') := wqu_run cs' (state_after s o) in
      (answer_of o :: answers, s')
  end.

Definition wqu_view (s : Percolation.t) : view :=
  mkview (Percolation.n s) (Percolation.grid s) (Percolation.openSitesCount s)
         (conn (Percolation.parent s)).

(** The number of open sites of a grid. *)
Fixpoint count_true (g : list bool) : Z :=
  match g with
  | [] => 0
  | b :: g' => (if b then 1 else 0) + count_true g'
  end.

(** The invariant of the class: the shape of the vectors, the two reserved
    indices, well-formed trees with the component sizes at their roots, the
    counter equal to the number of open sites, and every size entry between
    1 and the size of the universe. *)
Definition wqu_inv (s : Percolation.t) : Prop :=
  0 < Percolation.n s ∧
  Z.of_nat (length (Percolation.grid s)) = Percolation.n s * Percolation.n s ∧
  Z.of_nat (length (Percolation.parent s)) = Percolation.n s * Percolation.n s + 2 ∧
  length (Percolation.size s) = length (Percolation.parent s) ∧
  Percolation.virtualTop s = Percolation.n s * Percolation.n s ∧
  Percolation.virtualBottom s = Percolation.n s * Percolation.n s + 1 ∧
  uf_wf (Percolation.parent s) ∧
  size_inv (Percolation.parent s) (Percolation.size s) ∧
  Percolation.openSitesCount s = count_true (Percolation.grid s) ∧
  Forall (λ k, 1 ≤ k ≤ Percolation.n s * Percolation.n s + 2) (Percolation.size s).

(** The fields the union-find functions do not touch. *)
Definition wqu_same_grid (s s' : Percolation.t) : Prop :=
  Percolation.n s' = Percolation.n s ∧
  Percolation.grid s' = Percolation.grid s ∧
  Percolation.openSitesCount s' = Percolation.openSitesCount s ∧
  Percolation.virtualTop s' = Percolation.virtualTop s ∧
  Percolation.virtualBottom s' = Percolation.virtualBottom s.

(** The states a grid can be in: a constructed grid, and what any call
    leaves of a reachable grid. *)
Inductive wqu_reachable : Percolation.t → Prop :=
| wqu_reachable_new n0 s :
    Percolation.new n0 = Ret () s → wqu_reachable s
| wqu_reachable_call s c :
    wqu_reachable s → wqu_reachable (state_after s (wqu_invoke c s)).

(** The grid after [Percolation perc(n0)] and a sequence of [open] calls. *)
Definition wqu_after_opens (n0 : Z) (opens : list (Z * Z)) : Percolation.t :=
  foldl (λ s rc, state_after s (Percolation.open rc.1 rc.2 s))
        (state_after Percolation.blank (Percolation.new n0)) opens.

(** *** The quick-find grid *)

Definition qf_conn (ids : list Z) (x y : Z) : Prop :=
  ∃ i, vget ids x = Some i ∧ vget ids y = Some i.

Definition qf_invoke (c : call) : M PercolationQuickFind.t value :=
  match c with
  | Open row col => PercolationQuickFind.open row col;; mret VUnit
  | IsOpen row col => b ← PercolationQuickFind.isOpen row col; mret (VBool b)
  | IsFull row col => b ← PercolationQuickFind.isFull row col; mret (VBool b)
  | NumberOfOpenSites => k ← PercolationQuickFind.numberOfOpenSites; mret (VInt k)
  | Percolates => b ← PercolationQuickFind.percolates; mret (VBool b)
  end.

Fixpoint qf_run (cs : list call) (s : PercolationQuickFind.t)
  : list (answer value) * PercolationQuickFind.t :=
  match cs with
  | [] => ([], s)
  | c :: cs' =>
      let o := qf_invoke c s in
      let '(answers, s') := qf_run cs' (state_after s o) in
      (answer_of o :: answers, s')
  end.

Definition qf_view (s : PercolationQuickFind.t) : view :=
  mkview (PercolationQuickFind.n s) (PercolationQuickFind.grid s)
         (PercolationQuickFind.openSitesCount s)
         (qf_conn (PercolationQuickFind.id s)).

Definition qf_inv (s : PercolationQuickFind.t) : Prop :=
  0 < PercolationQuickFind.n s ∧
  Z.of_nat (length (PercolationQuickFind.grid s))
    = PercolationQuickFind.n s * PercolationQuickFind.n s ∧
  Z.of_nat (length (PercolationQuickFind.id s))
    = PercolationQuickFind.n s * PercolationQuickFind.n s + 2 ∧
  PercolationQuickFind.virtualTop s
    = PercolationQuickFind.n s * PercolationQuickFind.n s ∧
  PercolationQuickFind.virtualBottom s
    = PercolationQuickFind.n s * PercolationQuickFind.n s + 1.

Definition qf_same_grid (s s' : PercolationQuickFind.t) : Prop :=
  PercolationQuickFind.n s' = PercolationQuickFind.n s ∧
  PercolationQuickFind.grid s' = PercolationQuickFind.grid s ∧
  PercolationQuickFind.openSitesCount s' = PercolationQuickFind.openSitesCount s ∧
  PercolationQuickFind.virtualTop s' = PercolationQuickFind.virtualTop s ∧
  PercolationQuickFind.virtualBottom s' = PercolationQuickFind.virtualBottom s.

Definition qf_after_opens (n0 : Z) (opens : list (Z * Z))
  : PercolationQuickFind.t :=
  foldl (λ s rc, state_after s (PercolationQuickFind.open rc.1 rc.2 s))
        (state_after PercolationQuickFind.blank (PercolationQuickFind.new n0))
        opens.

(** *** The estimator *)

(** [safely m s Q]: from [s], [m] does not throw and indexes no vector out
    of bounds; when it returns, [Q] holds.  (It may still run out of random
    outputs.) *)
Definition safely {St A} (m : M St A) (s : St) (Q : A → St → Prop) : Prop :=
  match m s with
  | Ret a s' => Q a s'
  | Throw _ _ => False
  | Abort w => w = OutOfFuel
  end.

(** The outputs of [dis(gen)] lie between 0 and n - 1. *)
Definition supply_ok (n0 : Z) (supply : list Z) : Prop :=
  Forall (λ d, 0 ≤ d ≤ n0 - 1) supply.

(** *** The links of the grid *)

(** The links an n-by-n grid [g] shows between the elements of the universe:
    an open site of the top row and the virtual top, an open site of the
    bottom row and the virtual bottom, two adjacent open sites. *)
Inductive grid_link (n : Z) (g : list bool) : Z → Z → Prop :=
| link_top col :
    site_open n g 0 col → grid_link n g (0 * n + col) (n * n)
| link_bottom col :
    site_open n g (n - 1) col → grid_link n g ((n - 1) * n + col) (n * n + 1)
| link_adjacent row col row' col' :
    site_open n g row col → site_open n g row' col' →
    adjacent row col row' col' →
    grid_link n g (row * n + col) (row' * n + col').

(** The partition of a view is the connectivity of its grid: two elements of
    the universe are in one component exactly when a chain of links, each
    followed in either direction, leads from one to the other. *)
Definition view_exact (v : view) : Prop :=
  ∀ x y, in_univ (v_n v) x → in_univ (v_n v) y →
         v_conn v x y ↔ rtsc (grid_link (v_n v) (v_grid v)) x y.

(** A spanning cluster: a full site in the bottom row, that is a chain of
    adjacent open sites from the top row to the bottom row. *)
Definition spanning (n : Z) (g : list bool) : Prop :=
  ∃ col, full_site n g (n - 1) col.

(** The states a quick-find grid can be in. *)
Inductive qf_reachable : PercolationQuickFind.t → Prop :=
| qf_reachable_new n0 s :
    PercolationQuickFind.new n0 = Ret () s → qf_reachable s
| qf_reachable_call s c :
    qf_reachable s → qf_reachable (state_after s (qf_invoke c s)).

(** [on_path p x z]: [z] lies on the chain of parent links that starts at
    [x] (a root is its own parent, so the chain stays there). *)
Definition on_path (p : list Z) : Z → Z → Prop :=
  rtc (λ a b, vget p a = Some b).

(** [connected(x, y)] returns true. *)
Definition wqu_connected (s : Percolation.t) (x y : Z) : Prop :=
  answer_of (Percolation.connected x y s) = Returned true.

Definition qf_connected (s : PercolationQuickFind.t) (x y : Z) : Prop :=
  answer_of (PercolationQuickFind.connected x y s) = Returned true.






(** The trees are balanced: a chain of [d] parent links ends at a root whose
    size entry is at least 2^d. *)
Definition balanced (p sz : list Z) : Prop :=
  ∀ x d r k, reach p d x r → vget sz r = Some k → 2 ^ Z.of_nat d ≤ k.

(** [shallower p p']: the chains of [p'] lead to the same roots as those of
    [p] and are no longer. *)
Definition shallower (p p' : list Z) : Prop :=
  ∀ y d' r', reach p' d' y r' → ∃ d, reach p d y r' ∧ (d' ≤ d)%nat.

(** The invariant of the union-find arrays alone. *)
Definition uf_inv (s : Percolation.t) : Prop :=
  uf_wf (Percolation.parent s) ∧
  size_inv (Percolation.parent s) (Percolation.size s) ∧
  balanced (Percolation.parent s) (Percolation.size s).

(** [keeps I m]: when [m] returns or throws from a state in [I], the state
    it leaves is in [I]. *)
Definition keeps {St A} (I : St → Prop) (m : M St A) : Prop :=
  ∀ s, I s → match m s with
             | Ret _ s' | Throw _ s' => I s'
             | Abort _ => True
             end.

(** *** Lemmas on vectors *)

Section vector_facts.
Context {A : Type}.
Implicit Types (v : list A) (i j : Z) (a : A).

Lemma vget_Some_range v i a :
  vget v i = Some a → 0 ≤ i < Z.of_nat (length v).
Proof.
  unfold vget. case_bool_decide; [|done].
  intros Hl%lookup_lt_Some. lia.
Qed.

Lemma vget_in_range v i :
  0 ≤ i < Z.of_nat (length v) → ∃ a, vget v i = Some a.
Proof.
  intros Hi. unfold vget. rewrite bool_decide_true by lia.
  apply lookup_lt_is_Some. lia.
Qed.

Lemma vset_in_range v i a :
  0 ≤ i < Z.of_nat (length v) → vset v i a = Some (<[Z.to_nat i := a]> v).
Proof. intros Hi. unfold vset. by rewrite bool_decide_true. Qed.

Lemma vget_upd_eq v i a :
  0 ≤ i < Z.of_nat (length v) → vget (<[Z.to_nat i := a]> v) i = Some a.
Proof.
  intros Hi. unfold vget. rewrite bool_decide_true by lia.
  apply list_lookup_insert_eq. lia.
Qed.

Lemma vget_upd_ne v i j a :
  0 ≤ i → i ≠ j → vget (<[Z.to_nat i := a]> v) j = vget v j.
Proof.
  intros Hi Hne. unfold vget. case_bool_decide; [|done].
  apply list_lookup_insert_ne. lia.
Qed.

Lemma vget_upd v i j a :
  0 ≤ i < Z.of_nat (length v) →
  vget (<[Z.to_nat i := a]> v) j = if bool_decide (j = i) then Some a else vget v j.
Proof.
  intros Hi. case_bool_decide; subst.
  - by apply vget_upd_eq.
  - apply vget_upd_ne; [lia|done].
Qed.

Lemma vget_Forall (P : A → Prop) v i a : Forall P v → vget v i = Some a → P a.
Proof.
  unfold vget. case_bool_decide; [|done]. intros HP Hl.
  by eapply Forall_lookup_1.
Qed.
End vector_facts.

Lemma is_open_false g i :
  0 ≤ i < Z.of_nat (length g) → is_open g i = false → vget g i = Some false.
Proof.
  intros Hi. unfold is_open. destruct (vget_in_range g i Hi) as [b ->].
  simpl. by intros ->.
Qed.

Lemma count_true_bound g : 0 ≤ count_true g ≤ Z.of_nat (length g).
Proof. induction g as [|[] g IH]; simpl; lia. Qed.

Lemma count_true_replicate k : count_true (replicate k false) = 0.
Proof. induction k as [|k IH]; simpl; lia. Qed.

(** Opening a blocked site adds one to the number of open sites. *)
Lemma count_true_mark g i :
  vget g i = Some false →
  count_true (<[Z.to_nat i := true]> g) = count_true g + 1.
Proof.
  unfold vget. case_bool_decide; [|done]. generalize (Z.to_nat i) as k.
  induction g as [|b g IH]; intros [|k] Hk; simplify_eq/=; try lia.
  rewrite (IH k) by done. lia.
Qed.

(** *** Lemmas on trees of parent links *)

Section uf_facts.
Implicit Types (p : list Z) (x y r : Z) (d : nat).

Lemma reach_root p d x r : reach p d x r → vget p r = Some r.
Proof. induction 1; auto. Qed.

Lemma reach_start_range p d x r :
  reach p d x r → 0 ≤ x < Z.of_nat (length p).
Proof. destruct 1; eauto using vget_Some_range. Qed.

Lemma reach_det p d d' x r r' :
  reach p d x r → reach p d' x r' → d = d' ∧ r = r'.
Proof.
  intros H. revert d' r'. induction H as [x Hx|d x y r Hx Hne _ IH];
    intros d' r' H'; inversion H' as [? Hx'|d0 ? y' ? Hx' Hne' Hy']; subst;
    try congruence; [done|].
  assert (y' = y) by congruence; subst.
  destruct (IH _ _ Hy'); by subst.
Qed.

Lemma root_det p x r r' : root p x r → root p x r' → r = r'.
Proof. intros [d H] [d' H']. by destruct (reach_det _ _ _ _ _ _ H H'). Qed.

Lemma root_is_root p x r : root p x r → vget p r = Some r.
Proof. intros [d H]. eauto using reach_root. Qed.

Lemma root_self p r : vget p r = Some r → root p r r.
Proof. exists 0%nat. by constructor. Qed.

Lemma root_step p x y r : vget p x = Some y → root p y r → root p x r.
Proof.
  intros Hx [d H]. destruct (decide (y = x)) as [->|Hne].
  - by exists d.
  - exists (S d). by econstructor.
Qed.

Lemma root_range p x r : root p x r → 0 ≤ x < Z.of_nat (length p).
Proof. intros [d H]. eauto using reach_start_range. Qed.

Lemma root_of_root p x r : root p x r → root p r r.
Proof. eauto using root_self, root_is_root. Qed.

Lemma root_self_inv p r r' : vget p r = Some r → root p r r' → r' = r.
Proof. intros Hr H. eapply root_det; eauto using root_self. Qed.

(** The elements on the way from [x] to its root are pairwise distinct
    and inside the array, so there are at most [length p] of them. *)
Lemma reach_trail p d x r :
  reach p d x r →
  ∃ l : list Z, length l = S d ∧ NoDup l ∧
    ∀ y, y ∈ l → ∃ d', (d' ≤ d)%nat ∧ reach p d' y r.
Proof.
  induction 1 as [x Hx|d x y r Hx Hne H (l & Hlen & Hnd & Hl)].
  - exists [x]. split_and!; [done|apply NoDup_singleton|].
    intros y ->%list_elem_of_singleton. exists 0%nat. split; [lia|by constructor].
  - exists (x :: l). split_and!.
    + simpl. by rewrite Hlen.
    + constructor; [|done]. intros (d' & Hd' & Hr)%Hl.
      assert (reach p (S d) x r) as Hx' by (econstructor; eauto).
      destruct (reach_det _ _ _ _ _ _ Hr Hx'). lia.
    + intros z [->|Hz]%elem_of_cons.
      * exists (S d). split; [lia|]. econstructor; eauto.
      * destruct (Hl _ Hz) as (d' & ? & ?). exists d'. split; [lia|done].
Qed.

Lemma reach_bound p d x r : reach p d x r → (d < length p)%nat.
Proof.
  intros (l & Hlen & Hnd & Hl)%reach_trail.
  assert (l ⊆+ seqZ 0 (Z.of_nat (length p))) as Hsub.
  { apply NoDup_submseteq; [done|]. intros y (d' & _ & Hr)%Hl.
    apply elem_of_seqZ. apply reach_start_range in Hr. lia. }
  apply submseteq_length in Hsub. rewrite length_seqZ in Hsub. lia.
Qed.

(** Path compression: re-parenting [x] directly to its root changes the
    root of no element. *)
Lemma compress_root p x r y r' :
  root p x r → root (<[Z.to_nat x := r]> p) y r' ↔ root p y r'.
Proof.
  intros Hx. pose proof (root_range _ _ _ Hx) as Hrg.
  pose proof (root_is_root _ _ _ Hx) as Hr.
  split; intros [d H].
  - induction H as [y Hy|d y z r' Hy Hne _ IH];
      rewrite vget_upd in Hy by done; case_bool_decide; simplify_eq;
      eauto using root_self, root_step.
    by rewrite (root_self_inv _ _ _ Hr IH).
  - induction H as [y Hy|d y z r' Hy Hne H IH].
    + apply root_self. rewrite vget_upd by done. case_bool_decide; [|done].
      subst. f_equal. eapply root_det; eauto using root_self.
    + destruct (decide (y = x)) as [->|Hyx].
      * assert (root p x r') as Hx' by (exists (S d); econstructor; eauto).
        rewrite <-(root_det _ _ _ _ Hx Hx').
        eapply root_step; [by apply vget_upd_eq|].
        apply root_self. rewrite vget_upd_ne; [done|lia|]. congruence.
      * eapply root_step; [|exact IH].
        rewrite vget_upd_ne; [done|lia|done].
Qed.

(** Linking the root [a] under the root [b]: the elements of [a]'s tree
    move to [b], nothing else changes. *)
Lemma link_root p a b y r' :
  vget p a = Some a → vget p b = Some b → a ≠ b →
  root (<[Z.to_nat a := b]> p) y r' ↔
    (root p y a ∧ r' = b) ∨ (root p y r' ∧ r' ≠ a).
Proof.
  intros Ha Hb Hab. pose proof (vget_Some_range _ _ _ Ha) as Hrg.
  assert (∀ y z, vget p y = Some z → z ≠ y →
            vget (<[Z.to_nat a := b]> p) y = Some z) as Hstep.
  { intros y0 z Hy Hne. rewrite vget_upd_ne; [done|lia|]. congruence. }
  assert (root (<[Z.to_nat a := b]> p) b b) as Hbb.
  { apply root_self. rewrite vget_upd_ne; [done|lia|done]. }
  split.
  - intros [d H]. induction H as [y Hy|d y z r' Hy Hne _ IH];
      rewrite vget_upd in Hy by done; case_bool_decide; simplify_eq.
    + right. eauto using root_self.
    + left. split; [by apply root_self|].
      destruct IH as [[H1 _]|[H1 _]];
        pose proof (root_self_inv _ _ _ Hb H1); congruence.
    + destruct IH as [[H1 ->]|[H1 ?]]; [left|right]; eauto using root_step.
  - intros [[[d H] ->]|[[d H] Hne]].
    + remember a as a' eqn:Ea in H.
      induction H as [y Hy|d y z r' Hy Hne _ IH]; subst.
      * eapply root_step; [by apply vget_upd_eq|done].
      * eapply root_step; eauto.
    + induction H as [y Hy|d y z r' Hy Hne' _ IH].
      * apply root_self. rewrite vget_upd_ne; [done|lia|done].
      * eapply root_step; eauto.
Qed.

Lemma conn_refl p x : uf_wf p → 0 ≤ x < Z.of_nat (length p) → conn p x x.
Proof. intros Hwf Hx. destruct (Hwf x Hx) as [r Hr]. by exists r. Qed.

Lemma conn_sym p x y : conn p x y → conn p y x.
Proof. intros (r & ? & ?). by exists r. Qed.

Lemma conn_trans p x y z : conn p x y → conn p y z → conn p x z.
Proof.
  intros (r & Hx & Hy) (r' & Hy' & Hz).
  rewrite <-(root_det _ _ _ _ Hy Hy') in Hz. by exists r.
Qed.

Lemma conn_roots p x y rx ry :
  root p x rx → root p y ry → conn p x y ↔ rx = ry.
Proof.
  intros Hx Hy. split.
  - intros (r & Hx' & Hy').
    rewrite (root_det _ _ _ _ Hx Hx'), (root_det _ _ _ _ Hy Hy'). done.
  - intros ->. by exists ry.
Qed.

Lemma card_equiv (P Q : Z → Prop) k :
  (∀ z, P z ↔ Q z) → card P k → card Q k.
Proof.
  intros HPQ (l & Hnd & Hl & Hk). exists l. split_and!; [done| |done].
  intros z. by rewrite Hl.
Qed.

Lemma card_disjoint_union (P Q : Z → Prop) k1 k2 :
  card P k1 → card Q k2 → (∀ z, P z → Q z → False) →
  card (λ z, P z ∨ Q z) (k1 + k2).
Proof.
  intros (l1 & Hnd1 & Hl1 & Hk1) (l2 & Hnd2 & Hl2 & Hk2) Hdisj.
  exists (l1 ++ l2). split_and!.
  - apply NoDup_app. split_and!; [done| |done].
    intros z Hz1%Hl1 Hz2%Hl2. eauto.
  - intros z. rewrite elem_of_app, Hl1, Hl2. done.
  - rewrite length_app. lia.
Qed.

Lemma card_bound (P : Z → Prop) k N :
  0 ≤ N → card P k → (∀ z, P z → 0 ≤ z < N) → 0 ≤ k ≤ N.
Proof.
  intros HN (l & Hnd & Hl & <-) HP. split; [lia|].
  assert (l ⊆+ seqZ 0 N) as Hsub.
  { apply NoDup_submseteq; [done|]. intros z Hz%Hl%HP.
    apply elem_of_seqZ. lia. }
  apply submseteq_length in Hsub. rewrite length_seqZ in Hsub. lia.
Qed.

Lemma card_singleton (P : Z → Prop) x : (∀ z, P z ↔ z = x) → card P 1.
Proof.
  intros HP. exists [x]. split_and!; [apply NoDup_singleton| |done].
  intros z. by rewrite list_elem_of_singleton, HP.
Qed.

Lemma size_inv_roots p p' sz :
  length p' = length p → (∀ z r, root p' z r ↔ root p z r) →
  size_inv p sz → size_inv p' sz.
Proof.
  intros Hlen Hroots [Hsl Hsz]. split; [congruence|].
  intros r Hr%root_self%Hroots%root_is_root.
  destruct (Hsz r Hr) as (k & Hk & Hc). exists k. split; [done|].
  eapply card_equiv; [|exact Hc]. intros z. by rewrite Hroots.
Qed.

Lemma relinked_wf p p' a b :
  length p' = length p → vget p b = Some b → relinked p p' a b →
  uf_wf p → uf_wf p'.
Proof.
  intros Hlen Hb Hrel Hwf x Hx. rewrite Hlen in Hx.
  destruct (Hwf x Hx) as [r Hr].
  destruct (decide (r = a)) as [->|Hne].
  - exists b. apply Hrel. left. done.
  - exists r. apply Hrel. right. done.
Qed.

Lemma join_comm (C : Z → Z → Prop) x y u v : join C x y u v ↔ join C y x u v.
Proof. unfold join. tauto. Qed.

Lemma join_same p x y u v :
  conn p x y → join (conn p) x y u v ↔ conn p u v.
Proof.
  intros Hxy. unfold join. split; [|tauto].
  intros [?|[[? ?]|[? ?]]]; eauto using conn_trans, conn_sym.
Qed.

Lemma relinked_conn p p' a b x y u v :
  uf_wf p → root p x a → root p y b → a ≠ b → relinked p p' a b →
  0 ≤ u < Z.of_nat (length p) → 0 ≤ v < Z.of_nat (length p) →
  conn p' u v ↔ join (conn p) x y u v.
Proof.
  intros Hwf Hx Hy Hab Hrel Hu Hv.
  destruct (Hwf u Hu) as [ru Hru]. destruct (Hwf v Hv) as [rv Hrv].
  unfold join.
  rewrite (conn_roots p u v ru rv), (conn_roots p u x ru a),
    (conn_roots p y v b rv), (conn_roots p u y ru b),
    (conn_roots p x v a rv) by done.
  assert (root p' u (if decide (ru = a) then b else ru)) as Hu'.
  { apply Hrel. destruct (decide (ru = a)); [left|right]; subst; split; done. }
  assert (root p' v (if decide (rv = a) then b else rv)) as Hv'.
  { apply Hrel. destruct (decide (rv = a)); [left|right]; subst; split; done. }
  rewrite (conn_roots p' u v _ _ Hu' Hv').
  repeat case_decide; subst; naive_solver.
Qed.

Lemma relinked_size_inv p p' sz a b sa sb :
  length p' = length p → relinked p p' a b →
  vget p a = Some a → vget p b = Some b → a ≠ b →
  vget sz a = Some sa → vget sz b = Some sb →
  size_inv p sz → size_inv p' (<[Z.to_nat b := sb + sa]> sz).
Proof.
  intros Hlen Hrel Ha Hb Hab Hsa Hsb [Hsl Hsz].
  pose proof (vget_Some_range _ _ _ Hsb) as Hbr.
  split; [rewrite length_insert; congruence|].
  intros r Hr%root_self%Hrel.
  destruct Hr as [Hr|Hr].
  { destruct Hr as [Hr ->]. destruct Hab. by apply (root_self_inv p b a). }
  destruct Hr as [Hr Hra]. apply root_is_root in Hr. rewrite vget_upd by done. case_bool_decide; subst.
  - eexists. split; [done|].
    destruct (Hsz a Ha) as (ka & Hka & Hca).
    destruct (Hsz b Hb) as (kb & Hkb & Hcb). simplify_eq.
    eapply card_equiv; last (eapply (card_disjoint_union _ _ _ _ Hcb Hca)).
    + intros z. rewrite (Hrel z b). naive_solver.
    + intros z Hzb Hza. apply Hab. eapply root_det; eauto.
  - destruct (Hsz r Hr) as (k & Hk & Hc). exists k. split; [done|].
    eapply card_equiv; [|exact Hc]. intros z. rewrite (Hrel z r). naive_solver.
Qed.
End uf_facts.

(** *** Lemmas on the monad *)

Section monad_facts.
Context {St A B : Type}.
Implicit Types (m : M St A) (k : A → M St B) (s : St).

Lemma bind_Ret m k s a s' : m s = Ret a s' → (m ≫= k) s = k a s'.
Proof. unfold mbind, M_mbind, M_bind. by intros ->. Qed.

Lemma bind_Throw m k s e s' : m s = Throw e s' → (m ≫= k) s = Throw e s'.
Proof. unfold mbind, M_mbind, M_bind. by intros ->. Qed.

End monad_facts.

(** ** Weighted quick-union: find and union *)

Section wqu_union_find.
Import Percolation.

Lemma get_parent_Ret s x v :
  vget (parent s) x = Some v → get_parent x s = Ret v s.
Proof. unfold get_parent. by intros ->. Qed.

Lemma set_parent_Ret s x v :
  0 ≤ x < Z.of_nat (length (parent s)) →
  set_parent x v s = Ret () (with_parent (<[Z.to_nat x := v]> (parent s)) s).
Proof. intros Hx. unfold set_parent. by rewrite vset_in_range. Qed.

Lemma get_size_Ret s x v :
  vget (size s) x = Some v → get_size x s = Ret v s.
Proof. unfold get_size. by intros ->. Qed.

Lemma set_size_Ret s x v :
  0 ≤ x < Z.of_nat (length (size s)) →
  set_size x v s = Ret () (with_size (<[Z.to_nat x := v]> (size s)) s).
Proof. intros Hx. unfold set_size. by rewrite vset_in_range. Qed.

(** [find] returns the root and only compresses: with fuel beyond the
    depth of [x] it returns, the array keeps its length and every element
    keeps its root. *)
Lemma find_rec_spec fuel s x d r :
  reach (parent s) d x r → (d < fuel)%nat →
  ∃ p', find_rec fuel x s = Ret r (with_parent p' s) ∧
        length p' = length (parent s) ∧
        ∀ y r', root p' y r' ↔ root (parent s) y r'.
Proof.
  revert s x d. induction fuel as [|fuel IH]; intros s x d Hr Hd; [lia|].
  destruct Hr as [x Hx|d x y r Hx Hne Hy]; simpl.
  - exists (parent s).
    rewrite (bind_Ret _ _ _ _ _ (get_parent_Ret _ _ _ Hx)).
    rewrite bool_decide_false by naive_solver.
    rewrite (bind_Ret (mret ()) _ s () s) by done.
    rewrite (get_parent_Ret _ _ _ Hx). by destruct s.
  - destruct (IH s y d Hy ltac:(lia)) as (p1 & Hf & Hlen & Hroots).
    pose proof (vget_Some_range _ _ _ Hx) as Hrg.
    assert (root p1 x r) as Hx1.
    { apply Hroots. exists (S d). econstructor; eauto. }
    exists (<[Z.to_nat x := r]> p1).
    rewrite (bind_Ret _ _ _ _ _ (get_parent_Ret _ _ _ Hx)).
    rewrite bool_decide_true by done.
    erewrite (bind_Ret (find_rec fuel y ≫= _)); last first.
    { rewrite (bind_Ret _ _ _ _ _ Hf). apply set_parent_Ret. simpl. lia. }
    split_and!.
    + simpl. erewrite get_parent_Ret; [done|]. simpl.
      apply vget_upd_eq. lia.
    + by rewrite length_insert.
    + intros y0 r'. rewrite compress_root by done. apply Hroots.
Qed.

Lemma find_spec s x :
  uf_wf (parent s) → 0 ≤ x < Z.of_nat (length (parent s)) →
  ∃ r p', find x s = Ret r (with_parent p' s) ∧
          root (parent s) x r ∧
          length p' = length (parent s) ∧
          ∀ y r', root p' y r' ↔ root (parent s) y r'.
Proof.
  intros Hwf Hx. destruct (Hwf x Hx) as (r & d & Hr).
  destruct (find_rec_spec (length (parent s)) s x d r Hr) as (p' & ? & ? & ?).
  { eauto using reach_bound. }
  exists r, p'. split_and!; try done. by exists d.
Qed.

Lemma uf_wf_roots p p' :
  length p' = length p → (∀ y r, root p' y r ↔ root p y r) →
  uf_wf p → uf_wf p'.
Proof.
  intros Hlen Hroots Hwf x Hx. rewrite Hlen in Hx.
  destruct (Hwf x Hx) as [r Hr]. exists r. by apply Hroots.
Qed.

(** What [unionSites] leaves behind, field by field. *)
Lemma unionSites_run s x y :
  uf_wf (parent s) → length (size s) = length (parent s) →
  0 ≤ x < Z.of_nat (length (parent s)) →
  0 ≤ y < Z.of_nat (length (parent s)) →
  ∃ rx ry sx sy p2,
    root (parent s) x rx ∧ root (parent s) y ry ∧
    vget (size s) rx = Some sx ∧ vget (size s) ry = Some sy ∧
    length p2 = length (parent s) ∧
    (∀ z r, root p2 z r ↔ root (parent s) z r) ∧
    unionSites x y s = Ret ()
      (if bool_decide (rx = ry) then with_parent p2 s
       else if bool_decide (sx < sy)
       then with_size (<[Z.to_nat ry := sy + sx]> (size s))
              (with_parent (<[Z.to_nat rx := ry]> p2) s)
       else with_size (<[Z.to_nat rx := sx + sy]> (size s))
              (with_parent (<[Z.to_nat ry := rx]> p2) s)).
Proof.
  intros Hwf Hsz Hx Hy.
  destruct (find_spec s x Hwf Hx) as (rx & p1 & Hfx & Hrx & Hl1 & Hr1).
  destruct (find_spec (with_parent p1 s) y) as (ry & p2 & Hfy & Hry & Hl2 & Hr2);
    simpl in *; [by eapply uf_wf_roots|lia|].
  apply Hr1 in Hry.
  pose proof (root_range _ _ _ (root_of_root _ _ _ Hrx)) as Hrxr.
  pose proof (root_range _ _ _ (root_of_root _ _ _ Hry)) as Hryr.
  destruct (vget_in_range (size s) rx) as [sx Hsx]; [lia|].
  destruct (vget_in_range (size s) ry) as [sy Hsy]; [lia|].
  exists rx, ry, sx, sy, p2. split_and!; try done; [lia|..].
  { intros z r. by rewrite Hr2, Hr1. }
  unfold unionSites.
  rewrite (bind_Ret _ _ _ _ _ Hfx), (bind_Ret _ _ _ _ _ Hfy).
  case_bool_decide; [done|].
  set (s2 := with_parent p2 (with_parent p1 s)).
  rewrite (bind_Ret _ _ s2 sx s2) by (by apply get_size_Ret).
  rewrite (bind_Ret _ _ s2 sy s2) by (by apply get_size_Ret).
  case_bool_decide.
  - erewrite bind_Ret; last by (apply set_parent_Ret; simpl; lia).
    set (s3 := with_parent _ s2).
    rewrite (bind_Ret _ _ s3 sy s3) by (by apply get_size_Ret).
    rewrite (bind_Ret _ _ s3 sx s3) by (by apply get_size_Ret).
    rewrite set_size_Ret by (simpl; lia). done.
  - erewrite bind_Ret; last by (apply set_parent_Ret; simpl; lia).
    set (s3 := with_parent _ s2).
    rewrite (bind_Ret _ _ s3 sx s3) by (by apply get_size_Ret).
    rewrite (bind_Ret _ _ s3 sy s3) by (by apply get_size_Ret).
    rewrite set_size_Ret by (simpl; lia). done.
Qed.

Lemma conn_roots_equiv p p' :
  (∀ z r, root p' z r ↔ root p z r) → ∀ u v, conn p' u v ↔ conn p u v.
Proof.
  intros Hroots u v. unfold conn. split; intros (r & Hu & Hv); exists r.
  - by rewrite <-!Hroots.
  - by rewrite !Hroots.
Qed.

(** The effect of [unionSites] on the trees and on the sizes, case by case. *)
Lemma unionSites_effect s x y :
  uf_wf (parent s) → size_inv (parent s) (size s) →
  0 ≤ x < Z.of_nat (length (parent s)) →
  0 ≤ y < Z.of_nat (length (parent s)) →
  ∃ rx ry sx sy s',
    root (parent s) x rx ∧ root (parent s) y ry ∧
    vget (size s) rx = Some sx ∧ vget (size s) ry = Some sy ∧
    unionSites x y s = Ret () s' ∧ wqu_same_grid s s' ∧
    length (parent s') = length (parent s) ∧
    uf_wf (parent s') ∧ size_inv (parent s') (size s') ∧
    (rx = ry →
       size s' = size s ∧ ∀ z r, root (parent s') z r ↔ root (parent s) z r) ∧
    (rx ≠ ry → sx < sy →
       relinked (parent s) (parent s') rx ry ∧
       vget (parent s') rx = Some ry ∧
       size s' = <[Z.to_nat ry := sy + sx]> (size s)) ∧
    (rx ≠ ry → ¬ sx < sy →
       relinked (parent s) (parent s') ry rx ∧
       vget (parent s') ry = Some rx ∧
       size s' = <[Z.to_nat rx := sx + sy]> (size s)).
Proof.
  intros Hwf Hsi Hx Hy.
  destruct (unionSites_run s x y Hwf (proj1 Hsi) Hx Hy)
    as (rx & ry & sx & sy & p2 & Hrx & Hry & Hsx & Hsy & Hlen & Hroots & Hrun).
  assert (vget (parent s) rx = Some rx) as Hrx0 by eauto using root_is_root.
  assert (vget (parent s) ry = Some ry) as Hry0 by eauto using root_is_root.
  assert (vget p2 rx = Some rx) as Hrx2.
  { eapply root_is_root, Hroots, root_self, Hrx0. }
  assert (vget p2 ry = Some ry) as Hry2.
  { eapply root_is_root, Hroots, root_self, Hry0. }
  pose proof (vget_Some_range _ _ _ Hrx2) as Hrxr.
  pose proof (vget_Some_range _ _ _ Hry2) as Hryr.
  assert (∀ a b, a ≠ b → vget p2 a = Some a → vget p2 b = Some b →
            relinked (parent s) (<[Z.to_nat a := b]> p2) a b) as Hlink.
  { intros a b Hab Ha Hb z r. rewrite link_root by done. by rewrite !Hroots. }
  eexists rx, ry, sx, sy, _. split_and!; try done; try exact Hrun.
  - repeat case_bool_decide; done.
  - repeat case_bool_decide; simpl; rewrite ?length_insert; done.
  - repeat case_bool_decide; simpl.
    + by eapply uf_wf_roots.
    + eapply (relinked_wf (parent s) _ rx ry);
        [by rewrite length_insert|done|by apply Hlink|done].
    + eapply (relinked_wf (parent s) _ ry rx);
        [by rewrite length_insert|done|apply Hlink; done|done].
  - repeat case_bool_decide; simpl.
    + by eapply size_inv_roots.
    + eapply (relinked_size_inv (parent s) _ _ rx ry); eauto.
      by rewrite length_insert.
    + eapply (relinked_size_inv (parent s) _ _ ry rx); eauto.
      by rewrite length_insert.
  - intros ->. by rewrite bool_decide_true.
  - intros Hne Hlt. rewrite bool_decide_false, bool_decide_true by done. simpl.
    split_and!; [by apply Hlink|by apply vget_upd_eq|done].
  - intros Hne Hlt. rewrite !bool_decide_false by done. simpl.
    split_and!; [by apply Hlink|by apply vget_upd_eq|done].
Qed.
End wqu_union_find.

(** ** The view: lemmas shared by the two backends *)

Section view_facts.
Implicit Types (C : Z → Z → Prop) (c : call).

Lemma index_in_grid n row col :
  in_grid n row col → 0 ≤ row * n + col < n * n.
Proof. unfold in_grid. nia. Qed.

Lemma index_in_univ n row col : in_grid n row col → in_univ n (row * n + col).
Proof. intros H%index_in_grid. unfold in_univ. lia. Qed.

Lemma virtual_in_univ n : in_univ n (n * n) ∧ in_univ n (n * n + 1).
Proof. unfold in_univ. nia. Qed.

Lemma conn_on_refl n C : conn_on n C C.
Proof. by intros u v _ _. Qed.

Lemma conn_on_trans n C C' C'' :
  conn_on n C C' → conn_on n C' C'' → conn_on n C C''.
Proof. intros H H' u v Hu Hv. etrans; [by apply H|by apply H']. Qed.

Lemma join_proper n C C' x y :
  in_univ n x → in_univ n y → conn_on n C C' →
  conn_on n (join C x y) (join C' x y).
Proof.
  intros Hx Hy H u v Hu Hv. unfold join.
  pose proof (H u v Hu Hv). pose proof (H u x Hu Hx). pose proof (H y v Hy Hv).
  pose proof (H u y Hu Hy). pose proof (H x v Hx Hv). tauto.
Qed.

Lemma joins_snoc C links x y :
  joins C (links ++ [(x, y)]) = join (joins C links) x y.
Proof. unfold joins. by rewrite foldl_app. Qed.

Lemma joins_proper n C C' links :
  Forall (λ e, in_univ n e.1 ∧ in_univ n e.2) links →
  conn_on n C C' → conn_on n (joins C links) (joins C' links).
Proof.
  intros Hl. revert C C'. induction Hl as [|[x y] l [Hx Hy] _ IH];
    intros C C' H; [done|].
  simpl. apply IH. by apply join_proper.
Qed.

Lemma join_mono C x y u v : C u v → join C x y u v.
Proof. unfold join. tauto. Qed.

Lemma joins_mono C links u v : C u v → joins C links u v.
Proof.
  revert C. induction links as [|[x y] l IH]; intros C H; [done|].
  simpl. apply IH. by apply join_mono.
Qed.

Lemma open_links_in_univ n g row col :
  in_grid n row col →
  Forall (λ e, in_univ n e.1 ∧ in_univ n e.2) (open_links n g row col).
Proof.
  intros Hrc. pose proof (index_in_univ _ _ _ Hrc) as Hi.
  pose proof (virtual_in_univ n) as [Ht Hb].
  unfold open_links. repeat apply Forall_app_2;
    match goal with
    | |- Forall _ (if ?b then _ else _) => destruct b eqn:E
    end; try apply Forall_nil_2;
    apply Forall_singleton; (split; [done|]); simpl; try done;
    apply andb_prop in E as [E%bool_decide_eq_true _];
    apply index_in_univ; unfold in_grid in *; lia.
Qed.

Lemma view_equiv_refl (v : view) : view_equiv v v.
Proof. by split_and!. Qed.

Lemma view_equiv_sym (v w : view) : view_equiv v w → view_equiv w v.
Proof.
  intros (Hn & Hg & Hc & H). split_and!; try done.
  rewrite <-Hn. intros x y Hx Hy. symmetry. by apply H.
Qed.

Lemma view_equiv_trans (v w u : view) :
  view_equiv v w → view_equiv w u → view_equiv v u.
Proof.
  intros (Hn & Hg & Hc & H) (Hn' & Hg' & Hc' & H').
  split_and!; try congruence.
  intros x y Hx Hy. etrans; [by apply H|]. rewrite <-Hn in H'. by apply H'.
Qed.

(** Equivalent views stay equivalent under every call. *)
Lemma view_next_proper (v w : view) c :
  view_equiv v w → view_equiv (view_next v c) (view_next w c).
Proof.
  intros (Hn & Hg & Hc & H). destruct c as [row col| | | |]; simpl;
    try by split_and!.
  rewrite <-Hn. destruct (decide (in_grid (v_n v) row col)) as [Hrc|];
    [|by split_and!].
  unfold view_open. rewrite <-Hn, <-Hg.
  destruct (is_open _ _); [by split_and!|]. simpl.
  split_and!; simpl; try done; [lia|].
  apply joins_proper; [by apply open_links_in_univ|done].
Qed.

(** Equivalent views give every call the same answer. *)
Lemma view_answer_det (v w : view) c a a' :
  view_equiv v w → view_answer v c a → view_answer w c a' → a = a'.
Proof.
  intros (Hn & Hg & Hc & H). destruct c as [row col|row col|row col| |]; simpl;
    rewrite <-?Hn, <-?Hg, <-?Hc.
  - by intros -> ->.
  - by intros -> ->.
  - destruct (decide (in_grid (v_n v) row col)) as [Hrc|]; [|by intros -> ->].
    intros (b & -> & Hb) (b' & -> & Hb').
    rewrite <-(H _ _ (index_in_univ _ _ _ Hrc) (proj1 (virtual_in_univ _))) in Hb'.
    do 2 f_equal. destruct b, b'; naive_solver.
  - by intros -> ->.
  - intros (b & -> & Hb) (b' & -> & Hb').
    rewrite <-(H _ _ (proj1 (virtual_in_univ _)) (proj2 (virtual_in_univ _))) in Hb'.
    do 2 f_equal. destruct b, b'; naive_solver.
Qed.
End view_facts.

(** ** The weighted quick-union grid refines the view *)

Section wqu_grid.
Import Percolation.

Lemma wqu_validate_run s row col :
  validate row col s =
    if decide (in_grid (n s) row col) then Ret () s else Throw out_of_bounds s.
Proof.
  unfold validate, in_grid.
  rewrite (bind_Ret (gets n) _ s (n s) s) by done.
  rewrite Z.geb_leb, Z.geb_leb.
  destruct (Z.ltb_spec row 0), (Z.leb_spec (n s) row), (Z.ltb_spec col 0),
    (Z.leb_spec (n s) col); simpl; case_decide; done || lia.
Qed.

Lemma wqu_isOpen_run s row col :
  wqu_inv s →
  isOpen row col s =
    if decide (in_grid (n s) row col)
    then Ret (is_open (grid s) (row * n s + col)) s
    else Throw out_of_bounds s.
Proof.
  intros (Hn & Hg & _). unfold isOpen.
  pose proof (wqu_validate_run s row col) as Hv.
  destruct (decide (in_grid (n s) row col)) as [Hrc|Hrc].
  - rewrite (bind_Ret _ _ _ _ _ Hv).
    rewrite (bind_Ret (getIndex row col) _ s (row * n s + col) s) by done.
    unfold get_grid, is_open.
    destruct (vget_in_range (grid s) (row * n s + col)) as [b ->]; [|done].
    apply index_in_grid in Hrc. lia.
  - by rewrite (bind_Throw _ _ _ _ _ Hv).
Qed.

Lemma wqu_neighbor_test s (c : bool) row col :
  wqu_inv s → (c = true → in_grid (n s) row col) →
  and_then c (isOpen row col) s = Ret (c && is_open (grid s) (row * n s + col)) s.
Proof.
  intros Hinv Hc. destruct c; [|done]. simpl.
  rewrite wqu_isOpen_run by done. by rewrite decide_True by auto.
Qed.

(** [unionSites] merges the components of its arguments. *)
Lemma wqu_unionSites_spec s x y :
  wqu_inv s → in_univ (n s) x → in_univ (n s) y →
  ∃ s', unionSites x y s = Ret () s' ∧ wqu_inv s' ∧ wqu_same_grid s s' ∧
        conn_on (n s) (conn (parent s')) (join (conn (parent s)) x y).
Proof.
  intros (Hn & Hg & Hp & Hsz & Ht & Hb & Hwf & Hsi & Hcnt & Hbd) Hx Hy.
  unfold in_univ in *.
  destruct (unionSites_effect s x y) as
    (rx & ry & sx & sy & s' & Hrx & Hry & Hsx & Hsy & Hrun & Hsame & Hlen
     & Hwf' & Hsi' & Heq & Hlt & Hge); [done|done|lia|lia|].
  exists s'. destruct Hsame as (En & Eg & Ec & Et & Eb).
  split_and!; try done.
  - unfold wqu_inv. rewrite En, Eg, Ec, Et, Eb, Hlen, (proj1 Hsi'), Hlen.
    split_and!; try done.
    destruct (decide (rx = ry)) as [E|Hne]; [by rewrite (proj1 (Heq E))|].
    assert (1 ≤ sx + sy ≤ n s * n s + 2) as Hsum.
    { pose proof (vget_Forall _ _ _ _ Hbd Hsx) as Hbx.
      pose proof (vget_Forall _ _ _ _ Hbd Hsy) as Hby. simpl in Hbx, Hby.
      split; [lia|].
      destruct (proj2 Hsi rx (root_is_root _ _ _ Hrx)) as (kx & Hkx & Hcx).
      destruct (proj2 Hsi ry (root_is_root _ _ _ Hry)) as (ky & Hky & Hcy).
      simplify_eq.
      eapply (card_bound _ _ (n s * n s + 2)); [lia| |].
      - apply (card_disjoint_union _ _ _ _ Hcx Hcy).
        intros z H1 H2. apply Hne. eapply root_det; eauto.
      - intros z [Hz|Hz]; apply root_range in Hz; lia. }
    destruct (decide (sx < sy)) as [Hs|Hs].
    + destruct (Hlt Hne Hs) as (_ & _ & ->). apply Forall_insert; [done|lia].
    + destruct (Hge Hne Hs) as (_ & _ & ->). apply Forall_insert; [done|lia].
  - intros u v Hu Hv. unfold in_univ in *.
    destruct (decide (rx = ry)) as [E|Hne].
    + destruct (Heq E) as [_ Hroots].
      rewrite (conn_roots_equiv _ _ Hroots), join_same; [done|].
      subst. by exists ry.
    + destruct (decide (sx < sy)) as [Hs|Hs].
      * destruct (Hlt Hne Hs) as (Hrel & _).
        eapply relinked_conn; eauto; lia.
      * destruct (Hge Hne Hs) as (Hrel & _).
        rewrite join_comm. eapply relinked_conn; eauto; lia.
Qed.

Lemma wqu_link_step s nn g (c : bool) (f : t → Z) idx j C0 links :
  wqu_inv s → n s = nn → grid s = g →
  in_univ nn idx → f s = j → (c = true → in_univ nn j) →
  conn_on nn (conn (parent s)) (joins C0 links) →
  ∃ s', when c (v ← gets f; unionSites idx v) s = Ret () s' ∧
        wqu_inv s' ∧ n s' = nn ∧ grid s' = g ∧
        openSitesCount s' = openSitesCount s ∧
        conn_on nn (conn (parent s'))
                (joins C0 (links ++ if c then [(idx, j)] else [])).
Proof.
  intros Hinv <- <- Hidx <- Hj Hconn. destruct c; simpl.
  - destruct (wqu_unionSites_spec s idx (f s)) as
      (s' & Hrun & Hinv' & (En & Eg & Ec & _) & Hjoin); [done|done|auto|].
    exists s'. rewrite (bind_Ret (gets f) _ s (f s) s) by done.
    split_and!; try done. rewrite joins_snoc.
    eapply conn_on_trans; [exact Hjoin|]. apply join_proper; auto.
  - exists s. rewrite app_nil_r. by split_and!.
Qed.

Lemma wqu_open_run s row col :
  wqu_inv s → in_grid (n s) row col →
  ∃ s', open row col s = Ret () s' ∧ wqu_inv s' ∧
        view_equiv (wqu_view s') (view_open (wqu_view s) row col) ∧
        (is_open (grid s) (row * n s + col) = true → s' = s).
Proof.
  intros Hinv Hrc.
  pose proof Hinv as (Hn & Hg & Hp & Hsz & Ht & Hb & Hwf & Hsi & Hcnt & Hbd).
  unfold open, view_open. simpl.
  pose proof (wqu_validate_run s row col) as Hv.
  rewrite decide_True in Hv by done. rewrite (bind_Ret _ _ _ _ _ Hv).
  pose proof (wqu_isOpen_run s row col Hinv) as Ho.
  rewrite decide_True in Ho by done. rewrite (bind_Ret _ _ _ _ _ Ho).
  destruct (is_open (grid s) (row * n s + col)) eqn:Eo.
  { exists s. by split_and!. }
  set (nn := n s) in *. set (idx := row * nn + col) in *.
  set (g := <[Z.to_nat idx := true]> (grid s)).
  pose proof (index_in_grid _ _ _ Hrc) as Hidx. fold idx in Hidx.
  assert (in_univ nn idx) as Hiu by (unfold in_univ; lia).
  rewrite (bind_Ret (getIndex row col) _ s idx s) by done.
  rewrite (bind_Ret (set_grid idx true) _ s () (with_grid g s)); last first.
  { unfold set_grid. rewrite vset_in_range by lia. done. }
  set (s1 := with_openSitesCount (openSitesCount s + 1) (with_grid g s)).
  rewrite (bind_Ret (modify _) _ (with_grid g s) () s1) by done.
  rewrite (bind_Ret (gets n) _ s1 nn s1) by done.
  assert (wqu_inv s1) as Hinv1.
  { unfold wqu_inv, s1, g. simpl. rewrite length_insert.
    split_and!; try done. rewrite count_true_mark; [by rewrite Hcnt|].
    apply is_open_false; [lia|done]. }
  pose proof (virtual_in_univ nn) as [Hvt Hvb].
  (* top *)
  edestruct (wqu_link_step s1 nn g (bool_decide (row = 0)) virtualTop idx
              (nn * nn) (conn (parent s)) [])
    as (s2 & H2 & Hinv2 & En2 & Eg2 & Ec2 & Hc2);
    [done|done|done|done|done|done|apply conn_on_refl|].
  rewrite (bind_Ret _ _ _ _ _ H2).
  (* bottom *)
  edestruct (wqu_link_step s2 nn g (bool_decide (row = nn - 1)) virtualBottom idx
              (nn * nn + 1) (conn (parent s)))
    as (s3 & H3 & Hinv3 & En3 & Eg3 & Ec3 & Hc3);
    [done|done|done|done|by destruct Hinv2 as (_&_&_&_&_&->&_); rewrite En2
    |done|exact Hc2|].
  rewrite (bind_Ret _ _ _ _ _ H3).
  (* up *)
  rewrite (bind_Ret _ _ _ _ _ (wqu_neighbor_test s3 (bool_decide (row > 0)) (row - 1) col Hinv3
    ltac:(rewrite En3; intros ?%bool_decide_eq_true; unfold in_grid in *; lia))).
  rewrite En3, Eg3.
  edestruct (wqu_link_step s3 nn g
              (bool_decide (row > 0) && is_open g ((row - 1) * nn + col))
              (λ s, (row - 1) * n s + col) idx ((row - 1) * nn + col)
              (conn (parent s)))
    as (s4 & H4 & Hinv4 & En4 & Eg4 & Ec4 & Hc4);
    [done|done|done|done|by rewrite En3| |exact Hc3|].
  { intros [?%bool_decide_eq_true _]%andb_prop.
    apply index_in_univ. unfold in_grid in *. lia. }
  try unfold getIndex. rewrite (bind_Ret _ _ _ _ _ H4).
  (* down *)
  rewrite (bind_Ret _ _ _ _ _ (wqu_neighbor_test s4 (bool_decide (row < nn - 1)) (row + 1) col Hinv4
    ltac:(rewrite En4; intros ?%bool_decide_eq_true; unfold in_grid in *; lia))).
  rewrite En4, Eg4.
  edestruct (wqu_link_step s4 nn g
              (bool_decide (row < nn - 1) && is_open g ((row + 1) * nn + col))
              (λ s, (row + 1) * n s + col) idx ((row + 1) * nn + col)
              (conn (parent s)))
    as (s5 & H5 & Hinv5 & En5 & Eg5 & Ec5 & Hc5);
    [done|done|done|done|by rewrite En4| |exact Hc4|].
  { intros [?%bool_decide_eq_true _]%andb_prop.
    apply index_in_univ. unfold in_grid in *. lia. }
  try unfold getIndex. rewrite (bind_Ret _ _ _ _ _ H5).
  (* left *)
  rewrite (bind_Ret _ _ _ _ _ (wqu_neighbor_test s5 (bool_decide (col > 0)) row (col - 1) Hinv5
    ltac:(rewrite En5; intros ?%bool_decide_eq_true; unfold in_grid in *; lia))).
  rewrite En5, Eg5.
  edestruct (wqu_link_step s5 nn g
              (bool_decide (col > 0) && is_open g (row * nn + (col - 1)))
              (λ s, row * n s + (col - 1)) idx (row * nn + (col - 1))
              (conn (parent s)))
    as (s6 & H6 & Hinv6 & En6 & Eg6 & Ec6 & Hc6);
    [done|done|done|done|by rewrite En5| |exact Hc5|].
  { intros [?%bool_decide_eq_true _]%andb_prop.
    apply index_in_univ. unfold in_grid in *. lia. }
  try unfold getIndex. rewrite (bind_Ret _ _ _ _ _ H6).
  (* right *)
  rewrite (bind_Ret _ _ _ _ _ (wqu_neighbor_test s6 (bool_decide (col < nn - 1)) row (col + 1) Hinv6
    ltac:(rewrite En6; intros ?%bool_decide_eq_true; unfold in_grid in *; lia))).
  rewrite En6, Eg6.
  edestruct (wqu_link_step s6 nn g
              (bool_decide (col < nn - 1) && is_open g (row * nn + (col + 1)))
              (λ s, row * n s + (col + 1)) idx (row * nn + (col + 1))
              (conn (parent s)))
    as (s7 & H7 & Hinv7 & En7 & Eg7 & Ec7 & Hc7);
    [done|done|done|done|by rewrite En6| |exact Hc6|].
  { intros [?%bool_decide_eq_true _]%andb_prop.
    apply index_in_univ. unfold in_grid in *. lia. }
  try unfold getIndex. rewrite H7.
  exists s7. split_and!; try done.
  unfold view_equiv, wqu_view. simpl. fold nn idx g.
  split_and!; try done; [by rewrite Ec7, Ec6, Ec5, Ec4, Ec3, Ec2|].
  rewrite En7. unfold open_links. fold idx.
  by rewrite <-!app_assoc in Hc7.
Qed.

(** Path compression is invisible in the view. *)
Lemma wqu_compressed s p' :
  wqu_inv s → length p' = length (parent s) →
  (∀ z r, root p' z r ↔ root (parent s) z r) →
  wqu_inv (with_parent p' s) ∧
  view_equiv (wqu_view (with_parent p' s)) (wqu_view s).
Proof.
  intros (Hn & Hg & Hp & Hsz & Ht & Hb & Hwf & Hsi & Hcnt & Hbd) Hlen Hroots. split.
  - unfold wqu_inv. simpl. rewrite Hlen. split_and!; try done.
    + by eapply uf_wf_roots.
    + by eapply size_inv_roots.
  - unfold view_equiv, wqu_view. simpl. split_and!; try done.
    intros u v _ _. by apply conn_roots_equiv.
Qed.

Lemma wqu_connected_run s x y :
  wqu_inv s → in_univ (n s) x → in_univ (n s) y →
  ∃ b p', connected x y s = Ret b (with_parent p' s) ∧
          (b = true ↔ conn (parent s) x y) ∧
          length p' = length (parent s) ∧
          ∀ z r, root p' z r ↔ root (parent s) z r.
Proof.
  intros (Hn & Hg & Hp & Hsz & Ht & Hb & Hwf & Hsi & _) Hx Hy.
  unfold in_univ in *.
  destruct (find_spec s x Hwf) as (rx & p1 & Hfx & Hrx & Hl1 & Hr1); [lia|].
  destruct (find_spec (with_parent p1 s) y) as (ry & p2 & Hfy & Hry & Hl2 & Hr2);
    simpl in *; [by eapply uf_wf_roots|lia|].
  apply Hr1 in Hry.
  exists (bool_decide (rx = ry)), p2. unfold connected.
  rewrite (bind_Ret _ _ _ _ _ Hfx), (bind_Ret _ _ _ _ _ Hfy).
  split_and!; [done| |lia|].
  - rewrite bool_decide_eq_true. by rewrite (conn_roots _ _ _ _ _ Hrx Hry).
  - intros z r. by rewrite Hr2, Hr1.
Qed.

Lemma wqu_isFull_run s row col :
  wqu_inv s → in_grid (n s) row col →
  ∃ b s', isFull row col s = Ret b s' ∧
          (b = true ↔ is_open (grid s) (row * n s + col) = true ∧
                      conn (parent s) (row * n s + col) (n s * n s)) ∧
          wqu_inv s' ∧ view_equiv (wqu_view s') (wqu_view s).
Proof.
  intros Hinv Hrc. unfold isFull.
  pose proof (wqu_validate_run s row col) as Hv.
  rewrite decide_True in Hv by done. rewrite (bind_Ret _ _ _ _ _ Hv).
  pose proof (wqu_isOpen_run s row col Hinv) as Ho.
  rewrite decide_True in Ho by done. rewrite (bind_Ret _ _ _ _ _ Ho).
  destruct (is_open (grid s) (row * n s + col)) eqn:Eo; simpl.
  - rewrite (bind_Ret (getIndex row col) _ s (row * n s + col) s) by done.
    rewrite (bind_Ret (gets virtualTop) _ s (virtualTop s) s) by done.
    pose proof Hinv as (_ & _ & _ & _ & -> & _).
    destruct (wqu_connected_run s (row * n s + col) (n s * n s) Hinv)
      as (b & p' & Hrun & Hb & Hlen & Hroots);
      [by apply index_in_univ|apply virtual_in_univ|].
    exists b, (with_parent p' s).
    destruct (wqu_compressed s p' Hinv Hlen Hroots). split_and!; try done.
    rewrite Hb. naive_solver.
  - exists false, s. split_and!; try done. naive_solver.
Qed.

Lemma wqu_isFull_throw s row col :
  ¬ in_grid (n s) row col → isFull row col s = Throw out_of_bounds s.
Proof.
  intros Hrc. unfold isFull.
  pose proof (wqu_validate_run s row col) as Hv.
  rewrite decide_False in Hv by done. by rewrite (bind_Throw _ _ _ _ _ Hv).
Qed.

Lemma wqu_open_throw s row col :
  ¬ in_grid (n s) row col → open row col s = Throw out_of_bounds s.
Proof.
  intros Hrc. unfold open.
  pose proof (wqu_validate_run s row col) as Hv.
  rewrite decide_False in Hv by done. by rewrite (bind_Throw _ _ _ _ _ Hv).
Qed.

Lemma wqu_percolates_run s :
  wqu_inv s →
  ∃ b s', percolates s = Ret b s' ∧
          (b = true ↔ conn (parent s) (n s * n s) (n s * n s + 1)) ∧
          wqu_inv s' ∧ view_equiv (wqu_view s') (wqu_view s).
Proof.
  intros Hinv. unfold percolates.
  rewrite (bind_Ret (gets virtualTop) _ s (virtualTop s) s) by done.
  rewrite (bind_Ret (gets virtualBottom) _ s (virtualBottom s) s) by done.
  pose proof Hinv as (_ & _ & _ & _ & -> & -> & _).
  destruct (wqu_connected_run s (n s * n s) (n s * n s + 1) Hinv)
    as (b & p' & Hrun & Hb & Hlen & Hroots); [apply virtual_in_univ..|].
  exists b, (with_parent p' s).
  by destruct (wqu_compressed s p' Hinv Hlen Hroots).
Qed.

(** The constructor's loop [parent[i] = i]. *)
Lemma wqu_init_loop s lo k :
  0 ≤ lo → lo + Z.of_nat k ≤ Z.of_nat (length (parent s)) →
  ∃ p', for_loop lo k (λ i, set_parent i i) s = Ret () (with_parent p' s) ∧
        length p' = length (parent s) ∧
        ∀ i, vget p' i = if bool_decide (lo ≤ i < lo + Z.of_nat k)
                         then Some i else vget (parent s) i.
Proof.
  revert s lo. induction k as [|k IH]; intros s lo Hlo Hk.
  - exists (parent s). split_and!; [by destruct s|done|].
    intros i. by rewrite bool_decide_false by lia.
  - simpl. rewrite (bind_Ret _ _ _ _ _ (set_parent_Ret s lo lo ltac:(lia))).
    destruct (IH (with_parent (<[Z.to_nat lo := lo]> (parent s)) s) (lo + 1))
      as (p' & Hrun & Hlen & Hget); [lia|simpl; rewrite length_insert; lia|].
    exists p'. simpl in *. rewrite length_insert in Hlen.
    split_and!; [done|done|].
    intros i. rewrite Hget, vget_upd by lia.
    repeat case_bool_decide; subst; done || lia.
Qed.

Lemma vresize_nil {A} k (a : A) : vresize [] k a = replicate (Z.to_nat k) a.
Proof. unfold vresize. by rewrite take_nil, Nat.sub_0_r. Qed.

Lemma identity_links p :
  (∀ i, 0 ≤ i < Z.of_nat (length p) → vget p i = Some i) →
  uf_wf p ∧ ∀ x r, root p x r ↔ 0 ≤ x < Z.of_nat (length p) ∧ r = x.
Proof.
  intros Hid. split.
  - intros x Hx. exists x. apply root_self. auto.
  - intros x r. split.
    + intros Hr. pose proof (root_range _ _ _ Hr) as Hx. split; [done|].
      eapply root_det; [exact Hr|]. apply root_self. auto.
    + intros [Hx ->]. apply root_self. auto.
Qed.

Lemma wqu_new_run n0 :
  0 < n0 →
  ∃ s, new n0 = Ret () s ∧ wqu_inv s ∧ n s = n0 ∧
       grid s = replicate (Z.to_nat (n0 * n0)) false ∧
       openSitesCount s = 0 ∧
       ∀ u v, in_univ n0 u → in_univ n0 v → conn (parent s) u v ↔ u = v.
Proof.
  intros Hn0. unfold new, ctor. rewrite bool_decide_false by lia.
  unfold mbind, M_mbind, M_bind, modify. simpl. rewrite !vresize_nil.
  match goal with |- context [for_loop _ _ _ ?s0] => set (s5 := s0) end.
  destruct (wqu_init_loop s5 0 (Z.to_nat (n0 * n0 + 2)))
    as (p' & -> & Hlen & Hget); [done|simpl; rewrite length_replicate; lia|].
  simpl in *. rewrite length_replicate in Hlen.
  assert (∀ i, 0 ≤ i < Z.of_nat (length p') → vget p' i = Some i) as Hid.
  { intros i Hi. rewrite Hget. rewrite bool_decide_true; [done|lia]. }
  destruct (identity_links p' Hid) as [Hwf Hroot].
  eexists. split; [done|]. unfold wqu_inv. simpl.
  rewrite !length_replicate, Hlen. split_and!; try done; try lia.
  - split; [by rewrite length_replicate|].
    intros r Hr. pose proof (vget_Some_range _ _ _ Hr) as Hrr. exists 1.
    split.
    + unfold vget. rewrite bool_decide_true by lia.
      apply lookup_replicate_2. lia.
    + apply (card_singleton _ r). intros z. rewrite Hroot. naive_solver lia.
  - by rewrite count_true_replicate.
  - apply Forall_replicate. nia.
  - intros u v Hu Hv. unfold in_univ in *. unfold conn. split.
    + intros (r & [_ ->]%Hroot & [_ E]%Hroot). done.
    + intros ->. exists v. rewrite Hroot. split; (split; [lia|done]).
Qed.

Lemma wqu_new_throw n0 :
  n0 ≤ 0 → new n0 = Throw (invalid_argument "Grid size must be positive") blank.
Proof. intros Hn0. unfold new, ctor. by rewrite bool_decide_true. Qed.

(** Every call on a grid that satisfies the invariant returns or throws as
    the view says, and leaves a grid that satisfies the invariant and shows
    the next view. *)
Lemma wqu_refines s c :
  wqu_inv s →
  view_answer (wqu_view s) c (answer_of (wqu_invoke c s)) ∧
  wqu_inv (state_after s (wqu_invoke c s)) ∧
  view_equiv (wqu_view (state_after s (wqu_invoke c s)))
             (view_next (wqu_view s) c).
Proof.
  intros Hinv. destruct c as [row col|row col|row col| |]; simpl.
  - destruct (decide (in_grid (n s) row col)) as [Hrc|Hrc].
    + destruct (wqu_open_run s row col Hinv Hrc) as (s' & Hrun & Hinv' & Hv & _).
      by rewrite (bind_Ret _ _ _ _ _ Hrun).
    + rewrite (bind_Throw _ _ _ _ _ (wqu_open_throw s row col Hrc)).
      split_and!; [done..|apply view_equiv_refl].
  - pose proof (wqu_isOpen_run s row col Hinv) as Hrun.
    destruct (decide (in_grid (n s) row col)) as [Hrc|Hrc].
    + rewrite (bind_Ret _ _ _ _ _ Hrun). split_and!; [done..|apply view_equiv_refl].
    + rewrite (bind_Throw _ _ _ _ _ Hrun).
      split_and!; [done..|apply view_equiv_refl].
  - destruct (decide (in_grid (n s) row col)) as [Hrc|Hrc].
    + destruct (wqu_isFull_run s row col Hinv Hrc)
        as (b & s' & Hrun & Hb & Hinv' & Hv).
      rewrite (bind_Ret _ _ _ _ _ Hrun). split_and!; [by exists b|done..].
    + rewrite (bind_Throw _ _ _ _ _ (wqu_isFull_throw s row col Hrc)).
      split_and!; [done..|apply view_equiv_refl].
  - split_and!; [done..|apply view_equiv_refl].
  - destruct (wqu_percolates_run s Hinv) as (b & s' & Hrun & Hb & Hinv' & Hv).
    rewrite (bind_Ret _ _ _ _ _ Hrun). split_and!; [by exists b|done..].
Qed.

Lemma wqu_reachable_inv s : wqu_reachable s → wqu_inv s.
Proof.
  induction 1 as [n0 s Hnew|s c _ IH].
  - destruct (decide (0 < n0)) as [Hn0|Hn0].
    + destruct (wqu_new_run n0 Hn0) as (s' & Hrun & Hinv & _). congruence.
    + rewrite wqu_new_throw in Hnew by lia. done.
  - by apply wqu_refines.
Qed.
End wqu_grid.

(** ** The quick-find grid refines the view *)

Section qf_grid.
Import PercolationQuickFind.

Lemma qf_validate_run s row col :
  validate row col s =
    if decide (in_grid (n s) row col) then Ret () s else Throw out_of_bounds s.
Proof.
  unfold validate, in_grid.
  rewrite (bind_Ret (gets n) _ s (n s) s) by done.
  rewrite Z.geb_leb, Z.geb_leb.
  destruct (Z.ltb_spec row 0), (Z.leb_spec (n s) row), (Z.ltb_spec col 0),
    (Z.leb_spec (n s) col); simpl; case_decide; done || lia.
Qed.

Lemma qf_isOpen_run s row col :
  qf_inv s →
  isOpen row col s =
    if decide (in_grid (n s) row col)
    then Ret (is_open (grid s) (row * n s + col)) s
    else Throw out_of_bounds s.
Proof.
  intros (Hn & Hg & _). unfold isOpen.
  pose proof (qf_validate_run s row col) as Hv.
  destruct (decide (in_grid (n s) row col)) as [Hrc|Hrc].
  - rewrite (bind_Ret _ _ _ _ _ Hv).
    rewrite (bind_Ret (getIndex row col) _ s (row * n s + col) s) by done.
    unfold get_grid, is_open.
    destruct (vget_in_range (grid s) (row * n s + col)) as [b ->]; [|done].
    apply index_in_grid in Hrc. lia.
  - by rewrite (bind_Throw _ _ _ _ _ Hv).
Qed.

Lemma qf_neighbor_test s (c : bool) row col :
  qf_inv s → (c = true → in_grid (n s) row col) →
  and_then c (isOpen row col) s = Ret (c && is_open (grid s) (row * n s + col)) s.
Proof.
  intros Hinv Hc. destruct c; [|done]. simpl.
  rewrite qf_isOpen_run by done. by rewrite decide_True by auto.
Qed.

Lemma qf_conn_sym ids x y : qf_conn ids x y → qf_conn ids y x.
Proof. intros (i & ? & ?). by exists i. Qed.

Lemma qf_conn_trans ids x y z : qf_conn ids x y → qf_conn ids y z → qf_conn ids x z.
Proof. intros (i & ? & ?) (j & ? & ?). exists i. split; congruence. Qed.

(** The loop of [unionSites]: every entry equal to [idX] becomes [idY]. *)
Lemma qf_relabel_loop s lo k idX idY :
  0 ≤ lo → lo + Z.of_nat k ≤ Z.of_nat (length (id s)) →
  ∃ ids', for_loop lo k (λ i, v ← get_id i;
                              when (bool_decide (v = idX)) (set_id i idY)) s
            = Ret () (with_id ids' s) ∧
          length ids' = length (id s) ∧
          ∀ i, vget ids' i =
               if bool_decide (lo ≤ i < lo + Z.of_nat k)
               then (λ v, if bool_decide (v = idX) then idY else v) <$> vget (id s) i
               else vget (id s) i.
Proof.
  revert s lo. induction k as [|k IH]; intros s lo Hlo Hk.
  - exists (id s). split_and!; [by destruct s|done|].
    intros i. by rewrite bool_decide_false by lia.
  - simpl. destruct (vget_in_range (id s) lo) as [v Hv]; [lia|].
    set (ids1 := if bool_decide (v = idX)
                 then <[Z.to_nat lo := idY]> (id s) else id s).
    assert (length ids1 = length (id s)) as Hl1.
    { unfold ids1. case_bool_decide; by rewrite ?length_insert. }
    rewrite (bind_Ret _ _ s () (with_id ids1 s)); last first.
    { rewrite (bind_Ret (get_id lo) _ s v s) by (unfold get_id; by rewrite Hv).
      unfold ids1. case_bool_decide; simpl; [|by destruct s].
      unfold set_id. by rewrite vset_in_range by lia. }
    destruct (IH (with_id ids1 s) (lo + 1)) as (ids' & Hrun & Hlen & Hget);
      [lia|simpl; lia|].
    exists ids'. simpl in *. split_and!; [done|lia|].
    intros i. rewrite Hget.
    destruct (decide (i = lo)) as [->|Hne].
    + rewrite (bool_decide_false (lo + 1 ≤ lo < _)) by lia.
      rewrite (bool_decide_true (lo ≤ lo < _)) by lia. rewrite Hv. simpl.
      unfold ids1. case_bool_decide; [apply vget_upd_eq; lia|done].
    + assert (vget ids1 i = vget (id s) i) as ->.
      { unfold ids1. case_bool_decide; [|done]. apply vget_upd_ne; [lia|done]. }
      repeat case_bool_decide; done || lia.
Qed.

Lemma join_absorb (C : Z → Z → Prop) x y u v :
  (∀ a b, C a b → C b a) → (∀ a b c, C a b → C b c → C a c) →
  C x y → join C x y u v ↔ C u v.
Proof. intros Hsym Htrans Hxy. unfold join. naive_solver eauto. Qed.

(** [unionSites] merges the components of its arguments. *)
Lemma qf_unionSites_spec s x y :
  qf_inv s → in_univ (n s) x → in_univ (n s) y →
  ∃ s', unionSites x y s = Ret () s' ∧ qf_inv s' ∧ qf_same_grid s s' ∧
        conn_on (n s) (qf_conn (id s')) (join (qf_conn (id s)) x y).
Proof.
  intros (Hn & Hg & Hp & Ht & Hb) Hx Hy. unfold in_univ in *.
  destruct (vget_in_range (id s) x) as [idX HidX]; [lia|].
  destruct (vget_in_range (id s) y) as [idY HidY]; [lia|].
  unfold unionSites, find.
  rewrite (bind_Ret (get_id x) _ s idX s) by (unfold get_id; by rewrite HidX).
  rewrite (bind_Ret (get_id y) _ s idY s) by (unfold get_id; by rewrite HidY).
  case_bool_decide as Heq.
  - exists s. split_and!; try done. intros u v _ _.
    symmetry. apply join_absorb; eauto using qf_conn_sym, qf_conn_trans.
    exists idX. split; congruence.
  - rewrite (bind_Ret (gets _) _ s (length (id s)) s) by done.
    destruct (qf_relabel_loop s 0 (length (id s)) idX idY)
      as (ids' & -> & Hlen & Hget); [lia|lia|].
    exists (with_id ids' s). split_and!; try done.
    { unfold qf_inv. simpl. rewrite Hlen. by split_and!. }
    intros u v Hu Hv. unfold in_univ in *. simpl.
    destruct (vget_in_range (id s) u) as [a Ha]; [lia|].
    destruct (vget_in_range (id s) v) as [b Hb']; [lia|].
    unfold join, qf_conn. rewrite !Hget, !bool_decide_true by lia.
    rewrite Ha, Hb', HidX, HidY. simpl.
    repeat case_bool_decide; naive_solver.
Qed.

Lemma qf_link_step s nn g (c : bool) (f : t → Z) idx j C0 links :
  qf_inv s → n s = nn → grid s = g →
  in_univ nn idx → f s = j → (c = true → in_univ nn j) →
  conn_on nn (qf_conn (id s)) (joins C0 links) →
  ∃ s', when c (v ← gets f; unionSites idx v) s = Ret () s' ∧
        qf_inv s' ∧ n s' = nn ∧ grid s' = g ∧
        openSitesCount s' = openSitesCount s ∧
        conn_on nn (qf_conn (id s'))
                (joins C0 (links ++ if c then [(idx, j)] else [])).
Proof.
  intros Hinv <- <- Hidx <- Hj Hconn. destruct c; simpl.
  - destruct (qf_unionSites_spec s idx (f s)) as
      (s' & Hrun & Hinv' & (En & Eg & Ec & _) & Hjoin); [done|done|auto|].
    exists s'. rewrite (bind_Ret (gets f) _ s (f s) s) by done.
    split_and!; try done. rewrite joins_snoc.
    eapply conn_on_trans; [exact Hjoin|]. apply join_proper; auto.
  - exists s. rewrite app_nil_r. by split_and!.
Qed.

Lemma qf_open_run s row col :
  qf_inv s → in_grid (n s) row col →
  ∃ s', open row col s = Ret () s' ∧ qf_inv s' ∧
        view_equiv (qf_view s') (view_open (qf_view s) row col) ∧
        (is_open (grid s) (row * n s + col) = true → s' = s).
Proof.
  intros Hinv Hrc. pose proof Hinv as (Hn & Hg & Hp & Ht & Hb).
  unfold open, view_open. simpl.
  pose proof (qf_validate_run s row col) as Hv.
  rewrite decide_True in Hv by done. rewrite (bind_Ret _ _ _ _ _ Hv).
  pose proof (qf_isOpen_run s row col Hinv) as Ho.
  rewrite decide_True in Ho by done. rewrite (bind_Ret _ _ _ _ _ Ho).
  destruct (is_open (grid s) (row * n s + col)) eqn:Eo.
  { exists s. by split_and!. }
  set (nn := n s) in *. set (idx := row * nn + col) in *.
  set (g := <[Z.to_nat idx := true]> (grid s)).
  pose proof (index_in_grid _ _ _ Hrc) as Hidx. fold idx in Hidx.
  assert (in_univ nn idx) as Hiu by (unfold in_univ; lia).
  rewrite (bind_Ret (getIndex row col) _ s idx s) by done.
  rewrite (bind_Ret (set_grid idx true) _ s () (with_grid g s)); last first.
  { unfold set_grid. rewrite vset_in_range by lia. done. }
  set (s1 := with_openSitesCount (openSitesCount s + 1) (with_grid g s)).
  rewrite (bind_Ret (modify _) _ (with_grid g s) () s1) by done.
  rewrite (bind_Ret (gets n) _ s1 nn s1) by done.
  assert (qf_inv s1) as Hinv1.
  { unfold qf_inv, s1, g. simpl. rewrite length_insert. by split_and!. }
  pose proof (virtual_in_univ nn) as [Hvt Hvb].
  (* top *)
  edestruct (qf_link_step s1 nn g (bool_decide (row = 0)) virtualTop idx
              (nn * nn) (qf_conn (id s)) [])
    as (s2 & H2 & Hinv2 & En2 & Eg2 & Ec2 & Hc2);
    [done|done|done|done|done|done|apply conn_on_refl|].
  rewrite (bind_Ret _ _ _ _ _ H2).
  (* bottom *)
  edestruct (qf_link_step s2 nn g (bool_decide (row = nn - 1)) virtualBottom idx
              (nn * nn + 1) (qf_conn (id s)))
    as (s3 & H3 & Hinv3 & En3 & Eg3 & Ec3 & Hc3);
    [done|done|done|done|by destruct Hinv2 as (_&_&_&_&->); rewrite En2
    |done|exact Hc2|].
  rewrite (bind_Ret _ _ _ _ _ H3).
  (* up *)
  rewrite (bind_Ret _ _ _ _ _ (qf_neighbor_test s3 (bool_decide (row > 0)) (row - 1) col Hinv3
    ltac:(rewrite En3; intros ?%bool_decide_eq_true; unfold in_grid in *; lia))).
  rewrite En3, Eg3.
  edestruct (qf_link_step s3 nn g
              (bool_decide (row > 0) && is_open g ((row - 1) * nn + col))
              (λ s, (row - 1) * n s + col) idx ((row - 1) * nn + col)
              (qf_conn (id s)))
    as (s4 & H4 & Hinv4 & En4 & Eg4 & Ec4 & Hc4);
    [done|done|done|done|by rewrite En3| |exact Hc3|].
  { intros [?%bool_decide_eq_true _]%andb_prop.
    apply index_in_univ. unfold in_grid in *. lia. }
  try unfold getIndex. rewrite (bind_Ret _ _ _ _ _ H4).
  (* down *)
  rewrite (bind_Ret _ _ _ _ _ (qf_neighbor_test s4 (bool_decide (row < nn - 1)) (row + 1) col Hinv4
    ltac:(rewrite En4; intros ?%bool_decide_eq_true; unfold in_grid in *; lia))).
  rewrite En4, Eg4.
  edestruct (qf_link_step s4 nn g
              (bool_decide (row < nn - 1) && is_open g ((row + 1) * nn + col))
              (λ s, (row + 1) * n s + col) idx ((row + 1) * nn + col)
              (qf_conn (id s)))
    as (s5 & H5 & Hinv5 & En5 & Eg5 & Ec5 & Hc5);
    [done|done|done|done|by rewrite En4| |exact Hc4|].
  { intros [?%bool_decide_eq_true _]%andb_prop.
    apply index_in_univ. unfold in_grid in *. lia. }
  try unfold getIndex. rewrite (bind_Ret _ _ _ _ _ H5).
  (* left *)
  rewrite (bind_Ret _ _ _ _ _ (qf_neighbor_test s5 (bool_decide (col > 0)) row (col - 1) Hinv5
    ltac:(rewrite En5; intros ?%bool_decide_eq_true; unfold in_grid in *; lia))).
  rewrite En5, Eg5.
  edestruct (qf_link_step s5 nn g
              (bool_decide (col > 0) && is_open g (row * nn + (col - 1)))
              (λ s, row * n s + (col - 1)) idx (row * nn + (col - 1))
              (qf_conn (id s)))
    as (s6 & H6 & Hinv6 & En6 & Eg6 & Ec6 & Hc6);
    [done|done|done|done|by rewrite En5| |exact Hc5|].
  { intros [?%bool_decide_eq_true _]%andb_prop.
    apply index_in_univ. unfold in_grid in *. lia. }
  try unfold getIndex. rewrite (bind_Ret _ _ _ _ _ H6).
  (* right *)
  rewrite (bind_Ret _ _ _ _ _ (qf_neighbor_test s6 (bool_decide (col < nn - 1)) row (col + 1) Hinv6
    ltac:(rewrite En6; intros ?%bool_decide_eq_true; unfold in_grid in *; lia))).
  rewrite En6, Eg6.
  edestruct (qf_link_step s6 nn g
              (bool_decide (col < nn - 1) && is_open g (row * nn + (col + 1)))
              (λ s, row * n s + (col + 1)) idx (row * nn + (col + 1))
              (qf_conn (id s)))
    as (s7 & H7 & Hinv7 & En7 & Eg7 & Ec7 & Hc7);
    [done|done|done|done|by rewrite En6| |exact Hc6|].
  { intros [?%bool_decide_eq_true _]%andb_prop.
    apply index_in_univ. unfold in_grid in *. lia. }
  try unfold getIndex. rewrite H7.
  exists s7. split_and!; try done.
  unfold view_equiv, qf_view. simpl. fold nn idx g.
  split_and!; try done; [by rewrite Ec7, Ec6, Ec5, Ec4, Ec3, Ec2|].
  rewrite En7. unfold open_links. fold idx.
  by rewrite <-!app_assoc in Hc7.
Qed.

Lemma qf_open_throw s row col :
  ¬ in_grid (n s) row col → open row col s = Throw out_of_bounds s.
Proof.
  intros Hrc. unfold open.
  pose proof (qf_validate_run s row col) as Hv.
  rewrite decide_False in Hv by done. by rewrite (bind_Throw _ _ _ _ _ Hv).
Qed.

Lemma qf_isFull_throw s row col :
  ¬ in_grid (n s) row col → isFull row col s = Throw out_of_bounds s.
Proof.
  intros Hrc. unfold isFull.
  pose proof (qf_validate_run s row col) as Hv.
  rewrite decide_False in Hv by done. by rewrite (bind_Throw _ _ _ _ _ Hv).
Qed.

Lemma qf_connected_run s x y :
  qf_inv s → in_univ (n s) x → in_univ (n s) y →
  ∃ b, connected x y s = Ret b s ∧ (b = true ↔ qf_conn (id s) x y).
Proof.
  intros (Hn & Hg & Hp & Ht & Hb) Hx Hy. unfold in_univ in *.
  destruct (vget_in_range (id s) x) as [ix Hix]; [lia|].
  destruct (vget_in_range (id s) y) as [iy Hiy]; [lia|].
  exists (bool_decide (ix = iy)). unfold connected, find.
  rewrite (bind_Ret (get_id x) _ s ix s) by (unfold get_id; by rewrite Hix).
  rewrite (bind_Ret (get_id y) _ s iy s) by (unfold get_id; by rewrite Hiy).
  split; [done|]. rewrite bool_decide_eq_true. unfold qf_conn.
  rewrite Hix, Hiy. naive_solver.
Qed.

Lemma qf_isFull_run s row col :
  qf_inv s → in_grid (n s) row col →
  ∃ b, isFull row col s = Ret b s ∧
       (b = true ↔ is_open (grid s) (row * n s + col) = true ∧
                   qf_conn (id s) (row * n s + col) (n s * n s)).
Proof.
  intros Hinv Hrc. unfold isFull.
  pose proof (qf_validate_run s row col) as Hv.
  rewrite decide_True in Hv by done. rewrite (bind_Ret _ _ _ _ _ Hv).
  pose proof (qf_isOpen_run s row col Hinv) as Ho.
  rewrite decide_True in Ho by done. rewrite (bind_Ret _ _ _ _ _ Ho).
  destruct (is_open (grid s) (row * n s + col)) eqn:Eo; simpl.
  - rewrite (bind_Ret (getIndex row col) _ s (row * n s + col) s) by done.
    rewrite (bind_Ret (gets virtualTop) _ s (virtualTop s) s) by done.
    pose proof Hinv as (_ & _ & _ & -> & _).
    destruct (qf_connected_run s (row * n s + col) (n s * n s) Hinv)
      as (b & Hrun & Hb); [by apply index_in_univ|apply virtual_in_univ|].
    exists b. split; [done|]. rewrite Hb. naive_solver.
  - exists false. split; [done|]. naive_solver.
Qed.

Lemma qf_percolates_run s :
  qf_inv s →
  ∃ b, percolates s = Ret b s ∧
       (b = true ↔ qf_conn (id s) (n s * n s) (n s * n s + 1)).
Proof.
  intros Hinv. unfold percolates.
  rewrite (bind_Ret (gets virtualTop) _ s (virtualTop s) s) by done.
  rewrite (bind_Ret (gets virtualBottom) _ s (virtualBottom s) s) by done.
  pose proof Hinv as (_ & _ & _ & -> & ->).
  apply qf_connected_run; [done|apply virtual_in_univ..].
Qed.

(** The constructor's loop [id[i] = i]. *)
Lemma qf_init_loop s lo k :
  0 ≤ lo → lo + Z.of_nat k ≤ Z.of_nat (length (id s)) →
  ∃ ids', for_loop lo k (λ i, set_id i i) s = Ret () (with_id ids' s) ∧
          length ids' = length (id s) ∧
          ∀ i, vget ids' i = if bool_decide (lo ≤ i < lo + Z.of_nat k)
                             then Some i else vget (id s) i.
Proof.
  revert s lo. induction k as [|k IH]; intros s lo Hlo Hk.
  - exists (id s). split_and!; [by destruct s|done|].
    intros i. by rewrite bool_decide_false by lia.
  - simpl. rewrite (bind_Ret _ _ s () (with_id (<[Z.to_nat lo := lo]> (id s)) s));
      last (unfold set_id; by rewrite vset_in_range by lia).
    destruct (IH (with_id (<[Z.to_nat lo := lo]> (id s)) s) (lo + 1))
      as (ids' & Hrun & Hlen & Hget); [lia|simpl; rewrite length_insert; lia|].
    exists ids'. simpl in *. rewrite length_insert in Hlen.
    split_and!; [done|done|].
    intros i. rewrite Hget, vget_upd by lia.
    repeat case_bool_decide; subst; done || lia.
Qed.

Lemma qf_new_run n0 :
  0 < n0 →
  ∃ s, new n0 = Ret () s ∧ qf_inv s ∧ n s = n0 ∧
       grid s = replicate (Z.to_nat (n0 * n0)) false ∧
       openSitesCount s = 0 ∧
       ∀ u v, in_univ n0 u → in_univ n0 v → qf_conn (id s) u v ↔ u = v.
Proof.
  intros Hn0. unfold new, ctor. rewrite bool_decide_false by lia.
  unfold mbind, M_mbind, M_bind, modify. simpl. rewrite !vresize_nil.
  match goal with |- context [for_loop _ _ _ ?s0] => set (s4 := s0) end.
  destruct (qf_init_loop s4 0 (Z.to_nat (n0 * n0 + 2)))
    as (ids' & -> & Hlen & Hget); [done|simpl; rewrite length_replicate; lia|].
  simpl in *. rewrite length_replicate in Hlen.
  eexists. split; [done|]. unfold qf_inv. simpl.
  rewrite !length_replicate, Hlen. split_and!; try done; try lia.
  intros u v Hu Hv. unfold in_univ in *. unfold qf_conn.
  rewrite !Hget, !bool_decide_true by lia. naive_solver.
Qed.

Lemma qf_new_throw n0 :
  n0 ≤ 0 → new n0 = Throw (invalid_argument "Grid size must be positive") blank.
Proof. intros Hn0. unfold new, ctor. by rewrite bool_decide_true. Qed.

Lemma qf_refines s c :
  qf_inv s →
  view_answer (qf_view s) c (answer_of (qf_invoke c s)) ∧
  qf_inv (state_after s (qf_invoke c s)) ∧
  view_equiv (qf_view (state_after s (qf_invoke c s)))
             (view_next (qf_view s) c).
Proof.
  intros Hinv. destruct c as [row col|row col|row col| |]; simpl.
  - destruct (decide (in_grid (n s) row col)) as [Hrc|Hrc].
    + destruct (qf_open_run s row col Hinv Hrc) as (s' & Hrun & Hinv' & Hv & _).
      by rewrite (bind_Ret _ _ _ _ _ Hrun).
    + rewrite (bind_Throw _ _ _ _ _ (qf_open_throw s row col Hrc)).
      split_and!; [done..|apply view_equiv_refl].
  - pose proof (qf_isOpen_run s row col Hinv) as Hrun.
    destruct (decide (in_grid (n s) row col)) as [Hrc|Hrc].
    + rewrite (bind_Ret _ _ _ _ _ Hrun). split_and!; [done..|apply view_equiv_refl].
    + rewrite (bind_Throw _ _ _ _ _ Hrun).
      split_and!; [done..|apply view_equiv_refl].
  - destruct (decide (in_grid (n s) row col)) as [Hrc|Hrc].
    + destruct (qf_isFull_run s row col Hinv Hrc) as (b & Hrun & Hb).
      rewrite (bind_Ret _ _ _ _ _ Hrun).
      split_and!; [by exists b|done|apply view_equiv_refl].
    + rewrite (bind_Throw _ _ _ _ _ (qf_isFull_throw s row col Hrc)).
      split_and!; [done..|apply view_equiv_refl].
  - split_and!; [done..|apply view_equiv_refl].
  - destruct (qf_percolates_run s Hinv) as (b & Hrun & Hb).
    rewrite (bind_Ret _ _ _ _ _ Hrun).
    split_and!; [by exists b|done|apply view_equiv_refl].
Qed.
End qf_grid.

(** ** Runs of calls *)

Section runs.

Lemma answer_of_bind_ret {St A B} (m : M St A) (f : A → B) s :
  answer_of ((a ← m; mret (f a)) s) =
    match answer_of (m s) with
    | Returned a => Returned (f a)
    | Raised e => Raised e
    | Aborted w => Aborted w
    end
  ∧ state_after s ((a ← m; mret (f a)) s) = state_after s (m s).
Proof. unfold mbind, M_mbind, M_bind. by destruct (m s). Qed.

Lemma answer_of_inj {St St' A B} (f : A → B) (o : outcome St A) (o' : outcome St' A) :
  (∀ a a', f a = f a' → a = a') →
  match answer_of o with
  | Returned a => Returned (f a) | Raised e => Raised e | Aborted w => Aborted w
  end =
  match answer_of o' with
  | Returned a => Returned (f a) | Raised e => Raised e | Aborted w => Aborted w
  end →
  answer_of o = answer_of o'.
Proof.
  intros Hinj. destruct o, o'; simpl; intros E; simplify_eq; try done.
  f_equal. auto.
Qed.

(** One call on each backend, from grids that show equivalent views. *)
Lemma backends_step sW sQ c :
  wqu_inv sW → qf_inv sQ → view_equiv (wqu_view sW) (qf_view sQ) →
  answer_of (wqu_invoke c sW) = answer_of (qf_invoke c sQ) ∧
  (∀ w, answer_of (wqu_invoke c sW) ≠ Aborted w) ∧
  wqu_inv (state_after sW (wqu_invoke c sW)) ∧
  qf_inv (state_after sQ (qf_invoke c sQ)) ∧
  view_equiv (wqu_view (state_after sW (wqu_invoke c sW)))
             (qf_view (state_after sQ (qf_invoke c sQ))).
Proof.
  intros HW HQ Hv.
  destruct (wqu_refines sW c HW) as (Ha & HW' & Hv').
  destruct (qf_refines sQ c HQ) as (Hb & HQ' & Hv'').
  split_and!; try done.
  - exact (view_answer_det _ _ _ _ _ Hv Ha Hb).
  - intros w Hw. rewrite Hw in Ha.
    destruct c; simpl in Ha; repeat case_decide; naive_solver.
  - eapply view_equiv_trans; [exact Hv'|].
    eapply view_equiv_trans; [|apply view_equiv_sym, Hv''].
    by apply view_next_proper.
Qed.

(** One call on two weighted quick-union grids that show equivalent views. *)
Lemma wqu_step_equiv s1 s2 c :
  wqu_inv s1 → wqu_inv s2 → view_equiv (wqu_view s1) (wqu_view s2) →
  answer_of (wqu_invoke c s1) = answer_of (wqu_invoke c s2) ∧
  wqu_inv (state_after s1 (wqu_invoke c s1)) ∧
  wqu_inv (state_after s2 (wqu_invoke c s2)) ∧
  view_equiv (wqu_view (state_after s1 (wqu_invoke c s1)))
             (wqu_view (state_after s2 (wqu_invoke c s2))).
Proof.
  intros H1 H2 Hv.
  destruct (wqu_refines s1 c H1) as (Ha & H1' & Hv').
  destruct (wqu_refines s2 c H2) as (Hb & H2' & Hv'').
  split_and!; try done.
  - exact (view_answer_det _ _ _ _ _ Hv Ha Hb).
  - eapply view_equiv_trans; [exact Hv'|].
    eapply view_equiv_trans; [|apply view_equiv_sym, Hv''].
    by apply view_next_proper.
Qed.

Lemma wqu_run_equiv cs s1 s2 :
  wqu_inv s1 → wqu_inv s2 → view_equiv (wqu_view s1) (wqu_view s2) →
  (wqu_run cs s1).1 = (wqu_run cs s2).1.
Proof.
  revert s1 s2. induction cs as [|c cs IH]; intros s1 s2 H1 H2 Hv; [done|].
  destruct (wqu_step_equiv s1 s2 c H1 H2 Hv) as (Ha & H1' & H2' & Hv').
  simpl. specialize (IH _ _ H1' H2' Hv').
  destruct (wqu_run cs _), (wqu_run cs _). simpl in *. congruence.
Qed.

Lemma wqu_open_state s row col :
  state_after s (wqu_invoke (Open row col) s)
  = state_after s (Percolation.open row col s).
Proof. apply (answer_of_bind_ret (Percolation.open row col) (λ _, VUnit)). Qed.

Lemma qf_open_state s row col :
  state_after s (qf_invoke (Open row col) s)
  = state_after s (PercolationQuickFind.open row col s).
Proof. apply (answer_of_bind_ret (PercolationQuickFind.open row col) (λ _, VUnit)). Qed.

Lemma wqu_blank_new n0 :
  0 < n0 →
  ∃ s, Percolation.new n0 = Ret () s ∧
       state_after Percolation.blank (Percolation.new n0) = s.
Proof.
  intros Hn0. destruct (wqu_new_run n0 Hn0) as (s & Hs & _).
  exists s. by rewrite Hs.
Qed.

Lemma wqu_after_opens_reachable n0 opens :
  0 < n0 → wqu_reachable (wqu_after_opens n0 opens).
Proof.
  intros Hn0. unfold wqu_after_opens.
  destruct (wqu_blank_new n0 Hn0) as (s0 & Hnew & ->).
  assert (wqu_reachable s0) as H0 by (by econstructor).
  clear Hnew. revert s0 H0. induction opens as [|[row col] l IH]; intros s0 H0;
    [done|].
  simpl. apply IH. rewrite <-wqu_open_state. by constructor.
Qed.

(** After the same [open] calls the two backends show equivalent views. *)
Lemma backends_after_opens n0 opens :
  0 < n0 →
  wqu_inv (wqu_after_opens n0 opens) ∧ qf_inv (qf_after_opens n0 opens) ∧
  view_equiv (wqu_view (wqu_after_opens n0 opens))
             (qf_view (qf_after_opens n0 opens)).
Proof.
  intros Hn0. unfold wqu_after_opens, qf_after_opens.
  destruct (wqu_new_run n0 Hn0) as (sW & -> & HW & HnW & HgW & HcW & HconnW).
  destruct (qf_new_run n0 Hn0) as (sQ & -> & HQ & HnQ & HgQ & HcQ & HconnQ).
  simpl.
  assert (view_equiv (wqu_view sW) (qf_view sQ)) as Hv.
  { unfold view_equiv, wqu_view, qf_view. simpl.
    split_and!; try congruence. rewrite HnW. intros u v Hu Hv.
    by rewrite HconnW, HconnQ. }
  clear -HW HQ Hv. revert sW sQ HW HQ Hv.
  induction opens as [|[row col] l IH]; intros sW sQ HW HQ Hv; [done|].
  simpl. rewrite <-wqu_open_state, <-qf_open_state.
  destruct (backends_step sW sQ (Open row col) HW HQ Hv) as (_ & _ & ? & ? & ?).
  by apply IH.
Qed.

(** X18.  The same holds with queries between the [open] calls: for every
    n > 0, after the same [open] calls, any sequence of calls of the public
    interface (with any arguments, valid or not) gets the same answers,
    values and exceptions, from the two backends. *)
Lemma backends_runs_agree n0 opens cs :
  0 < n0 →
  (wqu_run cs (wqu_after_opens n0 opens)).1
  = (qf_run cs (qf_after_opens n0 opens)).1.
Proof.
  intros Hn0. destruct (backends_after_opens n0 opens Hn0) as (HW & HQ & Hv).
  revert HW HQ Hv. generalize (wqu_after_opens n0 opens) (qf_after_opens n0 opens).
  induction cs as [|c cs IH]; intros sW sQ HW HQ Hv; [done|].
  destruct (backends_step sW sQ c HW HQ Hv) as (Ha & _ & HW' & HQ' & Hv').
  simpl. specialize (IH _ _ HW' HQ' Hv').
  destruct (wqu_run cs _), (qf_run cs _). simpl in *. congruence.
Qed.
End runs.

(** ** Full sites are reported full *)

Section full_sites.
Import Percolation.

Lemma joins_link (C : Z → Z → Prop) links x y :
  (x, y) ∈ links → C x x → C y y → joins C links x y.
Proof.
  revert C. induction links as [|[x0 y0] l IH]; intros C Hin Hx Hy.
  - by apply elem_of_nil in Hin.
  - simpl. apply elem_of_cons in Hin as [[= <- <-]|Hin].
    + apply joins_mono. unfold join. tauto.
    + apply IH; [done|by apply join_mono..].
Qed.

Lemma elem_of_guarded {A} (c : bool) (e x : A) :
  x ∈ (if c then [e] else []) ↔ c = true ∧ x = e.
Proof.
  destruct c; [rewrite list_elem_of_singleton|rewrite elem_of_nil]; naive_solver.
Qed.

Lemma index_inj n row col row' col' :
  in_grid n row col → in_grid n row' col' →
  row * n + col = row' * n + col' → row = row' ∧ col = col'.
Proof.
  unfold in_grid. intros [Hr Hc] [Hr' Hc'] E.
  assert (row = row') as ->; [|lia].
  destruct (Z.lt_trichotomy row row') as [Hlt|[->|Hgt]]; [|done|].
  - assert ((row + 1) * n ≤ row' * n) by (apply Z.mul_le_mono_nonneg_r; lia). lia.
  - assert ((row' + 1) * n ≤ row * n) by (apply Z.mul_le_mono_nonneg_r; lia). lia.
Qed.

Lemma site_open_upd n g row col r c :
  Z.of_nat (length g) = n * n → in_grid n row col →
  site_open n (<[Z.to_nat (row * n + col) := true]> g) r c ↔
  in_grid n r c ∧ ((r = row ∧ c = col) ∨ site_open n g r c).
Proof.
  intros Hlen Hrc. pose proof (index_in_grid _ _ _ Hrc) as Hi.
  unfold site_open, is_open. rewrite vget_upd by lia. split.
  - intros [Hin Ho]. split; [done|]. case_bool_decide as E; [|by right].
    left. by apply (index_inj n).
  - intros [Hin [[-> ->]|[_ Ho]]]; (split; [done|]).
    + by rewrite bool_decide_true.
    + by case_bool_decide.
Qed.

(** [open] joins the new site to everything the grid links it to. *)
Lemma view_open_links_joined (v v' : view) row col :
  Z.of_nat (length (v_grid v)) = v_n v * v_n v →
  (∀ x, in_univ (v_n v) x → v_conn v x x) →
  (∀ x y, v_conn v' x y → v_conn v' y x) →
  in_grid (v_n v) row col →
  view_equiv v' (view_open v row col) →
  links_joined v → links_joined v'.
Proof.
  intros Hlen Hrefl Hsym Hrc (Hn & Hg & _ & Hconn) [Htop Hadj].
  unfold view_open in *.
  destruct (is_open (v_grid v) (row * v_n v + col)) eqn:Eo.
  { unfold links_joined. rewrite Hn, Hg. rewrite Hn in Hconn. split.
    - intros c Hc. apply Hconn; [by apply index_in_univ, Hc|
                                 apply virtual_in_univ|by apply Htop].
    - intros r c r' c' Ho Ho' Ha.
      apply Hconn; [by apply index_in_univ, Ho|by apply index_in_univ, Ho'|].
      by apply Hadj. }
  simpl in *. set (nn := v_n v) in *. set (idx := row * nn + col) in *.
  set (g := <[Z.to_nat idx := true]> (v_grid v)) in *.
  set (links := open_links nn g row col) in *.
  pose proof (virtual_in_univ nn) as [Hvt Hvb].
  assert (∀ x y, in_univ nn x → in_univ nn y → (x, y) ∈ links →
                 v_conn v' x y) as Hlink.
  { intros x y Hx Hy Hin. rewrite Hn in Hconn. apply Hconn; [done..|].
    apply joins_link; auto. }
  assert (∀ x y, in_univ nn x → in_univ nn y → v_conn v x y → v_conn v' x y)
    as Hold.
  { intros x y Hx Hy Hxy. rewrite Hn in Hconn. apply Hconn; [done..|].
    by apply joins_mono. }
  assert (∀ r c, adjacent row col r c → site_open nn g r c →
                 (idx, r * nn + c) ∈ links) as Hnb.
  { intros r c Ha [[Hr Hc] Ho]. unfold links, open_links. fold idx.
    rewrite !elem_of_app, !elem_of_guarded.
    unfold adjacent, in_grid in *.
    destruct Ha as [[Er [Ec|Ec]]|[Ec [Er|Er]]].
    - do 4 right. left. split; [|f_equal; nia].
      apply andb_true_intro. split; [apply bool_decide_eq_true; lia|].
      rewrite <-Ho. f_equal. nia.
    - do 5 right. split; [|f_equal; nia].
      apply andb_true_intro. split; [apply bool_decide_eq_true; lia|].
      rewrite <-Ho. f_equal. nia.
    - do 2 right. left. split; [|f_equal; nia].
      apply andb_true_intro. split; [apply bool_decide_eq_true; lia|].
      rewrite <-Ho. f_equal. nia.
    - do 3 right. left. split; [|f_equal; nia].
      apply andb_true_intro. split; [apply bool_decide_eq_true; lia|].
      rewrite <-Ho. f_equal. nia. }
  unfold links_joined. rewrite Hn, Hg. simpl. fold nn idx g. split.
  - intros c Hc. pose proof Hc as [Hin [[Er Ec]|Ho]]%site_open_upd; [| |done..].
    + apply Hlink; [by apply index_in_univ|done|].
      unfold links, open_links. fold idx. rewrite !elem_of_app, !elem_of_guarded.
      left. split; [by apply bool_decide_eq_true|].
      f_equal. unfold idx. by rewrite <-Er, Ec.
    + apply Hold; [by apply index_in_univ|done|by apply Htop].
  - intros r c r' c' Ho Ho' Ha.
    pose proof Ho as [Hin [[Er Ec]|Ho1]]%site_open_upd; [| |done..];
      pose proof Ho' as [Hin' [[Er' Ec']|Ho1']]%site_open_upd; try done.
    + unfold adjacent in Ha. lia.
    + subst r c. apply Hlink; [by apply index_in_univ..|]. by apply Hnb.
    + subst r' c'. apply Hsym, Hlink; [by apply index_in_univ..|].
      apply Hnb; [|done]. unfold adjacent in *. lia.
    + apply Hold; [by apply index_in_univ..|]. by apply Hadj.
Qed.

Lemma wqu_links_joined s : wqu_reachable s → links_joined (wqu_view s).
Proof.
  induction 1 as [n0 s Hnew|s c Hreach IH].
  - destruct (decide (0 < n0)) as [Hn0|Hn0];
      [|by rewrite wqu_new_throw in Hnew by lia].
    destruct (wqu_new_run n0 Hn0) as (s' & Hrun & _ & Hn & Hg & _).
    assert (s' = s) as -> by congruence.
    assert (∀ r c, ¬ site_open (n s) (grid s) r c) as Hnone.
    { intros r c [Hrc Ho]. rewrite Hg in Ho. unfold is_open, vget in Ho.
      case_bool_decide; [|done].
      destruct (replicate _ _ !! _) as [b|] eqn:E; [|done].
      apply lookup_replicate in E as [-> _]. done. }
    split; simpl; intros; exfalso; eapply Hnone; eauto.
  - pose proof (wqu_reachable_inv s Hreach) as Hinv.
    destruct (wqu_refines s c Hinv) as (_ & Hinv' & Hv).
    set (s' := state_after s (wqu_invoke c s)) in *.
    assert (∀ x y, v_conn (wqu_view s') x y → v_conn (wqu_view s') y x) as Hsym.
    { intros x y. apply conn_sym. }
    destruct Hinv as (Hn & Hg & Hp & _ & _ & _ & Hwf & _).
    assert (∀ x, in_univ (n s) x → conn (parent s) x x) as Hrefl.
    { intros x Hx. apply conn_refl; [done|]. unfold in_univ in Hx. lia. }
    assert ((∃ row col, c = Open row col ∧ in_grid (n s) row col) ∨
            view_next (wqu_view s) c = wqu_view s)
      as [(row & col & -> & Hrc)|E].
    { destruct c as [row col| | | |]; simpl; try by right.
      destruct (decide (in_grid (n s) row col)); [left; eauto|by right]. }
    + simpl in Hv. rewrite decide_True in Hv by done.
      by apply (view_open_links_joined (wqu_view s) _ row col).
    + rewrite E in Hv. destruct Hv as (En & Eg & _ & Hconn), IH as [Htop Hadj].
      unfold links_joined. rewrite En, Eg. rewrite En in Hconn. simpl in *.
      split.
      * intros col Hc. apply Hconn; [by apply index_in_univ, Hc|
                                     apply virtual_in_univ|by apply Htop].
      * intros r c0 r' c' Ho Ho' Ha.
        apply Hconn; [by apply index_in_univ, Ho|by apply index_in_univ, Ho'|].
        by apply Hadj.
Qed.

(** The "if" half of the definition of a full site holds in every reachable
    state: a site joined to the top row by a chain of adjacent open sites is
    reported full. *)
Lemma isFull_complete s row col :
  wqu_reachable s → full_site (n s) (grid s) row col →
  answer_of (isFull row col s) = Returned true.
Proof.
  intros Hreach Hfull. pose proof (wqu_reachable_inv s Hreach) as Hinv.
  destruct (wqu_links_joined s Hreach) as [Htop Hadj]. simpl in *.
  assert (site_open (n s) (grid s) row col ∧
          conn (parent s) (row * n s + col) (n s * n s)) as [[Hrc Ho] Hc].
  { induction Hfull as [col Ho|row col row' col' _ [Ho' IH] Ha Ho].
    - split; [done|]. by apply Htop.
    - split; [done|]. eapply conn_trans; [|exact IH]. by apply Hadj. }
  destruct (wqu_isFull_run s row col Hinv Hrc) as (b & s' & -> & Hb & _).
  simpl. f_equal. by apply Hb.
Qed.
End full_sites.

(** ** Properties of the grid *)

Section grid_properties.
Import Percolation.

Lemma wqu_percolates_iff s :
  wqu_inv s →
  answer_of (percolates s) = Returned true ↔
  conn (parent s) (n s * n s) (n s * n s + 1).
Proof.
  intros Hinv. destruct (wqu_percolates_run s Hinv) as (b & s' & -> & Hb & _).
  simpl. rewrite <-Hb. naive_solver.
Qed.

Lemma view_next_conn_mono (v : view) c x y :
  v_conn v x y → v_conn (view_next v c) x y.
Proof.
  intros H. destruct c; simpl; try done.
  case_decide; [|done]. unfold view_open. destruct (is_open _ _); [done|].
  simpl. by apply joins_mono.
Qed.

(** A grid that percolates still percolates after any call. *)
Lemma wqu_percolates_step s c :
  wqu_inv s → answer_of (percolates s) = Returned true →
  answer_of (percolates (state_after s (wqu_invoke c s))) = Returned true.
Proof.
  intros Hinv Hp. apply wqu_percolates_iff in Hp; [|done].
  destruct (wqu_refines s c Hinv) as (_ & Hinv' & Hn & _ & _ & Hconn).
  set (s' := state_after s (wqu_invoke c s)) in *.
  assert (v_n (view_next (wqu_view s) c) = n s) as En.
  { destruct c; simpl; try done. case_decide; [|done]. unfold view_open.
    by destruct (is_open _ _). }
  assert (n s' = n s) as En' by (rewrite <-En; exact Hn).
  apply wqu_percolates_iff; [done|]. rewrite En'.
  apply (Hconn (n s * n s) (n s * n s + 1)).
  - change (in_univ (n s') (n s * n s)). rewrite En'. apply virtual_in_univ.
  - change (in_univ (n s') (n s * n s + 1)). rewrite En'. apply virtual_in_univ.
  - by apply (view_next_conn_mono (wqu_view s)).
Qed.

(** X19.  The integers a reachable grid stores stay inside the universe: the
    counter is the number of open sites, at most n*n; every parent entry is
    an index of the universe; every size entry lies between 1 and n*n+2.
    So the arithmetic of the program does not leave the range of [int]
    while n*n+2 is representable. *)
Lemma wqu_values_bounded s :
  wqu_reachable s →
  openSitesCount s = count_true (grid s) ∧
  0 ≤ openSitesCount s ≤ n s * n s ∧
  Forall (λ v, 0 ≤ v < n s * n s + 2) (parent s) ∧
  Forall (λ k, 1 ≤ k ≤ n s * n s + 2) (size s).
Proof.
  intros (Hn & Hg & Hp & _ & _ & _ & Hwf & _ & Hcnt & Hbd)%wqu_reachable_inv.
  split_and!; try done.
  - rewrite Hcnt. apply count_true_bound.
  - rewrite Hcnt, <-Hg. apply count_true_bound.
  - apply Forall_lookup_2. intros i v Hi.
    pose proof (lookup_lt_Some _ _ _ Hi) as Hlt.
    destruct (Hwf (Z.of_nat i)) as (r & d & Hr); [lia|].
    assert (vget (parent s) (Z.of_nat i) = Some v) as Hv.
    { unfold vget. rewrite bool_decide_true by lia. by rewrite Nat2Z.id. }
    inversion Hr as [? Hx|? ? y ? Hx Hne Hy]; subst; simplify_eq; [lia|].
    apply reach_start_range in Hy. lia.
Qed.

(** The scenarios of the class's own test, run on the model. *)

Example fresh_grid :
  let s := wqu_after_opens 3 [] in
  answer_of (numberOfOpenSites s) = Returned 0 ∧
  answer_of (percolates s) = Returned false.
Proof. split; reflexivity. Qed.

Example middle_column_percolates :
  let s := wqu_after_opens 3 [(0, 1); (1, 1); (2, 1)] in
  answer_of (numberOfOpenSites s) = Returned 3 ∧
  answer_of (percolates s) = Returned true ∧
  answer_of (isFull 2 1 s) = Returned true ∧
  answer_of (isFull 0 0 s) = Returned false ∧
  answer_of (open (-1) 0 s) = Raised out_of_bounds.
Proof. split_and!; reflexivity. Qed.

Example single_site_percolates :
  let s := wqu_after_opens 1 [(0, 0)] in
  answer_of (percolates (wqu_after_opens 1 [])) = Returned false ∧
  answer_of (percolates s) = Returned true.
Proof. split; reflexivity. Qed.

Example quick_find_middle_column :
  let s := qf_after_opens 3 [(0, 1); (1, 1); (2, 1)] in
  answer_of (PercolationQuickFind.numberOfOpenSites s) = Returned 3 ∧
  answer_of (PercolationQuickFind.percolates s) = Returned true ∧
  answer_of (PercolationQuickFind.isFull 2 1 s) = Returned true.
Proof. split_and!; reflexivity. Qed.

(** C1.  For every n > 0 and every sequence of [open(row, col)] calls, after
    every prefix of the sequence (the first [k] calls, for every [k]) the
    weighted quick-union grid and the quick-find grid give the same answer
    to [isOpen], [isFull] and [percolates] for all coordinates, and none of
    these calls goes wrong. *)
Theorem backends_agree (n0 : Z) (opens : list (Z * Z)) (k : nat) :
  0 < n0 →
  let sW := wqu_after_opens n0 (take k opens) in
  let sQ := qf_after_opens n0 (take k opens) in
  ∀ row col,
    answer_of (Percolation.isOpen row col sW)
      = answer_of (PercolationQuickFind.isOpen row col sQ) ∧
    answer_of (Percolation.isFull row col sW)
      = answer_of (PercolationQuickFind.isFull row col sQ) ∧
    answer_of (Percolation.percolates sW)
      = answer_of (PercolationQuickFind.percolates sQ) ∧
    (∀ w, answer_of (Percolation.isOpen row col sW) ≠ Aborted w) ∧
    (∀ w, answer_of (Percolation.isFull row col sW) ≠ Aborted w) ∧
    (∀ w, answer_of (Percolation.percolates sW) ≠ Aborted w).
Proof.
  intros Hn0 sW sQ row col.
  destruct (backends_after_opens n0 (take k opens) Hn0) as (HW & HQ & Hv).
  fold sW sQ in HW, HQ, Hv.
  destruct (backends_step sW sQ (IsOpen row col) HW HQ Hv) as (Ho & Ho' & _).
  destruct (backends_step sW sQ (IsFull row col) HW HQ Hv) as (Hf & Hf' & _).
  destruct (backends_step sW sQ Percolates HW HQ Hv) as (Hp & Hp' & _).
  simpl in *.
  rewrite !(proj1 (answer_of_bind_ret _ VBool _)) in Ho.
  rewrite !(proj1 (answer_of_bind_ret _ VBool _)) in Hf.
  rewrite !(proj1 (answer_of_bind_ret _ VBool _)) in Hp.
  rewrite (proj1 (answer_of_bind_ret _ VBool _)) in Ho'.
  rewrite (proj1 (answer_of_bind_ret _ VBool _)) in Hf'.
  rewrite (proj1 (answer_of_bind_ret _ VBool _)) in Hp'.
  split_and!.
  - eapply (answer_of_inj VBool); [|exact Ho]. by intros ?? [= ->].
  - eapply (answer_of_inj VBool); [|exact Hf]. by intros ?? [= ->].
  - eapply (answer_of_inj VBool); [|exact Hp]. by intros ?? [= ->].
  - intros w E. apply (Ho' w). by rewrite E.
  - intros w E. apply (Hf' w). by rewrite E.
  - intros w E. apply (Hp' w). by rewrite E.
Qed.

Lemma backends_agree_witness :
  0 < 3 ∧
  ∀ row col,
    let sW := wqu_after_opens 3 (take 2 [(0, 1); (1, 1); (2, 1)]) in
    let sQ := qf_after_opens 3 (take 2 [(0, 1); (1, 1); (2, 1)]) in
    answer_of (Percolation.isOpen row col sW)
      = answer_of (PercolationQuickFind.isOpen row col sQ) ∧
    answer_of (Percolation.isFull row col sW)
      = answer_of (PercolationQuickFind.isFull row col sQ) ∧
    answer_of (Percolation.percolates sW)
      = answer_of (PercolationQuickFind.percolates sQ) ∧
    (∀ w, answer_of (Percolation.isOpen row col sW) ≠ Aborted w) ∧
    (∀ w, answer_of (Percolation.isFull row col sW) ≠ Aborted w) ∧
    (∀ w, answer_of (Percolation.percolates sW) ≠ Aborted w).
Proof.
  split; [lia|]. intros row col.
  apply (backends_agree 3 [(0, 1); (1, 1); (2, 1)] 2); lia.
Defined.

(** C3.  In every reachable state of a grid and for every in-range
    (row, col): when [isFull(row, col)] returns true, [isOpen(row, col)]
    returns true, asked in the same state or after the [isFull] call. *)
Theorem isFull_implies_isOpen s row col :
  wqu_reachable s → in_grid (n s) row col →
  answer_of (isFull row col s) = Returned true →
  answer_of (isOpen row col s) = Returned true ∧
  answer_of (isOpen row col (state_after s (isFull row col s))) = Returned true.
Proof.
  intros Hinv%wqu_reachable_inv Hrc Hfull.
  destruct (wqu_isFull_run s row col Hinv Hrc)
    as (b & s' & Hrun & Hb & Hinv' & Hn & Hg & _).
  rewrite Hrun in Hfull |- *. simpl in Hfull, Hn, Hg |- *.
  injection Hfull as ->. destruct Hb as [Hb _]. destruct (Hb eq_refl) as [Ho _].
  rewrite (wqu_isOpen_run s) by done. rewrite (wqu_isOpen_run s') by done.
  rewrite Hn, Hg. rewrite !decide_True by done. simpl. by rewrite Ho.
Qed.

Lemma isFull_implies_isOpen_witness :
  let s := wqu_after_opens 3 [(0, 1)] in
  answer_of (isOpen 0 1 s) = Returned true ∧
  answer_of (isOpen 0 1 (state_after s (isFull 0 1 s))) = Returned true.
Proof.
  apply isFull_implies_isOpen.
  - apply wqu_after_opens_reachable. lia.
  - vm_compute. repeat split; discriminate.
  - vm_compute. reflexivity.
Defined.

(** C4.  [percolates()] never goes back: in a reachable state in which it
    returns true, it returns true after one more [open(row, col)], whatever
    the coordinates, and after any sequence of further calls. *)
Theorem percolates_monotone s :
  wqu_reachable s → answer_of (percolates s) = Returned true →
  (∀ row col,
     answer_of (percolates (state_after s (open row col s))) = Returned true) ∧
  (∀ cs, answer_of (percolates (wqu_run cs s).2) = Returned true).
Proof.
  intros Hinv%wqu_reachable_inv Hp. split.
  - intros row col. rewrite <-wqu_open_state. by apply wqu_percolates_step.
  - intros cs. revert s Hinv Hp. induction cs as [|c cs IH]; intros s Hinv Hp;
      [done|].
    simpl. specialize (IH (state_after s (wqu_invoke c s))).
    destruct (wqu_run cs _) as [answers s'] eqn:E. simpl in *. apply IH.
    + by apply wqu_refines.
    + by apply wqu_percolates_step.
Qed.

Lemma percolates_monotone_witness :
  let s := wqu_after_opens 3 [(0, 1); (1, 1); (2, 1)] in
  (∀ row col,
     answer_of (percolates (state_after s (open row col s))) = Returned true) ∧
  (∀ cs, answer_of (percolates (wqu_run cs s).2) = Returned true).
Proof.
  apply percolates_monotone.
  - apply wqu_after_opens_reachable. lia.
  - vm_compute. reflexivity.
Defined.

(** C5.  [open] is idempotent: in a reachable state and for in-range
    (row, col), a second [open(row, col)] returns at once and leaves the
    grid exactly as the first call left it, so [isOpen], [isFull] and
    [numberOfOpenSites] answer the same for all sites. *)
Theorem open_idempotent s row col :
  wqu_reachable s → in_grid (n s) row col →
  let s1 := state_after s (open row col s) in
  let s2 := state_after s1 (open row col s1) in
  open row col s1 = Ret () s1 ∧ s2 = s1 ∧
  answer_of (numberOfOpenSites s2) = answer_of (numberOfOpenSites s1) ∧
  ∀ r c, answer_of (isOpen r c s2) = answer_of (isOpen r c s1) ∧
         answer_of (isFull r c s2) = answer_of (isFull r c s1).
Proof.
  intros Hinv%wqu_reachable_inv Hrc s1 s2.
  destruct (wqu_open_run s row col Hinv Hrc)
    as (s' & Hrun & Hinv' & (Hn & Hg & _) & _).
  assert (s1 = s') as E by (unfold s1; by rewrite Hrun).
  assert (n s' = n s) as En.
  { simpl in Hn. rewrite Hn. unfold view_open. by destruct (is_open _ _). }
  assert (is_open (grid s') (row * n s' + col) = true) as Ho.
  { simpl in Hg. rewrite Hg, En. unfold view_open. simpl.
    destruct (is_open (grid s) _) eqn:Eo; [done|]. simpl.
    unfold is_open. rewrite vget_upd_eq; [done|].
    destruct Hinv as (_ & -> & _). by apply index_in_grid. }
  destruct (wqu_open_run s' row col Hinv') as (s'' & Hrun' & _ & _ & Hsame);
    [by rewrite En|].
  rewrite (Hsame Ho) in Hrun'.
  assert (s2 = s1) as E2 by (unfold s2; rewrite E, Hrun'; done).
  rewrite E2, E. by split_and!.
Qed.

Lemma open_idempotent_witness :
  let s := wqu_after_opens 3 [(0, 1)] in
  let s1 := state_after s (open 1 1 s) in
  let s2 := state_after s1 (open 1 1 s1) in
  open 1 1 s1 = Ret () s1 ∧ s2 = s1 ∧
  answer_of (numberOfOpenSites s2) = answer_of (numberOfOpenSites s1) ∧
  ∀ r c, answer_of (isOpen r c s2) = answer_of (isOpen r c s1) ∧
         answer_of (isFull r c s2) = answer_of (isFull r c s1).
Proof.
  apply open_idempotent.
  - apply wqu_after_opens_reachable. lia.
  - vm_compute. repeat split; discriminate.
Defined.

(** C7.  On a grid (n > 0, any reachable state) and for all integers
    (row, col), each of [open], [isOpen] and [isFull] throws if and only if
    row or col lies outside [0, n); the exception is then
    std::invalid_argument("Index out of bounds") and the state at the throw
    is the state before the call (nothing was changed). *)
Theorem invalid_coordinate s row col :
  wqu_reachable s →
  (∀ e s', open row col s = Throw e s' ↔
           ¬ in_grid (n s) row col ∧ e = out_of_bounds ∧ s' = s) ∧
  (∀ e s', isOpen row col s = Throw e s' ↔
           ¬ in_grid (n s) row col ∧ e = out_of_bounds ∧ s' = s) ∧
  (∀ e s', isFull row col s = Throw e s' ↔
           ¬ in_grid (n s) row col ∧ e = out_of_bounds ∧ s' = s).
Proof.
  intros Hinv%wqu_reachable_inv.
  destruct (decide (in_grid (n s) row col)) as [Hrc|Hrc].
  - destruct (wqu_open_run s row col Hinv Hrc) as (s1 & -> & _).
    destruct (wqu_isFull_run s row col Hinv Hrc) as (b & s2 & -> & _).
    rewrite wqu_isOpen_run, decide_True by done. naive_solver.
  - rewrite wqu_open_throw, wqu_isFull_throw by done.
    rewrite wqu_isOpen_run, decide_False by done. naive_solver.
Qed.

Lemma invalid_coordinate_witness :
  let s := wqu_after_opens 3 [(0, 1)] in
  (∀ e s', open (-1) 0 s = Throw e s' ↔
           ¬ in_grid (n s) (-1) 0 ∧ e = out_of_bounds ∧ s' = s) ∧
  (∀ e s', isOpen (-1) 0 s = Throw e s' ↔
           ¬ in_grid (n s) (-1) 0 ∧ e = out_of_bounds ∧ s' = s) ∧
  (∀ e s', isFull (-1) 0 s = Throw e s' ↔
           ¬ in_grid (n s) (-1) 0 ∧ e = out_of_bounds ∧ s' = s).
Proof.
  apply invalid_coordinate. apply wqu_after_opens_reachable. lia.
Defined.

(** C10.  The queries are observationally pure.  In a reachable state, a
    call of [isOpen], [isFull], [percolates] or [numberOfOpenSites] (which
    may compress paths in the parent array) leaves the side length, the
    openness grid, the open counter and the partition into components as
    they were, and every sequence of further calls gets the same answers
    as it would have got without the query. *)
Theorem queries_observationally_pure s q :
  wqu_reachable s → is_query q = true →
  let s' := state_after s (wqu_invoke q s) in
  n s' = n s ∧ grid s' = grid s ∧ openSitesCount s' = openSitesCount s ∧
  (∀ x y, in_univ (n s) x → in_univ (n s) y →
          conn (parent s') x y ↔ conn (parent s) x y) ∧
  ∀ cs, (wqu_run cs s').1 = (wqu_run cs s).1.
Proof.
  intros Hinv%wqu_reachable_inv Hq s'.
  destruct (wqu_refines s q Hinv) as (_ & Hinv' & Hv). fold s' in Hinv', Hv.
  assert (view_next (wqu_view s) q = wqu_view s) as E by (by destruct q).
  rewrite E in Hv. pose proof Hv as (Hn & Hg & Hc & Hconn). simpl in *.
  split_and!; try done.
  - by rewrite <-Hn.
  - intros cs. by apply wqu_run_equiv.
Qed.

Lemma queries_observationally_pure_witness :
  let s := wqu_after_opens 3 [(0, 1); (1, 1); (2, 1)] in
  let s' := state_after s (wqu_invoke Percolates s) in
  n s' = n s ∧ grid s' = grid s ∧ openSitesCount s' = openSitesCount s ∧
  (∀ x y, in_univ (n s) x → in_univ (n s) y →
          conn (parent s') x y ↔ conn (parent s) x y) ∧
  ∀ cs, (wqu_run cs s').1 = (wqu_run cs s).1.
Proof.
  apply queries_observationally_pure.
  - apply wqu_after_opens_reachable. lia.
  - reflexivity.
Defined.




(** C2, at the failing input.  In the 3-by-3 grid opened at (0,0), (1,0),
    (2,0) and then (2,2), [isFull(2, 2)] returns true, although no chain of
    adjacent open sites leads from (2,2) to the top row: the site is linked
    to the virtual bottom, which the open left column has connected to the
    virtual top. *)
Theorem isFull_backwash :
  let s := wqu_after_opens 3 [(0, 0); (1, 0); (2, 0); (2, 2)] in
  answer_of (isFull 2 2 s) = Returned true ∧
  answer_of (isOpen 2 2 s) = Returned true ∧
  ¬ full_site (n s) (grid s) 2 2.
Proof.
  split_and!; [vm_compute; reflexivity..|].
  set (s := wqu_after_opens _ _).
  change (n s) with 3.
  change (grid s) with [true; false; false; true; false; false; true; false; true].
  assert (∀ row col,
            full_site 3 [true; false; false; true; false; false; true; false; true]
                      row col → col = 0) as Hcol; [|by intros ?%Hcol].
  intros row col H.
  induction H as [col [[Hr Hc] Ho]|row col row' col' H' IH Hadj [[Hr Hc] Ho]].
  - assert (col = 0 ∨ col = 1 ∨ col = 2) as [-> | [-> | ->]] by lia;
      done || discriminate Ho.
  - assert (row = 0 ∨ row = 1 ∨ row = 2) as Hrow by lia.
    assert (col = 0 ∨ col = 1 ∨ col = 2) as Hcol by lia.
    unfold adjacent in Hadj. subst col'.
    destruct Hrow as [-> | [-> | ->]], Hcol as [-> | [-> | ->]];
      done || discriminate Ho || lia.
Qed.
End grid_properties.

(** ** The estimator *)

Section estimator.
Import PercolationStats.

Lemma safely_bind {St A B} (m : M St A) (k : A → M St B) s Q :
  safely m s (λ a s', safely (k a) s' Q) → safely (m ≫= k) s Q.
Proof. unfold safely, mbind, M_mbind, M_bind. by destruct (m s). Qed.

Lemma safely_mono {St A} (m : M St A) s (Q Q' : A → St → Prop) :
  safely m s Q → (∀ a s', Q a s' → Q' a s') → safely m s Q'.
Proof. unfold safely. destruct (m s); auto. Qed.

Lemma safely_Ret {St A} (m : M St A) s a s' (Q : A → St → Prop) :
  m s = Ret a s' → Q a s' → safely m s Q.
Proof. unfold safely. by intros ->. Qed.

Lemma safely_for {St} (body : Z → M St unit) (I : St → Prop) lo k s :
  (∀ i s, I s → safely (body i) s (λ _ s', I s')) →
  I s → safely (for_loop lo k body) s (λ _ s', I s').
Proof.
  intros Hbody. revert lo s. induction k as [|k IH]; intros lo s HI; [done|].
  simpl. apply safely_bind. eapply safely_mono; [by apply Hbody|].
  intros [] s' HI'. by apply IH.
Qed.

Lemma safely_while {St} (cond : M St bool) (body : M St unit)
    (I J P : St → Prop) fuel s :
  (∀ s, I s → safely cond s (λ b s', if b then J s' else P s')) →
  (∀ s, J s → safely body s (λ _ s', I s')) →
  I s → safely (while_loop fuel cond body) s (λ _ s', P s').
Proof.
  intros Hcond Hbody. revert s. induction fuel as [|fuel IH]; intros s HI; [done|].
  simpl. apply safely_bind. eapply safely_mono; [by apply Hcond|].
  intros [] s' H'; [|done]. apply safely_bind.
  eapply safely_mono; [by apply Hbody|]. intros [] s'' HI'. by apply IH.
Qed.

Lemma safely_do_while {St} (body : M St unit) (cond : M St bool)
    (I J P : St → Prop) fuel s :
  (∀ s, I s → safely body s (λ _ s', J s')) →
  (∀ s, J s → safely cond s (λ b s', if b then I s' else P s')) →
  I s → safely (do_while fuel body cond) s (λ _ s', P s').
Proof.
  intros Hbody Hcond. revert s. induction fuel as [|fuel IH]; intros s HI; [done|].
  simpl. apply safely_bind. eapply safely_mono; [by apply Hbody|].
  intros [] s' HJ. apply safely_bind. eapply safely_mono; [by apply Hcond|].
  intros [] s'' H'; [|done]. by apply IH.
Qed.

Lemma safely_draw n0 fr (Q : Z → frame → Prop) :
  supply_ok n0 (gen fr) →
  (∀ d rest, gen fr = d :: rest → 0 ≤ d ≤ n0 - 1 → supply_ok n0 rest →
             Q d (with_gen rest fr)) →
  safely draw fr Q.
Proof.
  unfold safely, draw, supply_ok. intros Hok HQ.
  destruct (gen fr) as [|d rest]; [done|].
  apply Forall_cons in Hok as [Hd Hrest]. by apply HQ.
Qed.

Lemma wqu_open_keeps_n s row col s' :
  wqu_inv s → in_grid (Percolation.n s) row col →
  Percolation.open row col s = Ret () s' →
  wqu_inv s' ∧ Percolation.n s' = Percolation.n s.
Proof.
  intros Hinv Hrc Hrun.
  destruct (wqu_open_run s row col Hinv Hrc) as (s1 & Hrun1 & Hinv1 & (Hn & _) & _).
  assert (s1 = s') as -> by congruence. split; [done|].
  simpl in Hn. rewrite Hn. unfold view_open. by destruct (is_open _ _).
Qed.

(** One trial neither throws nor leaves the bounds of a vector. *)
Lemma trial_safe n0 tr fr :
  0 < n0 → n (self fr) = n0 ∧ trials (self fr) = tr → supply_ok n0 (gen fr) →
  safely trial fr (λ _ fr', (n (self fr') = n0 ∧ trials (self fr') = tr) ∧
                            supply_ok n0 (gen fr')).
Proof.
  intros Hn0 [Hn Htr] Hok. unfold trial.
  set (F1 := λ fr : frame, (n (self fr) = n0 ∧ trials (self fr) = tr) ∧
                           supply_ok n0 (gen fr) ∧
                           wqu_inv (perc fr) ∧ Percolation.n (perc fr) = n0).
  set (F2 := λ fr : frame, F1 fr ∧ in_grid n0 (row fr) (col fr)).
  apply safely_bind. eapply safely_Ret; [done|]. simpl. rewrite Hn.
  apply safely_bind.
  destruct (wqu_new_run n0 Hn0) as (p & Hnew & Hinv & Hnp & _).
  eapply safely_Ret; [unfold declare_perc; by rewrite Hnew|].
  apply safely_bind. eapply safely_Ret; [done|].
  apply safely_bind.
  eapply safely_mono.
  { eapply (safely_while _ _ F1 F1 F1); [| |by split_and!].
    - (* while (!perc.percolates()) *)
      intros fr1 ([H1 H1'] & H2 & H3 & H4). apply safely_bind.
      destruct (wqu_percolates_run (perc fr1) H3)
        as (b & p' & Hrun & _ & Hinv' & Hn' & _).
      eapply safely_Ret; [unfold on_perc; by rewrite Hrun|].
      eapply safely_Ret; [done|]. simpl in Hn'.
      assert (F1 (with_perc p' fr1)) by (unfold F1; simpl; split_and!; congruence || done).
      by destruct b.
    - intros fr1 HF1. apply safely_bind. eapply safely_Ret; [done|].
      apply safely_bind. eapply safely_mono.
      { eapply (safely_do_while _ _ F1 F2 F2); [| |exact HF1].
        - (* row = dis(gen); col = dis(gen); *)
          intros fr2 ([H1 H1'] & H2 & H3 & H4). apply safely_bind.
          apply (safely_draw n0); [done|]. intros r rest _ Hr Hrest.
          apply safely_bind. eapply safely_Ret; [done|].
          apply safely_bind.
          apply (safely_draw n0); [done|]. intros c rest' _ Hc Hrest'.
          eapply safely_Ret; [done|].
          unfold F2, F1, in_grid. simpl. split_and!; try done; lia.
        - (* while (perc.isOpen(row, col)) *)
          intros fr2 [([H1 H1'] & H2 & H3 & H4) Hrc].
          apply safely_bind. eapply safely_Ret; [done|].
          apply safely_bind. eapply safely_Ret; [done|].
          eapply safely_Ret.
          { unfold on_perc. rewrite wqu_isOpen_run by done.
            rewrite decide_True by (by rewrite H4). done. }
          assert (with_perc (perc fr2) fr2 = fr2) as -> by (by destruct fr2).
          destruct (is_open _ _); by split_and!. }
      (* perc.open(row, col); *)
      intros [] fr2 [([H1 H1'] & H2 & H3 & H4) Hrc]. simpl.
      apply safely_bind. eapply safely_Ret; [done|].
      apply safely_bind. eapply safely_Ret; [done|].
      destruct (wqu_open_run (perc fr2) (row fr2) (col fr2) H3)
        as (p' & Hrun & _); [by rewrite H4|].
      destruct (wqu_open_keeps_n _ _ _ _ H3 ltac:(by rewrite H4) Hrun).
      eapply safely_Ret; [unfold on_perc; by rewrite Hrun|].
      unfold F1. simpl. split_and!; congruence || done. }
  intros [] fr1 ([H1 H1'] & H2 & H3 & H4). simpl.
  apply safely_bind. eapply safely_Ret; [done|].
  eapply safely_Ret; [done|]. by simpl.
Qed.

(** Dividing by zero and taking the root gives no number: NaN or infinity. *)
Lemma sqrt_div_zero (x : float) :
  Prim2SF (PrimFloat.sqrt (x / 0)) = S754_nan ∨
  Prim2SF (PrimFloat.sqrt (x / 0)) = S754_infinity false.
Proof.
  rewrite FloatAxioms.sqrt_spec, FloatAxioms.div_spec.
  change (Prim2SF 0) with (S754_zero false).
  destruct (Prim2SF x) as [sx|sx| |sx m e]; simpl; try destruct sx; auto.
Qed.

(** With a single trial [calculateStats] divides by trials - 1 = 0,
    whatever the thresholds: the standard deviation it stores is NaN or
    infinity. *)
Lemma calculateStats_single_trial s :
  trials s = 1 →
  ∃ s', calculateStats s = Ret () s' ∧
        (Prim2SF (sampleStddev s') = S754_nan ∨
         Prim2SF (sampleStddev s') = S754_infinity false).
Proof.
  intros Htr. eexists. split.
  { unfold calculateStats, mbind, M_mbind, M_bind, gets, modify. reflexivity. }
  simpl. rewrite Htr.
  change (double_of_int (1 - 1)) with 0%float. apply sqrt_div_zero.
Qed.

(** With a positive size and a positive number of trials the constructor
    does not throw; and when it returns from a single trial, the standard
    deviation it has stored is NaN or infinity. *)
Lemma ctor_safe n0 trials0 supply :
  0 < n0 → 0 < trials0 → supply_ok n0 supply →
  safely (ctor n0 trials0) (entry supply)
    (λ _ fr, trials0 = 1 →
             Prim2SF (sampleStddev (self fr)) = S754_nan ∨
             Prim2SF (sampleStddev (self fr)) = S754_infinity false).
Proof.
  intros Hn0 Htr Hok. unfold ctor.
  rewrite !bool_decide_false by lia.
  apply safely_bind. eapply safely_Ret; [done|].
  apply safely_bind. eapply safely_Ret; [done|].
  apply safely_bind. eapply safely_mono.
  { apply (safely_for _ (λ fr, (n (self fr) = n0 ∧ trials (self fr) = trials0) ∧
                               supply_ok n0 (gen fr)));
      [|done].
    intros _ fr [H1 H2]. by apply trial_safe. }
  intros [] fr [[_ Ht] _]. simpl.
  destruct (decide (trials0 = 1)) as [->|Hne].
  - destruct (calculateStats_single_trial (self fr) Ht) as (s' & Hrun & Hsd).
    eapply safely_Ret; [unfold on_self; by rewrite Hrun|]. done.
  - eapply safely_Ret; [done|]. done.
Qed.

(** X20.  Whatever the grid size and the random outputs: when the
    constructor returns from a single trial, the standard deviation it has
    stored, which [stddev()] returns, is NaN or infinity. *)
Lemma single_trial_stddev n0 supply fr :
  0 < n0 → supply_ok n0 supply →
  PercolationStats.new n0 1 supply = Ret () fr →
  Prim2SF (sampleStddev (self fr)) = S754_nan ∨
  Prim2SF (sampleStddev (self fr)) = S754_infinity false.
Proof.
  intros Hn0 Hok Hrun.
  pose proof (ctor_safe n0 1 supply Hn0 ltac:(lia) Hok) as Hsafe.
  unfold safely in Hsafe. unfold PercolationStats.new in Hrun.
  rewrite Hrun in Hsafe. by apply Hsafe.
Qed.

(** C8.  Constructing the estimator throws if and only if n <= 0 or
    trials <= 0; the exception is a std::invalid_argument, and the frame at
    the throw is the frame at entry: no threshold recorded, no random output
    taken, no grid constructed, so no trial was run.  (With n > 0 the
    outputs of the random source lie in [0, n - 1].)  Likewise constructing
    a grid throws std::invalid_argument if and only if n <= 0. *)
Theorem construction_errors n0 trials0 supply :
  (0 < n0 → supply_ok n0 supply) →
  (∀ e fr, PercolationStats.new n0 trials0 supply = Throw e fr ↔
     (n0 ≤ 0 ∨ trials0 ≤ 0) ∧ fr = entry supply ∧
     e = if bool_decide (n0 ≤ 0)
         then invalid_argument "Grid size n must be positive"
         else invalid_argument "Number of trials must be positive") ∧
  (∀ e s, Percolation.new n0 = Throw e s ↔
     n0 ≤ 0 ∧ s = Percolation.blank ∧
     e = invalid_argument "Grid size must be positive").
Proof.
  intros Hok. split.
  - intros e fr. unfold PercolationStats.new.
    destruct (decide (n0 ≤ 0)) as [Hn|Hn].
    { unfold ctor. rewrite !bool_decide_true by done. unfold throw.
      naive_solver. }
    destruct (decide (trials0 ≤ 0)) as [Ht|Ht].
    { unfold ctor. rewrite bool_decide_false, bool_decide_true by done.
      unfold throw. naive_solver. }
    pose proof (ctor_safe n0 trials0 supply ltac:(lia) ltac:(lia)
                  (Hok ltac:(lia))) as Hsafe.
    unfold safely in Hsafe. split; [|lia].
    intros E. by rewrite E in Hsafe.
  - intros e s. destruct (decide (0 < n0)) as [Hn|Hn].
    + destruct (wqu_new_run n0 Hn) as (s' & -> & _). split; [done|lia].
    + rewrite wqu_new_throw by lia. naive_solver lia.
Qed.

Lemma construction_errors_witness :
  (∀ e fr, PercolationStats.new 2 3 [0; 0; 1; 1; 0; 0] = Throw e fr ↔
     (2 ≤ 0 ∨ 3 ≤ 0) ∧ fr = entry [0; 0; 1; 1; 0; 0] ∧
     e = if bool_decide (2 ≤ 0)
         then invalid_argument "Grid size n must be positive"
         else invalid_argument "Number of trials must be positive") ∧
  (∀ e s, Percolation.new 2 = Throw e s ↔
     2 ≤ 0 ∧ s = Percolation.blank ∧
     e = invalid_argument "Grid size must be positive").
Proof.
  apply construction_errors. intros _.
  repeat (apply Forall_cons; split; [lia|]). apply Forall_nil_2.
Defined.

(** C9, at the failing input.  With trials = 1 the constructor returns, on
    a 1-by-1 grid and on a 2-by-2 grid alike, and the standard deviation it
    has computed is NaN (0.0 / 0), as are both ends of the confidence
    interval. *)
Theorem stddev_single_trial_nan :
  (∃ fr, PercolationStats.new 1 1 [0; 0] = Ret () fr ∧
         thresholds (self fr) = [1%float] ∧
         PrimFloat.is_nan (sampleStddev (self fr)) = true ∧
         (∃ lo, answer_of (confidenceLow (self fr)) = Returned lo ∧
                PrimFloat.is_nan lo = true) ∧
         (∃ hi, answer_of (confidenceHigh (self fr)) = Returned hi ∧
                PrimFloat.is_nan hi = true)) ∧
  (∃ fr, PercolationStats.new 2 1 [0; 0; 1; 0] = Ret () fr ∧
         thresholds (self fr) = [0.5%float] ∧
         PrimFloat.is_nan (sampleStddev (self fr)) = true).
Proof.
  split; eexists; (split; [vm_compute; reflexivity|]).
  - split_and!; [reflexivity..| |]; eexists; split; reflexivity.
  - split; reflexivity.
Qed.
End estimator.

(** ** The partition is the connectivity of the grid *)

Section grid_links.

Lemma grid_link_in_univ n g x y :
  grid_link n g x y → in_univ n x ∧ in_univ n y.
Proof.
  pose proof (virtual_in_univ n) as [Hvt Hvb].
  destruct 1 as [col [Hc _]|col [Hc _]|row col row' col' [Hc _] [Hc' _] _];
    split; try done; by apply index_in_univ.
Qed.

Lemma linked_in_univ n g x y :
  rtsc (grid_link n g) x y → in_univ n x → in_univ n y.
Proof.
  induction 1 as [|x y z [Hxy|Hxy] _ IH]; [done|..]; intros _; apply IH;
    apply grid_link_in_univ in Hxy; tauto.
Qed.

Lemma site_open_mark n g row col r c :
  Z.of_nat (length g) = n * n → in_grid n row col →
  site_open n g r c → site_open n (<[Z.to_nat (row * n + col) := true]> g) r c.
Proof.
  intros Hlen Hrc Ho. apply site_open_upd; [done..|]. split; [apply Ho|by right].
Qed.

Lemma grid_link_mark n g row col x y :
  Z.of_nat (length g) = n * n → in_grid n row col →
  grid_link n g x y → grid_link n (<[Z.to_nat (row * n + col) := true]> g) x y.
Proof.
  intros Hlen Hrc.
  destruct 1; econstructor; eauto using site_open_mark.
Qed.

Lemma linked_mark n g row col x y :
  Z.of_nat (length g) = n * n → in_grid n row col →
  rtsc (grid_link n g) x y →
  rtsc (grid_link n (<[Z.to_nat (row * n + col) := true]> g)) x y.
Proof.
  intros Hlen Hrc. induction 1 as [|x y z Hxy _ IH]; [done|].
  etrans; [|exact IH]. apply rtc_once.
  destruct Hxy as [Hxy|Hxy]; [left|right]; by apply grid_link_mark.
Qed.

(** Merging along pairs that a symmetric and transitive relation [R] relates
    stays within [R]. *)
Lemma joins_within n (C R : Z → Z → Prop) links :
  (∀ x y, R x y → R y x) → (∀ x y z, R x y → R y z → R x z) →
  Forall (λ e, in_univ n e.1 ∧ in_univ n e.2 ∧ R e.1 e.2) links →
  (∀ x y, in_univ n x → in_univ n y → C x y → R x y) →
  ∀ x y, in_univ n x → in_univ n y → joins C links x y → R x y.
Proof.
  intros Hsym Htrans Hl. revert C.
  induction Hl as [|[a b] l (Ha & Hb & Hab) _ IH]; intros C HC x y Hx Hy; simpl.
  - by apply HC.
  - apply IH; [|done..]. simpl in *.
    intros u w Hu Hw [H|[[H1 H2]|[H1 H2]]].
    + by apply HC.
    + apply (Htrans _ a); [by apply HC|]. apply (Htrans _ b); [done|by apply HC].
    + apply (Htrans _ b); [by apply HC|].
      apply (Htrans _ a); [by apply Hsym|by apply HC].
Qed.

(** Every pair [open] hands to [unionSites] is a link of the grid. *)
Lemma open_links_linked n g row col :
  Z.of_nat (length g) = n * n → in_grid n row col →
  ∀ e, e ∈ open_links n (<[Z.to_nat (row * n + col) := true]> g) row col →
       grid_link n (<[Z.to_nat (row * n + col) := true]> g) e.1 e.2.
Proof.
  intros Hlen Hrc e. set (g' := <[_ := true]> g).
  assert (site_open n g' row col) as Hnew.
  { apply site_open_upd; [done..|]. split; [done|by left]. }
  unfold open_links. rewrite !elem_of_app, !elem_of_guarded.
  unfold in_grid in Hrc.
  intros [[Hc ->]|[[Hc ->]|[[Hc ->]|[[Hc ->]|[[Hc ->]|[Hc ->]]]]]]; simpl.
  - apply bool_decide_eq_true in Hc. subst row. by apply link_top.
  - apply bool_decide_eq_true in Hc. subst row. by apply link_bottom.
  - apply andb_prop in Hc as [Hc%bool_decide_eq_true Ho].
    apply link_adjacent; [done| |unfold adjacent; lia].
    split; [unfold in_grid; lia|done].
  - apply andb_prop in Hc as [Hc%bool_decide_eq_true Ho].
    apply link_adjacent; [done| |unfold adjacent; lia].
    split; [unfold in_grid; lia|done].
  - apply andb_prop in Hc as [Hc%bool_decide_eq_true Ho].
    apply link_adjacent; [done| |unfold adjacent; lia].
    split; [unfold in_grid; lia|done].
  - apply andb_prop in Hc as [Hc%bool_decide_eq_true Ho].
    apply link_adjacent; [done| |unfold adjacent; lia].
    split; [unfold in_grid; lia|done].
Qed.

Lemma view_exact_links_joined (v : view) : view_exact v → links_joined v.
Proof.
  intros Hex. split.
  - intros col Ho. apply Hex; [by apply index_in_univ, Ho|apply virtual_in_univ|].
    by apply rtsc_lr, link_top.
  - intros row col row' col' Ho Ho' Ha.
    apply Hex; [by apply index_in_univ, Ho|by apply index_in_univ, Ho'|].
    by apply rtsc_lr, link_adjacent.
Qed.

Lemma view_exact_equiv (v v' : view) :
  view_equiv v' v → view_exact v → view_exact v'.
Proof.
  intros (Hn & Hg & _ & Hconn) Hex x y Hx Hy. rewrite Hn, Hg.
  rewrite Hconn by done. rewrite Hn in Hx, Hy. by apply Hex.
Qed.

(** [open] keeps the partition equal to the connectivity of the grid. *)
Lemma view_open_exact (v v' : view) row col :
  Z.of_nat (length (v_grid v)) = v_n v * v_n v →
  (∀ x, in_univ (v_n v) x → v_conn v' x x) →
  (∀ x y, v_conn v' x y → v_conn v' y x) →
  (∀ x y z, v_conn v' x y → v_conn v' y z → v_conn v' x z) →
  in_grid (v_n v) row col →
  view_equiv v' (view_open v row col) →
  view_exact v → view_exact v'.
Proof.
  intros Hlen Hrefl Hsym Htrans Hrc Hv Hex.
  assert (∀ x, in_univ (v_n v) x → v_conn v x x) as Hrefl0.
  { intros x Hx. by apply Hex. }
  pose proof (view_open_links_joined v v' row col Hlen Hrefl0 Hsym Hrc Hv
                (view_exact_links_joined v Hex)) as [Htop Hadj].
  destruct Hv as (Hn & Hg & Hcount & Hconn). unfold view_open in *.
  destruct (is_open (v_grid v) (row * v_n v + col)) eqn:Eo.
  { apply (view_exact_equiv v); [|done]. unfold view_equiv. by split_and!. }
  clear Hcount.
  simpl in *. set (nn := v_n v) in *. set (idx := row * nn + col) in *.
  set (g := <[Z.to_nat idx := true]> (v_grid v)) in *.
  set (links := open_links nn g row col) in *.
  pose proof (virtual_in_univ nn) as [Hvt Hvb].
  rewrite Hn in Hconn.
  assert (∀ x y, grid_link nn g x y → v_conn v' x y) as Hedge.
  { intros x y Hxy. rewrite Hn, Hg in Htop, Hadj.
    destruct Hxy as [c Ho|c Ho|r c r' c' Ho Ho' Ha]; [by apply Htop| |by apply Hadj].
    pose proof Ho as [Hin [[Er Ec]|Ho1]]%site_open_upd; [| |done..].
    - apply Hconn; [by apply index_in_univ|done|].
      apply joins_link; [|by apply Hrefl0, index_in_univ|by apply Hrefl0].
      unfold links, open_links. fold idx. rewrite !elem_of_app, !elem_of_guarded.
      right. left. split; [by apply bool_decide_eq_true|].
      f_equal. unfold idx. by rewrite <-Er, Ec.
    - apply Hconn; [by apply index_in_univ|done|]. apply joins_mono.
      apply Hex; [by apply index_in_univ|done|]. by apply rtsc_lr, link_bottom. }
  intros x y. rewrite Hn, Hg. intros Hx Hy. split.
  - intros Hc. apply Hconn in Hc; [|done..]. revert Hc.
    apply (joins_within nn); [by intros; symmetry|by intros; etrans| |
                              |done..].
    + apply Forall_forall. intros e He.
      pose proof (open_links_linked nn (v_grid v) row col Hlen Hrc e He) as Hl.
      destruct (grid_link_in_univ _ _ _ _ Hl). split_and!; [done..|].
      by apply rtsc_lr.
    + intros a b Ha Hb Hab. apply linked_mark; [done..|]. by apply Hex.
  - intros Hl. revert Hx Hy.
    induction Hl as [x|x y z Hxy Hl IH]; intros Hx Hz; [by apply Hrefl|].
    assert (in_univ nn y) as Hy.
    { destruct Hxy as [Hxy|Hxy]; apply grid_link_in_univ in Hxy; tauto. }
    apply (Htrans _ y); [|by apply IH].
    destruct Hxy as [Hxy|Hxy]; [|apply Hsym]; by apply Hedge.
Qed.

Lemma view_next_exact (v v' : view) c :
  Z.of_nat (length (v_grid v)) = v_n v * v_n v →
  (∀ x, in_univ (v_n v) x → v_conn v' x x) →
  (∀ x y, v_conn v' x y → v_conn v' y x) →
  (∀ x y z, v_conn v' x y → v_conn v' y z → v_conn v' x z) →
  view_equiv v' (view_next v c) →
  view_exact v → view_exact v'.
Proof.
  intros Hlen Hrefl Hsym Htrans Hv Hex.
  destruct c as [row col| | | |]; simpl in Hv;
    try by apply (view_exact_equiv v).
  destruct (decide (in_grid (v_n v) row col));
    [by apply (view_open_exact v v' row col)|by apply (view_exact_equiv v)].
Qed.

Lemma no_site_open n k r c : ¬ site_open n (replicate k false) r c.
Proof.
  intros [_ Ho]. unfold is_open, vget in Ho. case_bool_decide; [|done].
  destruct (replicate _ _ !! _) as [b|] eqn:E; [|done].
  by apply lookup_replicate in E as [-> _].
Qed.

(** A fresh grid has no link, and its components are singletons. *)
Lemma view_fresh_exact (v : view) k :
  v_grid v = replicate k false →
  (∀ x y, in_univ (v_n v) x → in_univ (v_n v) y → v_conn v x y ↔ x = y) →
  view_exact v.
Proof.
  intros Hg Hconn x y Hx Hy. rewrite Hconn by done. rewrite Hg. split.
  - by intros ->.
  - destruct 1 as [|x y z Hxy _]; [done|]. exfalso.
    destruct Hxy as [Hxy|Hxy]; destruct Hxy; by eapply no_site_open.
Qed.

Lemma wqu_exact s : wqu_reachable s → view_exact (wqu_view s).
Proof.
  induction 1 as [n0 s Hnew|s c Hreach IH].
  - destruct (decide (0 < n0)) as [Hn0|Hn0];
      [|by rewrite wqu_new_throw in Hnew by lia].
    destruct (wqu_new_run n0 Hn0) as (s' & Hrun & _ & Hn & Hg & _ & Hconn).
    assert (s' = s) as -> by congruence.
    apply (view_fresh_exact _ (Z.to_nat (n0 * n0))); [done|]. simpl.
    by rewrite Hn.
  - pose proof (wqu_reachable_inv s Hreach) as Hinv.
    destruct (wqu_refines s c Hinv) as (_ & Hinv' & Hv).
    pose proof Hv as (En & _).
    set (s' := state_after s (wqu_invoke c s)) in *.
    assert (v_n (view_next (wqu_view s) c) = Percolation.n s) as En'.
    { destruct c; simpl; try done. case_decide; [|done]. unfold view_open.
      by destruct (is_open _ _). }
    destruct Hinv as (_ & Hg & _), Hinv' as (_ & _ & Hp & _ & _ & _ & Hwf & _).
    apply (view_next_exact (wqu_view s) _ c); try done.
    + intros x Hx. apply conn_refl; [done|].
      simpl in *. unfold in_univ in Hx. rewrite En, En' in Hp. lia.
    + intros x y. apply conn_sym.
    + intros x y z. apply conn_trans.
Qed.

Lemma qf_reachable_inv s : qf_reachable s → qf_inv s.
Proof.
  induction 1 as [n0 s Hnew|s c _ IH].
  - destruct (decide (0 < n0)) as [Hn0|Hn0];
      [|by rewrite qf_new_throw in Hnew by lia].
    destruct (qf_new_run n0 Hn0) as (s' & Hrun & Hinv & _). congruence.
  - by apply qf_refines.
Qed.

Lemma qf_conn_refl ids x : 0 ≤ x < Z.of_nat (length ids) → qf_conn ids x x.
Proof. intros [i Hi]%vget_in_range. by exists i. Qed.

Lemma qf_exact s : qf_reachable s → view_exact (qf_view s).
Proof.
  induction 1 as [n0 s Hnew|s c Hreach IH].
  - destruct (decide (0 < n0)) as [Hn0|Hn0];
      [|by rewrite qf_new_throw in Hnew by lia].
    destruct (qf_new_run n0 Hn0) as (s' & Hrun & _ & Hn & Hg & _ & Hconn).
    assert (s' = s) as -> by congruence.
    apply (view_fresh_exact _ (Z.to_nat (n0 * n0))); [done|]. simpl.
    by rewrite Hn.
  - pose proof (qf_reachable_inv s Hreach) as Hinv.
    destruct (qf_refines s c Hinv) as (_ & Hinv' & Hv).
    pose proof Hv as (En & _).
    set (s' := state_after s (qf_invoke c s)) in *.
    assert (v_n (view_next (qf_view s) c) = PercolationQuickFind.n s) as En'.
    { destruct c; simpl; try done. case_decide; [|done]. unfold view_open.
      by destruct (is_open _ _). }
    destruct Hinv as (_ & Hg & _), Hinv' as (_ & _ & Hp & _).
    apply (view_next_exact (qf_view s) _ c); try done.
    + intros x Hx. apply qf_conn_refl.
      simpl in *. unfold in_univ in Hx. rewrite En, En' in Hp. lia.
    + intros x y. apply qf_conn_sym.
    + intros x y z. apply qf_conn_trans.
Qed.

End grid_links.

(** ** Spanning clusters *)

Section spanning_clusters.

Lemma full_site_open n g row col : full_site n g row col → site_open n g row col.
Proof. by destruct 1. Qed.

Lemma adjacent_sym row col row' col' :
  adjacent row col row' col' → adjacent row' col' row col.
Proof. unfold adjacent. lia. Qed.

Lemma full_site_linked n g row col :
  full_site n g row col → rtsc (grid_link n g) (row * n + col) (n * n).
Proof.
  induction 1 as [col Ho|row col row' col' Hf IH Ha Ho].
  - by apply rtsc_lr, link_top.
  - etrans; [|exact IH]. apply rtsc_lr, link_adjacent; [done| |done].
    by apply full_site_open.
Qed.

(** What a chain of links reaches from the virtual top: full sites only,
    unless the chain passes the virtual bottom, and then there is a spanning
    cluster. *)
Lemma linked_top n g x :
  rtsc (grid_link n g) (n * n) x →
  (x = n * n ∨ ∃ row col, x = row * n + col ∧ full_site n g row col) ∨
  spanning n g.
Proof.
  revert x. apply rtc_ind_r; [by left; left|].
  intros y z _ Hyz [[->|(r & c & -> & Hf)]|Hs]; [| |by right].
  - destruct Hyz as [Hyz|Hyz].
    + exfalso. inversion Hyz as [c [Hc _] E|c [Hc _] E|r c r' c' [Hc _] _ _ E];
        apply index_in_grid in Hc; lia.
    + inversion Hyz as [c Ho E|c [Hc _] E E'|r c r' c' _ [Hc _] _ E E'].
      * left. right. exists 0, c. split; [done|]. by apply full_top.
      * exfalso. lia.
      * exfalso. apply index_in_grid in Hc. lia.
  - pose proof (full_site_open _ _ _ _ Hf) as [Hrc _].
    pose proof (index_in_grid _ _ _ Hrc) as Hi.
    destruct Hyz as [Hyz|Hyz].
    + inversion Hyz as [c' Ho E|c' Ho E|r1 c1 r2 c2 Ho1 Ho2 Ha E E'].
      * by left; left.
      * right. exists c'. destruct Ho as [Hc' Ho].
        apply (index_inj n) in E as [-> ->]; done.
      * left. right. exists r2, c2. split; [done|].
        destruct Ho1 as [Hc1 Ho1].
        apply (index_inj n) in E as [-> ->]; [|done..].
        apply (full_next _ _ _ _ r c); [done|by apply adjacent_sym|done].
    + inversion Hyz as [c' [Hc' _] E E'|c' [Hc' _] E E'|r1 c1 r2 c2 Ho1 Ho2 Ha E E'].
      * exfalso. lia.
      * exfalso. lia.
      * left. right. exists r1, c1. split; [done|].
        destruct Ho2 as [Hc2 Ho2].
        apply (index_inj n) in E' as [-> ->]; [|done..].
        by apply (full_next _ _ _ _ r c).
Qed.

(** The virtual top and the virtual bottom are linked exactly when there is
    a spanning cluster. *)
Lemma linked_spanning n g :
  rtsc (grid_link n g) (n * n) (n * n + 1) ↔ spanning n g.
Proof.
  split.
  - intros [[E|(r & c & E & Hf)]|Hs]%linked_top; [lia| |done].
    apply full_site_open in Hf as [Hc%index_in_grid _]. lia.
  - intros [col Hf]. etrans; [symmetry; by apply full_site_linked|].
    apply rtsc_lr, link_bottom. by apply full_site_open.
Qed.

(** A site is linked to the virtual top exactly when it is full, unless
    there is a spanning cluster. *)
Lemma linked_full n g row col :
  in_grid n row col →
  rtsc (grid_link n g) (row * n + col) (n * n) →
  full_site n g row col ∨ spanning n g.
Proof.
  intros Hrc Hl. symmetry in Hl.
  apply linked_top in Hl as [[E|(r & c & E & Hf)]|Hs]; [|left|by right].
  - apply index_in_grid in Hrc. lia.
  - pose proof (full_site_open _ _ _ _ Hf) as [Hrc' _].
    by apply (index_inj n) in E as [-> ->].
Qed.

(** A chain of adjacent open sites down to row [row] passes every row
    above it. *)
Lemma full_site_rows n g row col :
  full_site n g row col →
  ∀ r, 0 ≤ r ≤ row → ∃ c, site_open n g r c.
Proof.
  induction 1 as [col Ho|row col row' col' Hf IH Ha Ho]; intros r Hr.
  - assert (r = 0) as -> by lia. by exists col.
  - destruct (decide (r = row)) as [->|Hne]; [by exists col|].
    apply IH. unfold adjacent in Ha. lia.
Qed.

(** A column of open sites is a chain from the top row. *)
Lemma open_column_full n g col (k : nat) :
  (∀ r, 0 ≤ r ≤ Z.of_nat k → site_open n g r col) →
  full_site n g (Z.of_nat k) col.
Proof.
  induction k as [|k IH]; intros Ho.
  - apply full_top, Ho. lia.
  - apply (full_next _ _ _ _ (Z.of_nat k) col).
    + apply IH. intros r Hr. apply Ho. lia.
    + unfold adjacent. lia.
    + apply Ho. lia.
Qed.

Lemma column_search n g col (k : nat) :
  (∀ r, 0 ≤ r < Z.of_nat k → is_open g (r * n + col) = true) ∨
  (∃ r, 0 ≤ r < Z.of_nat k ∧ is_open g (r * n + col) = false).
Proof.
  induction k as [|k [IH|(r & Hr & Ho)]].
  - left. lia.
  - destruct (is_open g (Z.of_nat k * n + col)) eqn:E.
    + left. intros r Hr. destruct (decide (r = Z.of_nat k)) as [->|]; [done|].
      apply IH. lia.
    + right. exists (Z.of_nat k). split; [lia|done].
  - right. exists r. split; [lia|done].
Qed.

(** Without a spanning cluster every column has a blocked site. *)
Lemma blocked_in_column n g col :
  0 < n → 0 ≤ col < n → ¬ spanning n g →
  ∃ row, in_grid n row col ∧ is_open g (row * n + col) = false.
Proof.
  intros Hn Hc Hns.
  destruct (column_search n g col (Z.to_nat n)) as [Hall|(r & Hr & Ho)].
  - exfalso. apply Hns. exists col.
    replace (n - 1) with (Z.of_nat (Z.to_nat (n - 1))) by lia.
    apply open_column_full. intros r Hr.
    split; [unfold in_grid; lia|]. apply Hall. lia.
  - exists r. split; [unfold in_grid; lia|done].
Qed.

Lemma count_true_unmark g (i : nat) :
  g !! i = Some true → count_true g = count_true (<[i := false]> g) + 1.
Proof.
  revert i. induction g as [|b g IH]; intros [|i] Hi; simplify_eq/=; [lia|].
  rewrite (IH i) by done. lia.
Qed.

(** Distinct open sites are counted one by one. *)
Lemma count_true_ge g (l : list nat) :
  NoDup l → (∀ i, i ∈ l → g !! i = Some true) →
  Z.of_nat (length l) ≤ count_true g.
Proof.
  intros Hnd. revert g. induction Hnd as [|i l Hni _ IH]; intros g Hl.
  - simpl. apply count_true_bound.
  - rewrite (count_true_unmark g i) by (apply Hl; left).
    simpl length. rewrite Nat2Z.inj_succ.
    enough (Z.of_nat (length l) ≤ count_true (<[i := false]> g)) by lia.
    apply IH. intros j Hj. rewrite list_lookup_insert_ne by (by intros ->).
    apply Hl. by right.
Qed.

(** A grid with an open site in every row has at least n open sites. *)
Lemma count_true_rows n g :
  0 < n → (∀ r, 0 ≤ r < n → ∃ c, site_open n g r c) → n ≤ count_true g.
Proof.
  intros Hn Hrows.
  assert (∀ k : nat, Z.of_nat k ≤ n →
            ∃ l : list nat, length l = k ∧ NoDup l ∧
              ∀ i, i ∈ l → g !! i = Some true ∧ Z.of_nat i < Z.of_nat k * n)
    as Hl.
  { induction k as [|k IH]; intros Hk.
    - exists []. split_and!; [done|constructor|]. by intros i ?%elem_of_nil.
    - destruct IH as (l & Hlen & Hnd & Hl); [lia|].
      destruct (Hrows (Z.of_nat k)) as (c & [Hr Hc] & Ho); [lia|].
      exists (Z.to_nat (Z.of_nat k * n + c) :: l). split_and!.
      + simpl. by rewrite Hlen.
      + constructor; [|done]. intros [_ Hi]%Hl. nia.
      + intros i [->|Hi]%elem_of_cons.
        * split; [|nia]. unfold is_open, vget in Ho.
          rewrite bool_decide_true in Ho by nia.
          by destruct (g !! _) as [[]|].
        * destruct (Hl i Hi) as [Hg Hlt]. split; [done|nia]. }
  destruct (Hl (Z.to_nat n)) as (l & Hlen & Hnd & Hg); [lia|].
  pose proof (count_true_ge g l Hnd (λ i Hi, proj1 (Hg i Hi))). lia.
Qed.

(** A spanning cluster takes at least n open sites. *)
Lemma spanning_count n g : 0 < n → spanning n g → n ≤ count_true g.
Proof.
  intros Hn [col Hf]. apply count_true_rows; [done|].
  intros r Hr. apply (full_site_rows n g (n - 1) col); [done|lia].
Qed.

Lemma wqu_percolates_spanning s :
  wqu_reachable s →
  ∃ b s', Percolation.percolates s = Ret b s' ∧
          (b = true ↔ spanning (Percolation.n s) (Percolation.grid s)).
Proof.
  intros Hreach. pose proof (wqu_reachable_inv s Hreach) as Hinv.
  destruct (wqu_percolates_run s Hinv) as (b & s' & Hrun & Hb & _).
  exists b, s'. split; [done|]. rewrite Hb, <-linked_spanning.
  apply (wqu_exact s Hreach); apply virtual_in_univ.
Qed.

Lemma qf_percolates_spanning s :
  qf_reachable s →
  ∃ b, PercolationQuickFind.percolates s = Ret b s ∧
       (b = true ↔ spanning (PercolationQuickFind.n s) (PercolationQuickFind.grid s)).
Proof.
  intros Hreach. pose proof (qf_reachable_inv s Hreach) as Hinv.
  destruct (qf_percolates_run s Hinv) as (b & Hrun & Hb).
  exists b. split; [done|]. rewrite Hb, <-linked_spanning.
  apply (qf_exact s Hreach); apply virtual_in_univ.
Qed.

End spanning_clusters.

(** ** Path compression *)

Section path_compression.
Import Percolation.

Lemma vget_ext {A} (l l' : list A) :
  length l = length l' → (∀ i, vget l i = vget l' i) → l = l'.
Proof.
  intros Hlen H. apply list_eq. intros i. specialize (H (Z.of_nat i)).
  unfold vget in H. rewrite bool_decide_true in H by lia.
  by rewrite Nat2Z.id in H.
Qed.

Lemma on_path_root p r z : vget p r = Some r → on_path p r z → z = r.
Proof.
  intros Hr. induction 1 as [|a b c Hab _ IH]; [done|].
  assert (b = a) as -> by congruence. by apply IH.
Qed.

Lemma on_path_step p x y z :
  vget p x = Some y → on_path p x z → z = x ∨ on_path p y z.
Proof.
  intros Hx. destruct 1 as [|a b c Hab Hbc]; [by left|].
  right. assert (b = y) as -> by congruence. done.
Qed.

Lemma reach_on_path p d x r : reach p d x r → on_path p x r.
Proof.
  induction 1 as [|d x y r Hx _ _ IH]; [done|]. by eapply rtc_l.
Qed.

(** [find] redirects every element of the chain it walks to the root, and
    writes nothing else. *)
Lemma find_rec_compress fuel s x d r :
  reach (parent s) d x r → (d < fuel)%nat →
  ∃ p', find_rec fuel x s = Ret r (with_parent p' s) ∧
        length p' = length (parent s) ∧
        (∀ z, on_path (parent s) x z → vget p' z = Some r) ∧
        (∀ z, ¬ on_path (parent s) x z → vget p' z = vget (parent s) z).
Proof.
  revert s x d. induction fuel as [|fuel IH]; intros s x d Hr Hd; [lia|].
  destruct Hr as [x Hx|d x y r Hx Hne Hy]; simpl.
  - exists (parent s).
    rewrite (bind_Ret _ _ _ _ _ (get_parent_Ret _ _ _ Hx)).
    rewrite bool_decide_false by naive_solver.
    rewrite (bind_Ret (mret ()) _ s () s) by done.
    rewrite (get_parent_Ret _ _ _ Hx). split_and!; [by destruct s|done| |done].
    by intros z ->%on_path_root.
  - destruct (IH s y d Hy ltac:(lia)) as (p1 & Hf & Hlen & Hon & Hoff).
    pose proof (vget_Some_range _ _ _ Hx) as Hrg.
    exists (<[Z.to_nat x := r]> p1).
    rewrite (bind_Ret _ _ _ _ _ (get_parent_Ret _ _ _ Hx)).
    rewrite bool_decide_true by done.
    erewrite (bind_Ret (find_rec fuel y ≫= _)); last first.
    { rewrite (bind_Ret _ _ _ _ _ Hf). apply set_parent_Ret. simpl. lia. }
    split_and!.
    + simpl. erewrite get_parent_Ret; [done|]. simpl.
      apply vget_upd_eq. lia.
    + by rewrite length_insert.
    + intros z Hz. rewrite vget_upd by lia. case_bool_decide; [done|].
      apply Hon. by destruct (on_path_step _ _ _ _ Hx Hz).
    + intros z Hz. rewrite vget_upd by lia. case_bool_decide as E.
      * subst z. destruct Hz. apply rtc_refl.
      * apply Hoff. intros Hyz. apply Hz. by eapply rtc_l.
Qed.

Lemma find_compress_run s x :
  uf_wf (parent s) → 0 ≤ x < Z.of_nat (length (parent s)) →
  ∃ r p', find x s = Ret r (with_parent p' s) ∧
          root (parent s) x r ∧
          length p' = length (parent s) ∧
          (∀ z, on_path (parent s) x z → vget p' z = Some r) ∧
          (∀ z, ¬ on_path (parent s) x z → vget p' z = vget (parent s) z) ∧
          (∀ z r', root p' z r' ↔ root (parent s) z r') ∧
          find x (with_parent p' s) = Ret r (with_parent p' s).
Proof.
  intros Hwf Hx. destruct (Hwf x Hx) as (r & d & Hr).
  pose proof (reach_bound _ _ _ _ Hr) as Hd.
  destruct (find_rec_compress _ s x d r Hr Hd) as (p' & Hf & Hlen & Hon & Hoff).
  destruct (find_rec_spec _ s x d r Hr Hd) as (p1 & Hf1 & _ & Hroots).
  assert (p1 = p') as ->.
  { rewrite Hf in Hf1. by injection Hf1. }
  exists r, p'. split_and!; try done; [by exists d|].
  (* the second call walks at most one link and writes what is there *)
  set (s' := with_parent p' s).
  assert (vget p' x = Some r) as Hx' by (apply Hon, rtc_refl).
  assert (vget p' r = Some r) as Hr' by (by eapply Hon, reach_on_path).
  assert (∃ d', reach (parent s') d' x r) as [d' Hr2].
  { destruct (decide (r = x)) as [->|Hne].
    - exists 0%nat. by constructor.
    - exists 1%nat. econstructor; [exact Hx'|done|]. by constructor. }
  pose proof (reach_bound _ _ _ _ Hr2) as Hd'.
  destruct (find_rec_compress _ s' x d' r Hr2 Hd') as (p2 & Hf2 & Hlen2 & Hon2 & Hoff2).
  unfold find. rewrite Hf2. f_equal. unfold s'. destruct s; simpl in *.
  unfold with_parent; simpl. f_equal. apply vget_ext; [done|].
  intros z. destruct (decide (z = x)) as [->|Hzx].
  - rewrite Hx'. apply Hon2, rtc_refl.
  - destruct (decide (z = r)) as [->|Hzr].
    + rewrite Hr'. apply Hon2. by eapply reach_on_path.
    + apply Hoff2. intros Hz.
      destruct (on_path_step _ _ _ _ Hx' Hz) as [?|Hz']; [done|].
      by apply on_path_root in Hz'.
Qed.

(** X17.  [find(x)] returns the root of x and compresses the path: afterwards x
    and every element on the chain of parent links from x have the root as
    parent, no other entry of the parent array has changed, no other field
    has changed, every element has the root it had, and a second [find(x)]
    returns the same root and leaves the state as it is. *)
Theorem find_compresses s x :
  wqu_reachable s → in_univ (n s) x →
  ∃ r s', find x s = Ret r s' ∧
    root (parent s) x r ∧
    wqu_same_grid s s' ∧ size s' = size s ∧
    length (parent s') = length (parent s) ∧
    (∀ z, on_path (parent s) x z → vget (parent s') z = Some r) ∧
    (∀ z, ¬ on_path (parent s) x z → vget (parent s') z = vget (parent s) z) ∧
    (∀ z r', root (parent s') z r' ↔ root (parent s) z r') ∧
    find x s' = Ret r s'.
Proof.
  intros (Hn & Hg & Hp & _ & _ & _ & Hwf & _)%wqu_reachable_inv Hx.
  unfold in_univ in Hx.
  destruct (find_compress_run s x Hwf) as (r & p' & H); [lia|].
  exists r, (with_parent p' s). destruct H as (? & ? & ? & ? & ? & ? & ?).
  by split_and!.
Qed.

Lemma find_compresses_witness :
  let s := wqu_after_opens 3 [(0, 1); (1, 1); (2, 1)] in
  ∃ r s', find 10 s = Ret r s' ∧
    root (parent s) 10 r ∧
    wqu_same_grid s s' ∧ size s' = size s ∧
    length (parent s') = length (parent s) ∧
    (∀ z, on_path (parent s) 10 z → vget (parent s') z = Some r) ∧
    (∀ z, ¬ on_path (parent s) 10 z → vget (parent s') z = vget (parent s) z) ∧
    (∀ z r', root (parent s') z r' ↔ root (parent s) z r') ∧
    find 10 s' = Ret r s'.
Proof.
  apply find_compresses.
  - apply wqu_after_opens_reachable. lia.
  - vm_compute. repeat split; discriminate.
Defined.

End path_compression.

(** ** More on the weighted quick-union grid *)

Section grid_results.
Import Percolation.

Lemma wqu_connected_iff s x y :
  wqu_inv s → in_univ (n s) x → in_univ (n s) y →
  wqu_connected s x y ↔ conn (parent s) x y.
Proof.
  intros Hinv Hx Hy.
  destruct (wqu_connected_run s x y Hinv Hx Hy) as (b & p' & Hrun & Hb & _).
  unfold wqu_connected. rewrite Hrun. simpl. rewrite <-Hb. naive_solver.
Qed.

Lemma is_open_replicate k i : is_open (replicate k false) i = false.
Proof.
  unfold is_open, vget. case_bool_decide; [|done].
  destruct (replicate _ _ !! _) as [b|] eqn:E; [|done].
  by apply lookup_replicate in E as [-> _].
Qed.

(** X1.  In every reachable state [percolates()] returns, and it returns true
    exactly when the grid has a spanning cluster: a chain of adjacent open
    sites from the top row to the bottom row. *)
Theorem percolates_iff_spanning s :
  wqu_reachable s →
  ∃ b, answer_of (percolates s) = Returned b ∧
       (b = true ↔ spanning (n s) (grid s)).
Proof.
  intros H. destruct (wqu_percolates_spanning s H) as (b & s' & -> & Hb).
  by exists b.
Qed.

Lemma percolates_iff_spanning_witness :
  let s := wqu_after_opens 3 [(0, 1); (1, 1); (2, 1)] in
  ∃ b, answer_of (percolates s) = Returned b ∧
       (b = true ↔ spanning (n s) (grid s)).
Proof.
  apply percolates_iff_spanning. apply wqu_after_opens_reachable. lia.
Defined.

(** X2.  In a reachable state and for an in-range site, [isFull] returns
    true for every full site; and when it returns true, the site is full or
    the grid percolates.  So up to the moment the grid percolates, [isFull]
    is exact. *)
Theorem isFull_exact_until_percolation s row col :
  wqu_reachable s → in_grid (n s) row col →
  ∃ b, answer_of (isFull row col s) = Returned b ∧
       (full_site (n s) (grid s) row col → b = true) ∧
       (b = true → full_site (n s) (grid s) row col ∨
                   answer_of (percolates s) = Returned true).
Proof.
  intros Hreach Hrc. pose proof (wqu_reachable_inv s Hreach) as Hinv.
  pose proof (wqu_exact s Hreach) as Hex. simpl in Hex.
  pose proof (index_in_univ _ _ _ Hrc) as Hi.
  pose proof (virtual_in_univ (n s)) as [Hvt Hvb].
  destruct (wqu_isFull_run s row col Hinv Hrc) as (b & s' & -> & Hb & _).
  exists b. split_and!; [done| |].
  - intros Hf. apply Hb. split; [by apply full_site_open in Hf as [_ ?]|].
    apply (Hex _ _ Hi Hvt). by apply full_site_linked.
  - intros [_ Hc]%Hb. apply (Hex _ _ Hi Hvt) in Hc.
    apply linked_full in Hc as [Hf|Hs]; [by left|right|done].
    destruct (wqu_percolates_spanning s Hreach) as (bp & sp & -> & Hbp).
    simpl. f_equal. by apply Hbp.
Qed.

Lemma isFull_exact_until_percolation_witness :
  let s := wqu_after_opens 3 [(0, 1); (1, 1)] in
  ∃ b, answer_of (isFull 1 1 s) = Returned b ∧
       (full_site (n s) (grid s) 1 1 → b = true) ∧
       (b = true → full_site (n s) (grid s) 1 1 ∨
                   answer_of (percolates s) = Returned true).
Proof.
  apply isFull_exact_until_percolation.
  - apply wqu_after_opens_reachable. lia.
  - vm_compute. repeat split; discriminate.
Defined.

(** X3.  While [percolates()] returns false, every column of the grid holds
    a blocked site: [isOpen] returns false for some row of it.  So a caller
    that looks for a blocked site to open, as the estimator does, can find
    one. *)
Theorem blocked_site_in_every_column s col :
  wqu_reachable s → answer_of (percolates s) = Returned false →
  0 ≤ col < n s →
  ∃ row, in_grid (n s) row col ∧
         answer_of (isOpen row col s) = Returned false.
Proof.
  intros Hreach Hp Hc. pose proof (wqu_reachable_inv s Hreach) as Hinv.
  destruct (wqu_percolates_spanning s Hreach) as (b & s' & Hrun & Hb).
  rewrite Hrun in Hp. injection Hp as ->.
  destruct (blocked_in_column (n s) (grid s) col) as (row & Hrc & Ho);
    [apply Hinv|done|naive_solver|].
  exists row. split; [done|].
  rewrite wqu_isOpen_run by done. rewrite decide_True by done. simpl.
  by rewrite Ho.
Qed.

Lemma blocked_site_in_every_column_witness :
  let s := wqu_after_opens 3 [(0, 1); (1, 1)] in
  ∃ row, in_grid (n s) row 1 ∧
         answer_of (isOpen row 1 s) = Returned false.
Proof.
  apply blocked_site_in_every_column.
  - apply wqu_after_opens_reachable. lia.
  - vm_compute. reflexivity.
  - vm_compute. repeat split; discriminate.
Defined.

(** X4.  A grid that percolates has at least n open sites (one in every
    row) and at most n*n: [numberOfOpenSites()] returns a value between n
    and n*n once [percolates()] returns true. *)
Theorem percolation_needs_n_open_sites s :
  wqu_reachable s → answer_of (percolates s) = Returned true →
  ∃ k, answer_of (numberOfOpenSites s) = Returned k ∧ n s ≤ k ≤ n s * n s.
Proof.
  intros Hreach Hp. pose proof (wqu_reachable_inv s Hreach) as Hinv.
  destruct (wqu_percolates_spanning s Hreach) as (b & s' & Hrun & Hb).
  rewrite Hrun in Hp. injection Hp as ->.
  destruct Hinv as (Hn & Hg & _ & _ & _ & _ & _ & _ & Hcnt & _).
  exists (openSitesCount s). split; [done|]. rewrite Hcnt. split.
  - apply spanning_count; [done|]. by apply Hb.
  - rewrite <-Hg. apply count_true_bound.
Qed.

Lemma percolation_needs_n_open_sites_witness :
  let s := wqu_after_opens 3 [(0, 1); (1, 1); (2, 1)] in
  ∃ k, answer_of (numberOfOpenSites s) = Returned k ∧ n s ≤ k ≤ n s * n s.
Proof.
  apply percolation_needs_n_open_sites.
  - apply wqu_after_opens_reachable. lia.
  - vm_compute. reflexivity.
Defined.



(** What [open] does to the grid and the counter. *)
Lemma wqu_open_effect s row col :
  wqu_inv s → in_grid (n s) row col →
  ∃ s', open row col s = Ret () s' ∧ wqu_inv s' ∧ n s' = n s ∧
    openSitesCount s' =
      openSitesCount s + (if is_open (grid s) (row * n s + col) then 0 else 1) ∧
    ∀ r c, in_grid (n s) r c →
      is_open (grid s') (r * n s + c) =
      if decide (r = row ∧ c = col) then true
      else is_open (grid s) (r * n s + c).
Proof.
  intros Hinv Hrc.
  destruct (wqu_open_run s row col Hinv Hrc) as (s' & Hrun & Hinv' & Hv & Hsame).
  exists s'. split; [done|]. split; [done|].
  pose proof Hinv as (_ & Hg & _).
  pose proof (index_in_grid _ _ _ Hrc) as Hi.
  unfold view_open in Hv. simpl in Hv.
  destruct (is_open (grid s) (row * n s + col)) eqn:Eo.
  - rewrite (Hsame eq_refl). split_and!; [done|lia|].
    intros r c _. case_decide as E; [|done]. by destruct E as [-> ->].
  - destruct Hv as (En & Eg & Ec & _). simpl in *.
    split_and!; [done..|].
    intros r c Hin. rewrite Eg. unfold is_open at 1. rewrite vget_upd by lia.
    case_bool_decide as E.
    + apply (index_inj (n s)) in E as [-> ->]; [|done..].
      by rewrite decide_True.
    + rewrite decide_False; [done|]. intros [-> ->]. done.
Qed.

(** X6.  In a reachable state, [open(row, col)] on an in-range site returns,
    keeps the side length, and marks that site and no other: afterwards
    [isOpen] returns true for it and answers as before for every other
    coordinate pair; the counter goes up by one if the site was blocked and
    stays as it is if the site was open. *)
Theorem open_marks_one_site s row col :
  wqu_reachable s → in_grid (n s) row col →
  ∃ s', open row col s = Ret () s' ∧ n s' = n s ∧
    answer_of (numberOfOpenSites s') =
      Returned (openSitesCount s +
                if is_open (grid s) (row * n s + col) then 0 else 1) ∧
    ∀ r c, answer_of (isOpen r c s') =
           if decide (r = row ∧ c = col) then Returned true
           else answer_of (isOpen r c s).
Proof.
  intros Hreach Hrc. pose proof (wqu_reachable_inv s Hreach) as Hinv.
  destruct (wqu_open_effect s row col Hinv Hrc)
    as (s' & Hrun & Hinv' & Hn & Hcnt & Hgrid).
  exists s'. split_and!; [done..|by simpl; f_equal|].
  intros r c. rewrite !wqu_isOpen_run by done. rewrite Hn.
  destruct (decide (in_grid (n s) r c)) as [Hin|Hout].
  - simpl. rewrite (Hgrid _ _ Hin). by case_decide.
  - rewrite decide_False; [done|]. intros [-> ->]. done.
Qed.

(** The sites a sequence of valid and invalid [open] calls has opened. *)
Lemma wqu_after_opens_sites n0 opens :
  0 < n0 →
  let s := wqu_after_opens n0 opens in
  wqu_inv s ∧ n s = n0 ∧
  ∃ sites : list (Z * Z),
    NoDup sites ∧
    (∀ rc, rc ∈ sites ↔ rc ∈ opens ∧ in_grid n0 rc.1 rc.2) ∧
    (∀ r c, in_grid n0 r c →
            is_open (grid s) (r * n0 + c) = true ↔ (r, c) ∈ sites) ∧
    openSitesCount s = Z.of_nat (length sites).
Proof.
  intros Hn0. induction opens as [|[row col] l IH] using rev_ind.
  - unfold wqu_after_opens. simpl.
    destruct (wqu_new_run n0 Hn0) as (s & -> & Hinv & Hn & Hg & Hcnt & _).
    simpl. split_and!; [done..|]. exists []. split_and!.
    + constructor.
    + intros rc. rewrite !elem_of_nil. tauto.
    + intros r c _. rewrite Hg, is_open_replicate, elem_of_nil. naive_solver.
    + done.
  - unfold wqu_after_opens in *. rewrite foldl_snoc. simpl in *.
    set (s := foldl _ _ l) in *.
    destruct IH as (Hinv & Hn & sites & Hnd & Hsites & Hopen & Hcnt).
    destruct (decide (in_grid n0 row col)) as [Hrc|Hout].
    + destruct (wqu_open_effect s row col Hinv ltac:(by rewrite Hn))
        as (s' & -> & Hinv' & Hn' & Hcnt' & Hgrid).
      simpl. rewrite Hn in *. split_and!; [done..|].
      destruct (is_open (grid s) (row * n0 + col)) eqn:Eo.
      * exists sites. split_and!; [done| | |lia].
        -- intros rc. rewrite Hsites, elem_of_app, list_elem_of_singleton.
           split; [tauto|]. intros [[?| ->] ?]; [done|].
           by apply Hsites, Hopen.
        -- intros r c Hin. rewrite (Hgrid _ _ Hin). case_decide as E.
           ++ destruct E as [-> ->]. split; [|done]. intros _. by apply Hopen.
           ++ by apply Hopen.
      * assert ((row, col) ∉ sites) as Hni.
        { intros Hin%Hopen; [congruence|done]. }
        exists ((row, col) :: sites). split_and!.
        -- by constructor.
        -- intros rc. rewrite elem_of_cons, Hsites, elem_of_app,
             list_elem_of_singleton.
           split; [intros [->|[? ?]]; tauto|]. intros [[?| ->] ?]; tauto.
        -- intros r c Hin. rewrite (Hgrid _ _ Hin), elem_of_cons.
           case_decide as E.
           ++ destruct E as [-> ->]. tauto.
           ++ rewrite (Hopen _ _ Hin). split; [tauto|].
              intros [[= -> ->]|?]; tauto.
        -- simpl length. lia.
    + rewrite wqu_open_throw by (by rewrite Hn). simpl.
      split_and!; [done..|]. exists sites. split_and!; [done| |done..].
      intros rc. rewrite Hsites, elem_of_app, list_elem_of_singleton.
      split; [tauto|]. intros [[?| ->] ?]; done.
Qed.

(** X16.  After [Percolation perc(n)] and any sequence of [open] calls,
    valid or not, [isOpen(r, c)] returns true for an in-range site exactly
    when (r, c) is among the coordinates opened, and [numberOfOpenSites()]
    returns the number of distinct in-range coordinates opened: a repeated
    [open] and an [open] that throws do not count. *)
Theorem opened_sites_counted n0 opens :
  0 < n0 →
  let s := wqu_after_opens n0 opens in
  (∀ r c, in_grid n0 r c →
     answer_of (isOpen r c s) = Returned true ↔ (r, c) ∈ opens) ∧
  ∃ sites : list (Z * Z),
    NoDup sites ∧
    (∀ rc, rc ∈ sites ↔ rc ∈ opens ∧ in_grid n0 rc.1 rc.2) ∧
    answer_of (numberOfOpenSites s) = Returned (Z.of_nat (length sites)).
Proof.
  intros Hn0 s.
  destruct (wqu_after_opens_sites n0 opens Hn0)
    as (Hinv & Hn & sites & Hnd & Hsites & Hopen & Hcnt). fold s in Hinv, Hn, Hopen, Hcnt.
  split.
  - intros r c Hin. rewrite wqu_isOpen_run by done.
    rewrite decide_True by (by rewrite Hn). simpl. rewrite Hn.
    split.
    + intros [= Ho]. apply Hopen in Ho; [|done]. by apply Hsites in Ho as [? _].
    + intros Hin'. f_equal. apply Hopen; [done|]. by apply Hsites.
  - exists sites. split_and!; [done..|]. simpl. by f_equal.
Qed.

Lemma opened_sites_counted_witness :
  let s := wqu_after_opens 3 [(0, 1); (5, 5); (0, 1); (1, 1)] in
  (∀ r c, in_grid 3 r c →
     answer_of (isOpen r c s) = Returned true ↔
     (r, c) ∈ [(0, 1); (5, 5); (0, 1); (1, 1)]) ∧
  ∃ sites : list (Z * Z),
    NoDup sites ∧
    (∀ rc, rc ∈ sites ↔
           rc ∈ [(0, 1); (5, 5); (0, 1); (1, 1)] ∧ in_grid 3 rc.1 rc.2) ∧
    answer_of (numberOfOpenSites s) = Returned (Z.of_nat (length sites)).
Proof. apply opened_sites_counted. lia. Defined.

Lemma open_marks_one_site_witness :
  let s := wqu_after_opens 3 [(0, 1)] in
  ∃ s', open 1 1 s = Ret () s' ∧ n s' = n s ∧
    answer_of (numberOfOpenSites s') =
      Returned (openSitesCount s +
                if is_open (grid s) (1 * n s + 1) then 0 else 1) ∧
    ∀ r c, answer_of (isOpen r c s') =
           if decide (r = 1 ∧ c = 1) then Returned true
           else answer_of (isOpen r c s).
Proof.
  apply open_marks_one_site.
  - apply wqu_after_opens_reachable. lia.
  - vm_compute. repeat split; discriminate.
Defined.

(** X21.  No call undoes anything.  In a reachable state and for any call
    of the public interface, with any arguments: the side length stays, the
    counter does not go down and goes up by at most one, a site for which
    [isOpen] returned true is still open afterwards, and a site for which
    [isFull] returned true is still full afterwards. *)
Theorem calls_never_undo s c :
  wqu_reachable s →
  let s' := state_after s (wqu_invoke c s) in
  n s' = n s ∧
  openSitesCount s ≤ openSitesCount s' ≤ openSitesCount s + 1 ∧
  (∀ row col, answer_of (isOpen row col s) = Returned true →
              answer_of (isOpen row col s') = Returned true) ∧
  (∀ row col, answer_of (isFull row col s) = Returned true →
              answer_of (isFull row col s') = Returned true).
Proof.
  intros Hreach s'. pose proof (wqu_reachable_inv s Hreach) as Hinv.
  destruct (wqu_refines s c Hinv) as (_ & Hinv' & Hv). fold s' in Hinv', Hv.
  pose proof Hinv as (_ & Hlen & _).
  assert (n s' = n s ∧
          openSitesCount s ≤ openSitesCount s' ≤ openSitesCount s + 1 ∧
          (∀ i, is_open (grid s) i = true → is_open (grid s') i = true) ∧
          (∀ x y, in_univ (n s) x → in_univ (n s) y →
                  conn (parent s) x y → conn (parent s') x y))
    as (En & Hcnt & Hgrid & Hconn).
  { assert (view_next (wqu_view s) c = wqu_view s ∨
            ∃ row col, in_grid (n s) row col ∧
                       is_open (grid s) (row * n s + col) = false ∧
                       view_next (wqu_view s) c =
                         mkview (n s) (<[Z.to_nat (row * n s + col) := true]> (grid s))
                                (openSitesCount s + 1)
                                (joins (conn (parent s))
                                   (open_links (n s)
                                      (<[Z.to_nat (row * n s + col) := true]> (grid s))
                                      row col)))
      as [E|(row & col & Hrc & Eo & E)].
    { destruct c as [row col| | | |]; simpl; try by left.
      case_decide; [|by left]. unfold view_open. simpl.
      destruct (is_open (grid s) (row * n s + col)) eqn:Eo; [by left|].
      right. by exists row, col. }
    - rewrite E in Hv. destruct Hv as (En & Eg & Ec & Hc). simpl in *.
      rewrite En in Hc. split_and!; [done|lia..| |].
      + intros i. by rewrite Eg.
      + intros x y Hx Hy. by apply Hc.
    - rewrite E in Hv. destruct Hv as (En & Eg & Ec & Hc). simpl in *.
      rewrite En in Hc. pose proof (index_in_grid _ _ _ Hrc).
      split_and!; [done|lia..| |].
      + intros i Hi. rewrite Eg. unfold is_open in *. rewrite vget_upd by lia.
        by case_bool_decide.
      + intros x y Hx Hy Hxy. apply Hc; [done..|]. by apply joins_mono. }
  split; [done|]. split; [done|]. split.
  - intros row col. rewrite !wqu_isOpen_run by done. rewrite En.
    case_decide; [|done]. intros [= Ho]. by rewrite (Hgrid _ Ho).
  - intros row col Hf.
    destruct (decide (in_grid (n s) row col)) as [Hrc|Hout];
      [|by rewrite wqu_isFull_throw in Hf].
    destruct (wqu_isFull_run s row col Hinv Hrc) as (b & s1 & Hrun & Hb & _).
    rewrite Hrun in Hf. injection Hf as ->.
    destruct Hb as [[Ho Hc] _]; [done|].
    destruct (wqu_isFull_run s' row col Hinv' ltac:(by rewrite En))
      as (b' & s2 & -> & Hb' & _).
    simpl. f_equal. apply Hb'. rewrite En. split; [by apply Hgrid|].
    apply Hconn; [by apply index_in_univ|apply virtual_in_univ|done].
Qed.

Lemma calls_never_undo_witness :
  let s := wqu_after_opens 3 [(0, 1); (1, 1)] in
  let s' := state_after s (wqu_invoke (Open 2 1) s) in
  n s' = n s ∧
  openSitesCount s ≤ openSitesCount s' ≤ openSitesCount s + 1 ∧
  (∀ row col, answer_of (isOpen row col s) = Returned true →
              answer_of (isOpen row col s') = Returned true) ∧
  (∀ row col, answer_of (isFull row col s) = Returned true →
              answer_of (isFull row col s') = Returned true).
Proof.
  apply calls_never_undo. apply wqu_after_opens_reachable. lia.
Defined.

(** X7.  In a reachable state and for two elements of the universe,
    [unionSites(x, y)] returns, touches neither the grid nor the counter,
    and merges the components of x and y and nothing else: afterwards
    [connected(x, y)] returns true, and [connected(u, v)] returns true
    exactly when it did before or when u and v were connected one to x and
    the other to y. *)
Theorem unionSites_connects s x y :
  wqu_reachable s → in_univ (n s) x → in_univ (n s) y →
  ∃ s', unionSites x y s = Ret () s' ∧ wqu_same_grid s s' ∧
    wqu_connected s' x y ∧
    ∀ u v, in_univ (n s) u → in_univ (n s) v →
      wqu_connected s' u v ↔
      wqu_connected s u v ∨
      (wqu_connected s u x ∧ wqu_connected s y v) ∨
      (wqu_connected s u y ∧ wqu_connected s x v).
Proof.
  intros Hreach Hx Hy. pose proof (wqu_reachable_inv s Hreach) as Hinv.
  destruct (wqu_unionSites_spec s x y Hinv Hx Hy) as (s' & Hrun & Hinv' & Hsg & Hj).
  pose proof Hsg as (En & _).
  assert (∀ u v, in_univ (n s) u → in_univ (n s) v →
            wqu_connected s' u v ↔
            wqu_connected s u v ∨
            (wqu_connected s u x ∧ wqu_connected s y v) ∨
            (wqu_connected s u y ∧ wqu_connected s x v)) as Hall.
  { intros u v Hu Hv. rewrite !wqu_connected_iff by (by rewrite ?En).
    by apply Hj. }
  exists s'. split_and!; [done..| |done].
  apply Hall; [done..|]. right. left.
  rewrite !wqu_connected_iff by done.
  destruct Hinv as (_ & _ & Hp & _ & _ & _ & Hwf & _). unfold in_univ in *.
  split; apply conn_refl; (done || lia).
Qed.

Lemma unionSites_connects_witness :
  let s := wqu_after_opens 3 [(0, 1); (2, 1)] in
  ∃ s', unionSites 1 7 s = Ret () s' ∧ wqu_same_grid s s' ∧
    wqu_connected s' 1 7 ∧
    ∀ u v, in_univ (n s) u → in_univ (n s) v →
      wqu_connected s' u v ↔
      wqu_connected s u v ∨
      (wqu_connected s u 1 ∧ wqu_connected s 7 v) ∨
      (wqu_connected s u 7 ∧ wqu_connected s 1 v).
Proof.
  apply unionSites_connects.
  - apply wqu_after_opens_reachable. lia.
  - vm_compute. repeat split; discriminate.
  - vm_compute. repeat split; discriminate.
Defined.

(** X8.  In a reachable state [connected] returns for every two elements of
    the universe (the n*n sites and the two virtual sites), and "connected
    returns true" is an equivalence relation on them: reflexive, symmetric
    and transitive. *)
Theorem connected_equivalence s :
  wqu_reachable s →
  (∀ x y, in_univ (n s) x → in_univ (n s) y →
     ∃ b, answer_of (connected x y s) = Returned b) ∧
  (∀ x, in_univ (n s) x → wqu_connected s x x) ∧
  (∀ x y, in_univ (n s) x → in_univ (n s) y →
     wqu_connected s x y → wqu_connected s y x) ∧
  (∀ x y z, in_univ (n s) x → in_univ (n s) y → in_univ (n s) z →
     wqu_connected s x y → wqu_connected s y z → wqu_connected s x z).
Proof.
  intros Hreach. pose proof (wqu_reachable_inv s Hreach) as Hinv.
  split_and!.
  - intros x y Hx Hy.
    destruct (wqu_connected_run s x y Hinv Hx Hy) as (b & p' & -> & _).
    by exists b.
  - intros x Hx. rewrite wqu_connected_iff by done.
    destruct Hinv as (_ & _ & Hp & _ & _ & _ & Hwf & _). unfold in_univ in *.
    apply conn_refl; [done|lia].
  - intros x y Hx Hy. rewrite !wqu_connected_iff by done. apply conn_sym.
  - intros x y z Hx Hy Hz. rewrite !wqu_connected_iff by done. apply conn_trans.
Qed.

Lemma connected_equivalence_witness :
  let s := wqu_after_opens 3 [(0, 1); (1, 1)] in
  (∀ x y, in_univ (n s) x → in_univ (n s) y →
     ∃ b, answer_of (connected x y s) = Returned b) ∧
  (∀ x, in_univ (n s) x → wqu_connected s x x) ∧
  (∀ x y, in_univ (n s) x → in_univ (n s) y →
     wqu_connected s x y → wqu_connected s y x) ∧
  (∀ x y z, in_univ (n s) x → in_univ (n s) y → in_univ (n s) z →
     wqu_connected s x y → wqu_connected s y z → wqu_connected s x z).
Proof.
  apply connected_equivalence. apply wqu_after_opens_reachable. lia.
Defined.

(** X9.  The row-major index is a bijection between the in-range
    coordinates and the indices 0 .. n*n-1 of the grid vector: [getIndex]
    maps an in-range (row, col) to an index below n*n, different from the
    two virtual sites, from which row and column are recovered as quotient
    and remainder by n; and every index below n*n is the index of the
    in-range pair (i / n, i mod n). *)
Theorem getIndex_round_trip s :
  wqu_reachable s →
  (∀ row col, in_grid (n s) row col →
     ∃ i, getIndex row col s = Ret i s ∧ 0 ≤ i < n s * n s ∧
          i ≠ virtualTop s ∧ i ≠ virtualBottom s ∧
          i / n s = row ∧ i mod n s = col) ∧
  (∀ i, 0 ≤ i < n s * n s →
     in_grid (n s) (i / n s) (i mod n s) ∧
     getIndex (i / n s) (i mod n s) s = Ret i s).
Proof.
  intros (Hn & _ & _ & _ & Hvt & Hvb & _)%wqu_reachable_inv. split.
  - intros row col Hrc. pose proof (index_in_grid _ _ _ Hrc) as Hi.
    destruct Hrc as [Hr Hc].
    exists (row * n s + col). split_and!; [done|lia..| |].
    + symmetry. apply (Z.div_unique_pos _ _ _ col); lia.
    + symmetry. apply (Z.mod_unique_pos _ _ row); lia.
  - intros i Hi.
    pose proof (Z.div_mod i (n s) ltac:(lia)) as Hdm.
    pose proof (Z.mod_pos_bound i (n s) Hn) as Hm.
    split.
    + split; [|done]. split; [apply Z.div_pos; lia|].
      apply Z.div_lt_upper_bound; lia.
    + unfold getIndex, gets. f_equal. lia.
Qed.

Lemma getIndex_round_trip_witness :
  let s := wqu_after_opens 3 [(0, 1)] in
  (∀ row col, in_grid (n s) row col →
     ∃ i, getIndex row col s = Ret i s ∧ 0 ≤ i < n s * n s ∧
          i ≠ virtualTop s ∧ i ≠ virtualBottom s ∧
          i / n s = row ∧ i mod n s = col) ∧
  (∀ i, 0 ≤ i < n s * n s →
     in_grid (n s) (i / n s) (i mod n s) ∧
     getIndex (i / n s) (i mod n s) s = Ret i s).
Proof.
  apply getIndex_round_trip. apply wqu_after_opens_reachable. lia.
Defined.

End grid_results.

(** ** More on the quick-find grid *)

Section qf_results.
Import PercolationQuickFind.

Lemma qf_blank_new n0 :
  0 < n0 →
  ∃ s, new n0 = Ret () s ∧ state_after blank (new n0) = s.
Proof.
  intros Hn0. destruct (qf_new_run n0 Hn0) as (s & Hrun & _).
  exists s. by rewrite Hrun.
Qed.

Lemma qf_after_opens_reachable n0 opens :
  0 < n0 → qf_reachable (qf_after_opens n0 opens).
Proof.
  intros Hn0. unfold qf_after_opens.
  destruct (qf_blank_new n0 Hn0) as (s0 & Hnew & ->).
  assert (qf_reachable s0) as H0 by (by econstructor).
  clear Hnew. revert s0 H0. induction opens as [|[row col] l IH]; intros s0 H0;
    [done|].
  simpl. apply IH. rewrite <-qf_open_state. by constructor.
Qed.

(** X10.  The quick-find grid, too, percolates exactly when it has a
    spanning cluster: in every reachable state [percolates()] returns, leaves
    the state as it is, and returns true exactly when a chain of adjacent
    open sites leads from the top row to the bottom row. *)
Theorem qf_percolates_iff_spanning s :
  qf_reachable s →
  ∃ b, percolates s = Ret b s ∧ (b = true ↔ spanning (n s) (grid s)).
Proof. apply qf_percolates_spanning. Qed.

Lemma qf_percolates_iff_spanning_witness :
  let s := qf_after_opens 3 [(0, 1); (1, 1); (2, 1)] in
  ∃ b, percolates s = Ret b s ∧ (b = true ↔ spanning (n s) (grid s)).
Proof.
  apply qf_percolates_iff_spanning. apply qf_after_opens_reachable. lia.
Defined.

(** X11.  Quick-find [unionSites(x, y)] relabels: in a reachable state and
    for two elements of the universe it returns, leaves the grid and the
    counter alone, and every entry of the id array that held id[x] holds
    id[y] afterwards while every other entry keeps its value; afterwards
    [connected(x, y)] returns true. *)
Theorem qf_unionSites_relabels s x y :
  qf_reachable s → in_univ (n s) x → in_univ (n s) y →
  ∃ ix iy s', find x s = Ret ix s ∧ find y s = Ret iy s ∧
    unionSites x y s = Ret () s' ∧ qf_same_grid s s' ∧
    length (id s') = length (id s) ∧
    (∀ i v, vget (id s) i = Some v →
            vget (id s') i = Some (if bool_decide (v = ix) then iy else v)) ∧
    qf_connected s' x y.
Proof.
  intros (Hn & Hg & Hp & Ht & Hb)%qf_reachable_inv Hx Hy. unfold in_univ in *.
  destruct (vget_in_range (id s) x) as [idX HidX]; [lia|].
  destruct (vget_in_range (id s) y) as [idY HidY]; [lia|].
  assert (find x s = Ret idX s) as Hfx by (unfold find, get_id; by rewrite HidX).
  assert (find y s = Ret idY s) as Hfy by (unfold find, get_id; by rewrite HidY).
  assert (∃ s', unionSites x y s = Ret () s' ∧ qf_same_grid s s' ∧
            length (id s') = length (id s) ∧
            ∀ i v, vget (id s) i = Some v →
              vget (id s') i = Some (if bool_decide (v = idX) then idY else v))
    as (s' & Hrun & Hsg & Hlen & Hget).
  { unfold unionSites.
    rewrite (bind_Ret (find x) _ s idX s), (bind_Ret (find y) _ s idY s) by done.
    case_bool_decide as Heq.
    - exists s. split_and!; try done. intros i v Hv. rewrite Hv. f_equal.
      case_bool_decide; congruence.
    - rewrite (bind_Ret (gets _) _ s (length (id s)) s) by done.
      destruct (qf_relabel_loop s 0 (length (id s)) idX idY)
        as (ids' & -> & Hlen & Hget); [lia|lia|].
      exists (with_id ids' s). split_and!; try done.
      intros i v Hv. simpl. rewrite Hget.
      pose proof (vget_Some_range _ _ _ Hv).
      rewrite bool_decide_true by lia. by rewrite Hv. }
  exists idX, idY, s'. split_and!; try done.
  unfold qf_connected, connected.
  rewrite (bind_Ret (find x) _ s' (if bool_decide (idX = idX) then idY else idX) s')
    by (unfold find, get_id; by rewrite (Hget _ _ HidX)).
  rewrite (bind_Ret (find y) _ s' (if bool_decide (idY = idX) then idY else idY) s')
    by (unfold find, get_id; by rewrite (Hget _ _ HidY)).
  simpl. f_equal. apply bool_decide_eq_true.
  rewrite bool_decide_true by done. by case_bool_decide.
Qed.

Lemma qf_unionSites_relabels_witness :
  let s := qf_after_opens 3 [(0, 1); (2, 1)] in
  ∃ ix iy s', find 1 s = Ret ix s ∧ find 7 s = Ret iy s ∧
    unionSites 1 7 s = Ret () s' ∧ qf_same_grid s s' ∧
    length (id s') = length (id s) ∧
    (∀ i v, vget (id s) i = Some v →
            vget (id s') i = Some (if bool_decide (v = ix) then iy else v)) ∧
    qf_connected s' 1 7.
Proof.
  apply qf_unionSites_relabels.
  - apply qf_after_opens_reachable. lia.
  - vm_compute. repeat split; discriminate.
  - vm_compute. repeat split; discriminate.
Defined.


End qf_results.

(** ** No call leaves the bounds of a vector *)

Section in_bounds.

Lemma view_answer_defined (v : view) c a :
  view_answer v c a →
  match a with
  | Returned _ => True
  | Raised e => e = out_of_bounds
  | Aborted _ => False
  end.
Proof.
  destruct c as [row col|row col|row col| |]; simpl.
  - intros ->. by case_decide.
  - intros ->. by case_decide.
  - case_decide; [by intros (b & -> & _)|by intros ->].
  - by intros ->.
  - by intros (b & -> & _).
Qed.

(** X12.  In a reachable state of either backend, every call of the public
    interface, with any arguments, returns a value or throws
    std::invalid_argument("Index out of bounds"): none indexes a vector
    outside its bounds, and the recursion of [find] ends. *)
Theorem calls_stay_in_bounds sW sQ c :
  wqu_reachable sW → qf_reachable sQ →
  match answer_of (wqu_invoke c sW) with
  | Returned _ => True
  | Raised e => e = out_of_bounds
  | Aborted _ => False
  end ∧
  match answer_of (qf_invoke c sQ) with
  | Returned _ => True
  | Raised e => e = out_of_bounds
  | Aborted _ => False
  end.
Proof.
  intros HW%wqu_reachable_inv HQ%qf_reachable_inv. split.
  - destruct (wqu_refines sW c HW) as (Ha & _). by eapply view_answer_defined.
  - destruct (qf_refines sQ c HQ) as (Ha & _). by eapply view_answer_defined.
Qed.

Lemma calls_stay_in_bounds_witness :
  match answer_of (wqu_invoke (IsFull 2 1)
                     (wqu_after_opens 3 [(0, 1); (1, 1); (2, 1)])) with
  | Returned _ => True
  | Raised e => e = out_of_bounds
  | Aborted _ => False
  end ∧
  match answer_of (qf_invoke (IsFull 2 1)
                     (qf_after_opens 3 [(0, 1); (1, 1); (2, 1)])) with
  | Returned _ => True
  | Raised e => e = out_of_bounds
  | Aborted _ => False
  end.
Proof.
  apply calls_stay_in_bounds.
  - apply wqu_after_opens_reachable. lia.
  - apply qf_after_opens_reachable. lia.
Defined.

End in_bounds.

(** ** What the estimator records *)

Section estimator_results.
Import PercolationStats.






(** The run of the witness returns: two trials on a 2-by-2 grid, the first
    opening (0,0) and (1,0), the second (0,1), a repeated (0,1), then (1,1). *)
Example two_trials_return :
  ∃ fr, PercolationStats.new 2 2 [0; 0; 1; 0; 0; 1; 0; 1; 1; 1] = Ret () fr ∧
        thresholds (self fr) = [0.5%float; 0.5%float] ∧ gen fr = [].
Proof. eexists. split; [vm_compute; reflexivity|]. by vm_compute. Qed.

End estimator_results.

(** ** The two estimators *)

Section estimators.
Import PercolationStats.


















End estimators.

(** ** Weighting keeps the trees shallow *)

Section balance.
Import Percolation.

Lemma shallower_refl p : shallower p p.
Proof. intros y d r Hr. exists d. split; [done|lia]. Qed.

Lemma shallower_trans p1 p2 p3 :
  shallower p1 p2 → shallower p2 p3 → shallower p1 p3.
Proof.
  intros H12 H23 y d3 r H3. destruct (H23 _ _ _ H3) as (d2 & H2 & ?).
  destruct (H12 _ _ _ H2) as (d1 & H1 & ?). exists d1. split; [done|lia].
Qed.

Lemma reach_root_zero p d r r' :
  vget p r = Some r → reach p d r r' → d = 0%nat ∧ r' = r.
Proof.
  intros Hr H. by destruct (reach_det _ _ _ _ _ _ H (reach_here _ _ Hr)).
Qed.

(** Redirecting an element to its root makes no chain longer. *)
Lemma compress_shallower p x r :
  root p x r → shallower p (<[Z.to_nat x := r]> p).
Proof.
  intros [d0 Hx] y d' r'. pose proof (reach_start_range _ _ _ _ Hx) as Hrg.
  pose proof (reach_root _ _ _ _ Hx) as Hr.
  induction 1 as [y Hy|d1 y z r' Hy Hne Hz IH].
  - exists 0%nat. split; [|lia]. constructor.
    rewrite vget_upd in Hy by lia. case_bool_decide as E; [|done].
    subst y. by simplify_eq.
  - destruct IH as (d & Hd & Hle). rewrite vget_upd in Hy by lia.
    case_bool_decide as E.
    + subst y. simplify_eq.
      destruct (reach_root_zero _ _ _ _ Hr Hd) as [-> ->].
      exists d0. split; [done|]. destruct Hx; [done|lia].
    + exists (S d). split; [by econstructor|lia].
Qed.

(** Hanging the root [a] under the root [b] lengthens the chains of [a]'s
    tree by one link and leaves the others as they are. *)
Lemma link_deeper p a b y d' r' :
  vget p a = Some a → vget p b = Some b → a ≠ b →
  reach (<[Z.to_nat a := b]> p) d' y r' →
  (∃ d, reach p d y a ∧ d' = S d ∧ r' = b) ∨ (reach p d' y r' ∧ r' ≠ a).
Proof.
  intros Ha Hb Hab. pose proof (vget_Some_range _ _ _ Ha) as Hrg.
  induction 1 as [y Hy|d1 y z r' Hy Hne Hz IH].
  - rewrite vget_upd in Hy by lia. case_bool_decide as E; [by simplify_eq|].
    right. split; [by constructor|done].
  - rewrite vget_upd in Hy by lia. case_bool_decide as E.
    + subst y. simplify_eq. left.
      destruct IH as [(d & Hd & _)|[Hd _]].
      * by destruct (reach_root_zero _ _ _ _ Hb Hd).
      * destruct (reach_root_zero _ _ _ _ Hb Hd) as [-> ->].
        exists 0%nat. split_and!; [by constructor|done..].
    + destruct IH as [(d & Hd & -> & ->)|[Hd Hr]].
      * left. exists (S d). split_and!; [by econstructor|done..].
      * right. split; [by econstructor|done].
Qed.

(** Weighting: hanging the smaller tree under the larger keeps the trees
    balanced. *)
Lemma balanced_link p sz a b sa sb :
  vget p a = Some a → vget p b = Some b → a ≠ b →
  vget sz a = Some sa → vget sz b = Some sb → sa ≤ sb →
  balanced p sz →
  balanced (<[Z.to_nat a := b]> p) (<[Z.to_nat b := sb + sa]> sz).
Proof.
  intros Ha Hb Hab Hsa Hsb Hle Hbal x d' r' k Hreach Hk.
  pose proof (vget_Some_range _ _ _ Hsb) as Hrg.
  pose proof (Hbal a 0%nat a sa (reach_here _ _ Ha) Hsa) as Hsa1.
  change (2 ^ Z.of_nat 0) with 1 in Hsa1.
  destruct (link_deeper _ _ _ _ _ _ Ha Hb Hab Hreach)
    as [(d & Hd & -> & ->)|[Hd Hne]].
  - rewrite vget_upd_eq in Hk by lia. simplify_eq.
    pose proof (Hbal _ _ _ _ Hd Hsa) as H2.
    rewrite Nat2Z.inj_succ, Z.pow_succ_r by lia. lia.
  - rewrite vget_upd in Hk by lia. case_bool_decide as E.
    + subst r'. simplify_eq. pose proof (Hbal _ _ _ _ Hd Hsb). lia.
    + by eapply Hbal.
Qed.

Lemma balanced_shallower p p' sz :
  shallower p p' → balanced p sz → balanced p' sz.
Proof.
  intros Hsh Hbal x d' r k Hr Hk. destruct (Hsh _ _ _ Hr) as (d & Hd & Hle).
  etrans; [|by eapply Hbal].
  apply Z.pow_le_mono_r; lia.
Qed.

(** [find] makes no chain longer. *)
Lemma find_rec_shallower fuel s x d r :
  reach (parent s) d x r → (d < fuel)%nat →
  ∃ p', find_rec fuel x s = Ret r (with_parent p' s) ∧
        length p' = length (parent s) ∧
        (∀ y r', root p' y r' ↔ root (parent s) y r') ∧
        shallower (parent s) p'.
Proof.
  revert s x d. induction fuel as [|fuel IH]; intros s x d Hr Hd; [lia|].
  destruct Hr as [x Hx|d x y r Hx Hne Hy]; simpl.
  - exists (parent s).
    rewrite (bind_Ret _ _ _ _ _ (get_parent_Ret _ _ _ Hx)).
    rewrite bool_decide_false by naive_solver.
    rewrite (bind_Ret (mret ()) _ s () s) by done.
    rewrite (get_parent_Ret _ _ _ Hx).
    split_and!; [by destruct s|done|done|apply shallower_refl].
  - destruct (IH s y d Hy ltac:(lia)) as (p1 & Hf & Hlen & Hroots & Hsh).
    pose proof (vget_Some_range _ _ _ Hx) as Hrg.
    assert (root p1 x r) as Hx1.
    { apply Hroots. exists (S d). econstructor; eauto. }
    exists (<[Z.to_nat x := r]> p1).
    rewrite (bind_Ret _ _ _ _ _ (get_parent_Ret _ _ _ Hx)).
    rewrite bool_decide_true by done.
    erewrite (bind_Ret (find_rec fuel y ≫= _)); last first.
    { rewrite (bind_Ret _ _ _ _ _ Hf). apply set_parent_Ret. simpl. lia. }
    split_and!.
    + simpl. erewrite get_parent_Ret; [done|]. simpl.
      apply vget_upd_eq. lia.
    + by rewrite length_insert.
    + intros y0 r'. rewrite compress_root by done. apply Hroots.
    + eapply shallower_trans; [exact Hsh|]. by apply compress_shallower.
Qed.

Lemma vget_None {A} (v : list A) i :
  ¬ 0 ≤ i < Z.of_nat (length v) → vget v i = None.
Proof.
  intros Hi. unfold vget. case_bool_decide; [|done].
  apply lookup_ge_None. lia.
Qed.

Lemma find_out_of_range s x :
  ¬ 0 ≤ x < Z.of_nat (length (parent s)) → ∃ w, find x s = Abort w.
Proof.
  intros Hx. unfold find. destruct (length (parent s)) eqn:E; simpl; [by eexists|].
  unfold mbind, M_mbind, M_bind, get_parent at 1.
  rewrite vget_None by (rewrite E; done). by eexists.
Qed.

Lemma find_uf_inv s x :
  uf_inv s → 0 ≤ x < Z.of_nat (length (parent s)) →
  ∃ r p', find x s = Ret r (with_parent p' s) ∧
          root (parent s) x r ∧ length p' = length (parent s) ∧
          (∀ y r', root p' y r' ↔ root (parent s) y r') ∧
          uf_inv (with_parent p' s).
Proof.
  intros (Hwf & Hsi & Hbal) Hx. destruct (Hwf x Hx) as (r & d & Hr).
  destruct (find_rec_shallower _ s x d r Hr (reach_bound _ _ _ _ Hr))
    as (p' & Hf & Hlen & Hroots & Hsh).
  exists r, p'. split_and!; [done|by exists d|done..|].
  unfold uf_inv. simpl. split_and!.
  - by eapply uf_wf_roots.
  - by eapply size_inv_roots.
  - by eapply balanced_shallower.
Qed.

Lemma unionSites_uf_inv s x y :
  uf_inv s →
  0 ≤ x < Z.of_nat (length (parent s)) →
  0 ≤ y < Z.of_nat (length (parent s)) →
  ∃ s', unionSites x y s = Ret () s' ∧ uf_inv s' ∧
        length (parent s') = length (parent s).
Proof.
  intros Hinv Hx Hy. pose proof Hinv as (_ & [Hsz _] & _).
  destruct (find_uf_inv s x Hinv Hx) as (rx & p1 & Hfx & Hrx & Hl1 & Hr1 & Hinv1).
  destruct (find_uf_inv (with_parent p1 s) y Hinv1)
    as (ry & p2 & Hfy & Hry & Hl2 & Hr2 & Hinv2); simpl in *; [lia|].
  set (s2 := with_parent p2 (with_parent p1 s)) in *.
  destruct Hinv2 as (Hwf2 & Hsi2 & Hbal2). simpl in *.
  assert (vget p2 rx = Some rx) as Hrx2.
  { eapply root_is_root, Hr2, Hr1, Hrx. }
  assert (vget p2 ry = Some ry) as Hry2.
  { eapply root_is_root, Hr2, Hry. }
  pose proof (vget_Some_range _ _ _ Hrx2) as Hrxr.
  pose proof (vget_Some_range _ _ _ Hry2) as Hryr.
  destruct (vget_in_range (size s) rx) as [sx Hsx]; [lia|].
  destruct (vget_in_range (size s) ry) as [sy Hsy]; [lia|].
  assert (∀ a b, a ≠ b → vget p2 a = Some a → vget p2 b = Some b →
            relinked p2 (<[Z.to_nat a := b]> p2) a b) as Hlink.
  { intros a b Hab Ha Hb z r. by rewrite link_root. }
  unfold unionSites.
  rewrite (bind_Ret _ _ _ _ _ Hfx), (bind_Ret _ _ _ _ _ Hfy).
  case_bool_decide as Hne.
  { exists s2. split_and!; [done| |simpl; lia]. by unfold uf_inv. }
  rewrite (bind_Ret _ _ s2 sx s2) by (by apply get_size_Ret).
  rewrite (bind_Ret _ _ s2 sy s2) by (by apply get_size_Ret).
  case_bool_decide as Hlt.
  - erewrite bind_Ret; last by (apply set_parent_Ret; simpl; lia).
    set (s3 := with_parent _ s2).
    rewrite (bind_Ret _ _ s3 sy s3) by (by apply get_size_Ret).
    rewrite (bind_Ret _ _ s3 sx s3) by (by apply get_size_Ret).
    rewrite set_size_Ret by (simpl; lia).
    eexists. split; [done|]. unfold uf_inv. simpl. split_and!.
    + eapply (relinked_wf p2 _ rx ry);
        [by rewrite length_insert|done|by apply Hlink|done].
    + eapply (relinked_size_inv p2 _ _ rx ry); eauto.
      by rewrite length_insert.
    + apply balanced_link; (done || lia).
    + rewrite length_insert. lia.
  - erewrite bind_Ret; last by (apply set_parent_Ret; simpl; lia).
    set (s3 := with_parent _ s2).
    rewrite (bind_Ret _ _ s3 sx s3) by (by apply get_size_Ret).
    rewrite (bind_Ret _ _ s3 sy s3) by (by apply get_size_Ret).
    rewrite set_size_Ret by (simpl; lia).
    eexists. split; [done|]. unfold uf_inv. simpl. split_and!.
    + eapply (relinked_wf p2 _ ry rx);
        [by rewrite length_insert|done|apply Hlink; done|done].
    + eapply (relinked_size_inv p2 _ _ ry rx); eauto.
      by rewrite length_insert.
    + apply balanced_link; (done || lia).
    + rewrite length_insert. lia.
Qed.

Lemma keeps_bind {St A B} (I : St → Prop) (m : M St A) (k : A → M St B) :
  keeps I m → (∀ a, keeps I (k a)) → keeps I (m ≫= k).
Proof.
  intros Hm Hk s HI. specialize (Hm s HI).
  unfold mbind, M_mbind, M_bind. destruct (m s); [by apply Hk|done..].
Qed.

Lemma keeps_same {A} (m : M t A) :
  (∀ s, match m s with
        | Ret _ s' | Throw _ s' => parent s' = parent s ∧ size s' = size s
        | Abort _ => True
        end) →
  keeps uf_inv m.
Proof.
  intros Hm s HI. specialize (Hm s). unfold uf_inv in *.
  destruct (m s) as [a s'|e s'|w]; [| |done]; by destruct Hm as [-> ->].
Qed.

Lemma keeps_find x : keeps uf_inv (find x).
Proof.
  intros s HI. destruct (decide (0 ≤ x < Z.of_nat (length (parent s)))) as [Hx|Hx].
  - by destruct (find_uf_inv s x HI Hx) as (r & p' & -> & _ & _ & _ & ?).
  - by destruct (find_out_of_range s x Hx) as [w ->].
Qed.

Lemma keeps_unionSites x y : keeps uf_inv (unionSites x y).
Proof.
  intros s HI.
  destruct (decide (0 ≤ x < Z.of_nat (length (parent s)))) as [Hx|Hx]; last first.
  { unfold unionSites, mbind, M_mbind, M_bind.
    by destruct (find_out_of_range s x Hx) as [w ->]. }
  destruct (decide (0 ≤ y < Z.of_nat (length (parent s)))) as [Hy|Hy].
  - by destruct (unionSites_uf_inv s x y HI Hx Hy) as (s' & -> & ? & _).
  - destruct (find_uf_inv s x HI Hx) as (rx & p1 & Hfx & _ & Hl1 & _).
    unfold unionSites. rewrite (bind_Ret _ _ _ _ _ Hfx).
    unfold mbind, M_mbind, M_bind.
    destruct (find_out_of_range (with_parent p1 s) y) as [w ->]; [|done].
    simpl. by rewrite Hl1.
Qed.

Lemma keeps_connected x y : keeps uf_inv (connected x y).
Proof.
  unfold connected. apply keeps_bind; [apply keeps_find|]. intros rx.
  apply keeps_bind; [apply keeps_find|]. intros ry. by intros s HI.
Qed.

Lemma keeps_validate row col : keeps uf_inv (validate row col).
Proof. apply keeps_same. intros s. rewrite wqu_validate_run. by case_decide. Qed.

Lemma keeps_isOpen row col : keeps uf_inv (isOpen row col).
Proof.
  apply keeps_same. intros s. unfold isOpen.
  unfold mbind, M_mbind, M_bind. rewrite wqu_validate_run.
  case_decide; [|done]. unfold getIndex, gets, get_grid, of_option.
  by destruct (vget _ _).
Qed.

Lemma keeps_link (c : bool) (f : t → Z) idx :
  keeps uf_inv (when c (v ← gets f; unionSites idx v)).
Proof.
  destruct c; simpl; [|by intros s HI].
  apply keeps_bind; [by intros s HI|]. intros v. apply keeps_unionSites.
Qed.

Lemma keeps_neighbor_test (c : bool) row col :
  keeps uf_inv (and_then c (isOpen row col)).
Proof. destruct c; simpl; [apply keeps_isOpen|by intros s HI]. Qed.

Lemma keeps_open row col : keeps uf_inv (open row col).
Proof.
  unfold open. apply keeps_bind; [apply keeps_validate|]. intros _.
  apply keeps_bind; [apply keeps_isOpen|]. intros [|]; [by intros s HI|].
  apply keeps_bind; [by intros s HI|]. intros index.
  apply keeps_bind.
  { apply keeps_same. intros s. unfold set_grid, mbind, M_mbind, M_bind, of_option.
    by destruct (vset _ _ _). }
  intros _. apply keeps_bind; [by apply keeps_same|]. intros _.
  apply keeps_bind; [by intros s HI|]. intros nn.
  apply keeps_bind; [apply keeps_link|]. intros _.
  apply keeps_bind; [apply keeps_link|]. intros _.
  apply keeps_bind; [apply keeps_neighbor_test|]. intros up.
  apply keeps_bind; [apply (keeps_link up (λ s, (row - 1) * n s + col))|]. intros _.
  apply keeps_bind; [apply keeps_neighbor_test|]. intros down.
  apply keeps_bind; [apply (keeps_link down (λ s, (row + 1) * n s + col))|]. intros _.
  apply keeps_bind; [apply keeps_neighbor_test|]. intros left.
  apply keeps_bind; [apply (keeps_link left (λ s, row * n s + (col - 1)))|]. intros _.
  apply keeps_bind; [apply keeps_neighbor_test|]. intros right.
  apply (keeps_link right (λ s, row * n s + (col + 1))).
Qed.

Lemma keeps_isFull row col : keeps uf_inv (isFull row col).
Proof.
  unfold isFull. apply keeps_bind; [apply keeps_validate|]. intros _.
  apply keeps_bind; [apply keeps_isOpen|]. intros [|]; simpl; [|by intros s HI].
  apply keeps_bind; [by intros s HI|]. intros i.
  apply keeps_bind; [by intros s HI|]. intros vt. apply keeps_connected.
Qed.

Lemma keeps_percolates : keeps uf_inv percolates.
Proof.
  unfold percolates. apply keeps_bind; [by intros s HI|]. intros vt.
  apply keeps_bind; [by intros s HI|]. intros vb. apply keeps_connected.
Qed.

Lemma keeps_invoke c : keeps uf_inv (wqu_invoke c).
Proof.
  destruct c; simpl; (apply keeps_bind; [|by intros ? s HI]).
  - apply keeps_open.
  - apply keeps_isOpen.
  - apply keeps_isFull.
  - by intros s HI.
  - apply keeps_percolates.
Qed.

(** A fresh grid is balanced: every element is a root of size 1. *)
Lemma new_uf_inv n0 s : new n0 = Ret () s → uf_inv s.
Proof.
  intros Hnew.
  destruct (decide (0 < n0)) as [Hn0|Hn0];
    [|by rewrite wqu_new_throw in Hnew by lia].
  destruct (wqu_new_run n0 Hn0) as (s' & Hrun & Hinv & Hn & _ & _ & Hconn).
  assert (s' = s) as -> by congruence.
  destruct Hinv as (_ & _ & Hp & _ & _ & _ & Hwf & Hsi & _ & Hbd).
  split_and!; [done..|]. intros x d r k Hr Hk.
  assert (x = r) as ->.
  { apply Hconn.
    - pose proof (reach_start_range _ _ _ _ Hr). unfold in_univ. lia.
    - pose proof (vget_Some_range _ _ _ (reach_root _ _ _ _ Hr)).
      unfold in_univ. lia.
    - exists r. split; [by exists d|]. eapply root_self, reach_root, Hr. }
  destruct (reach_root_zero _ _ _ _ (reach_root _ _ _ _ Hr) Hr) as [-> _].
  pose proof (vget_Forall _ _ _ _ Hbd Hk) as Hk1. simpl in Hk1.
  change (2 ^ Z.of_nat 0) with 1. lia.
Qed.

Lemma wqu_reachable_uf_inv s : wqu_reachable s → uf_inv s.
Proof.
  induction 1 as [n0 s Hnew|s c _ IH]; [by eapply new_uf_inv|].
  pose proof (keeps_invoke c s IH) as H.
  by destruct (wqu_invoke c s).
Qed.

(** X22.  Weighting keeps the trees shallow.  In every reachable state the
    chain of parent links from an element of the universe to its root has a
    length d with 2^d at most the size stored at the root, which is at most
    n*n+2; so d is at most log2(n*n+2), and [find] reaches the root within
    d+1 calls of itself. *)
Theorem find_depth_logarithmic s x :
  wqu_reachable s → in_univ (n s) x →
  ∃ d r k, reach (parent s) d x r ∧ vget (size s) r = Some k ∧
           2 ^ Z.of_nat d ≤ k ∧ k ≤ n s * n s + 2 ∧
           ∃ s', find_rec (S d) x s = Ret r s'.
Proof.
  intros Hreach Hx. pose proof (wqu_reachable_inv s Hreach) as Hinv.
  destruct (wqu_reachable_uf_inv s Hreach) as (Hwf & [Hlen Hsi] & Hbal).
  destruct Hinv as (_ & _ & Hp & _ & _ & _ & _ & _ & _ & Hbd).
  unfold in_univ in Hx.
  destruct (Hwf x) as (r & d & Hr); [lia|].
  destruct (Hsi r (reach_root _ _ _ _ Hr)) as (k & Hk & _).
  exists d, r, k. split_and!; [done..|by eapply Hbal| |].
  - pose proof (vget_Forall _ _ _ _ Hbd Hk) as Hk1. simpl in Hk1. lia.
  - destruct (find_rec_spec (S d) s x d r Hr) as (p' & Hf & _); [lia|].
    by eexists.
Qed.

Lemma find_depth_logarithmic_witness :
  let s := wqu_after_opens 3 [(0, 1); (1, 1); (2, 1)] in
  ∃ d r k, reach (parent s) d 10 r ∧ vget (size s) r = Some k ∧
           2 ^ Z.of_nat d ≤ k ∧ k ≤ n s * n s + 2 ∧
           ∃ s', find_rec (S d) 10 s = Ret r s'.
Proof.
  apply find_depth_logarithmic.
  - apply wqu_after_opens_reachable. lia.
  - vm_compute. repeat split; discriminate.
Defined.

End balance.

(** ** Instances of the general statements *)

Section instances.

Lemma backends_runs_agree_witness :
  (wqu_run [IsFull 2 1; Open 5 5; Open 2 2; NumberOfOpenSites; Percolates]
           (wqu_after_opens 3 [(0, 1); (1, 1); (2, 1)])).1
  = (qf_run [IsFull 2 1; Open 5 5; Open 2 2; NumberOfOpenSites; Percolates]
            (qf_after_opens 3 [(0, 1); (1, 1); (2, 1)])).1.
Proof. apply backends_runs_agree. lia. Defined.

Lemma wqu_values_bounded_witness :
  let s := wqu_after_opens 3 [(0, 1); (1, 1); (2, 1)] in
  Percolation.openSitesCount s = count_true (Percolation.grid s) ∧
  0 ≤ Percolation.openSitesCount s ≤ Percolation.n s * Percolation.n s ∧
  Forall (λ v, 0 ≤ v < Percolation.n s * Percolation.n s + 2)
         (Percolation.parent s) ∧
  Forall (λ k, 1 ≤ k ≤ Percolation.n s * Percolation.n s + 2)
         (Percolation.size s).
Proof. apply wqu_values_bounded. apply wqu_after_opens_reachable. lia. Defined.

Lemma single_trial_stddev_witness :
  ∃ fr, PercolationStats.new 2 1 [0; 0; 1; 0] = Ret () fr ∧
        (Prim2SF (PercolationStats.sampleStddev (PercolationStats.self fr))
           = S754_nan ∨
         Prim2SF (PercolationStats.sampleStddev (PercolationStats.self fr))
           = S754_infinity false).
Proof.
  eexists. split; [vm_compute; reflexivity|].
  apply (single_trial_stddev 2 [0; 0; 1; 0]); [lia| |vm_compute; reflexivity].
  repeat (apply Forall_cons; split; [lia|]). apply Forall_nil_2.
Defined.

End instances.
